(** * 2P_reader: a shallow embedding of [reader.py] and [viewer.py]

  The two scripts load a microscopy TIFF stack, contrast-stretch frames
  for display, write mean and max projections, play the stack as a movie
  and hand it to a volumetric viewer together with a physical scale.

  The embedding follows the Python text.  NumPy arrays live in a store of
  buffers and are referred to by views, NumPy's floating-point values are
  IEEE-754 numbers of the Standard Library's [SpecFloat] (binary32 for
  [np.float32], binary64 for [np.float64] and for Python's [float]),
  integer pixels are [Z] wrapped to the width of their dtype, TIFF tags
  and the metadata dictionary are finite maps with string keys, and the
  effects of the scripts (windows shown, files written, lines printed,
  exceptions raised) are threaded through a small state-and-error monad. *)

From Stdlib Require Import ZArith QArith Qround Qabs Qpower Lia Lqa List String Ascii
  DecimalString DecimalNat.
From Stdlib Require Import Floats.SpecFloat.
From stdpp Require Import base option list gmap strings.

(** ** IEEE-754 values *)

Module IEEE.

(** A binary format: the precision in bits (hidden bit included) and the
    exponent of the infinities. *)
Record format := Format { fprec : Z; femax : Z }.

Definition binary32 : format := Format 24 128.
Definition binary64 : format := Format 53 1024.

Definition add (f : format) := SFadd (fprec f) (femax f).
Definition sub (f : format) := SFsub (fprec f) (femax f).
Definition mul (f : format) := SFmul (fprec f) (femax f).
Definition div (f : format) := SFdiv (fprec f) (femax f).

(** Conversion of an integer, rounding to nearest even. *)
Definition of_Z (f : format) (z : Z) : spec_float :=
  binary_normalize (fprec f) (femax f) z 0 false.

(** Conversion between formats (exact when widening). *)
Definition round (f : format) (x : spec_float) : spec_float :=
  match x with
  | S754_finite s m e => binary_round (fprec f) (femax f) s m e
  | _ => x
  end.

Definition zero : spec_float := S754_zero false.
Definition one (f : format) : spec_float := of_Z f 1.

Definition is_nan (x : spec_float) : bool :=
  match x with S754_nan => true | _ => false end.

Definition is_zero (x : spec_float) : bool :=
  match x with S754_zero _ => true | _ => false end.

Definition is_finite (x : spec_float) : bool :=
  match x with S754_zero _ | S754_finite _ _ _ => true | _ => false end.

Definition eqb := SFeqb.
Definition ltb := SFltb.
Definition leb := SFleb.

(** The C macros behind [np.clip] on floating-point data: a NaN in the
    first operand is kept, otherwise the larger (smaller) operand wins. *)
Definition fmax (a b : spec_float) : spec_float :=
  if is_nan a then a else if ltb b a then a else b.
Definition fmin (a b : spec_float) : spec_float :=
  if is_nan a then a else if ltb a b then a else b.
Definition clip (x lo hi : spec_float) : spec_float :=
  fmin (fmax x lo) hi.

(** Truncation toward zero, the C conversion of a floating-point value to
    an integer type.  C leaves the conversion of NaN and of the
    infinities undefined; they are sent to 0 here, which is what the
    common x86-64 builds of NumPy store for an unsigned 16-bit target. *)
Definition trunc (x : spec_float) : Z :=
  match x with
  | S754_finite s m e =>
      cond_Zopp s
        (match e with
         | Z0 => Zpos m
         | Zpos p => Z.shiftl (Zpos m) (Zpos p)
         | Zneg p => Z.shiftr (Zpos m) (Zpos p)
         end)
  | _ => 0%Z
  end.

(** The rational a finite value denotes (0 for the others). *)
Definition to_Q (x : spec_float) : Q :=
  match x with
  | S754_finite s m e =>
      (inject_Z (cond_Zopp s (Zpos m)) * Qpower 2 e)%Q
  | _ => 0%Q
  end.

(** Whether bits were lost in the shifts recorded by a rounding record. *)
Definition inexact (mrs : shr_record) : bool := shr_r mrs || shr_s mrs.

(** The place of a value in the order of [SFcompare]: first its class
    (minus infinity, negative, zero, positive, plus infinity), then its
    exponent and its mantissa, negated for a negative value.  The two zeros
    share a place; NaN has none (it is given the place of zero and is
    never compared). *)
Definition order_key (x : spec_float) : Z * Z * Z :=
  match x with
  | S754_infinity true => (-2, 0, 0)%Z
  | S754_finite true m e => (-1, - e, - Zpos m)%Z
  | S754_zero _ | S754_nan => (0, 0, 0)%Z
  | S754_finite false m e => (1, e, Zpos m)%Z
  | S754_infinity false => (2, 0, 0)%Z
  end.

Definition key_le (p q : Z * Z * Z) : Prop :=
  let '(c1, a1, b1) := p in
  let '(c2, a2, b2) := q in
  (c1 < c2 ∨ (c1 = c2 ∧ (a1 < a2 ∨ (a1 = a2 ∧ b1 <= b2))))%Z.

(** A rational rounded to the nearest integer (halves go up). *)
Definition nearest (q : Q) : Z := Qfloor (q + (1 # 2)).

End IEEE.

(** ** NumPy arrays as values *)

Module Np.

(** The integer and floating-point dtypes of pixel data. *)
Inductive idtype := uint8 | int8 | uint16 | int16 | uint32 | int32 | uint64 | int64.
Inductive fdtype := float32 | float64.
Inductive dtype := DInt (d : idtype) | DFloat (d : fdtype).

#[global] Instance idtype_eq_dec : EqDecision idtype.
Proof. solve_decision. Defined.
#[global] Instance fdtype_eq_dec : EqDecision fdtype.
Proof. solve_decision. Defined.
#[global] Instance dtype_eq_dec : EqDecision dtype.
Proof. solve_decision. Defined.

Definition ibits (d : idtype) : Z :=
  match d with
  | uint8 | int8 => 8
  | uint16 | int16 => 16
  | uint32 | int32 => 32
  | uint64 | int64 => 64
  end.

Definition isigned (d : idtype) : bool :=
  match d with
  | int8 | int16 | int32 | int64 => true
  | _ => false
  end.

(** [dtype.kind]: "u", "i" or "f". *)
Definition kind (d : dtype) : string :=
  match d with
  | DInt i => if isigned i then "i" else "u"
  | DFloat _ => "f"
  end.

(** Two's-complement wrap-around into the range of an integer dtype. *)
Definition wrap (d : idtype) (z : Z) : Z :=
  if isigned d
  then ((z + 2 ^ (ibits d - 1)) mod 2 ^ ibits d - 2 ^ (ibits d - 1))%Z
  else (z mod 2 ^ ibits d)%Z.

Definition fmt (d : fdtype) : IEEE.format :=
  match d with
  | float32 => IEEE.binary32
  | float64 => IEEE.binary64
  end.

(** NumPy's promotion of two floating-point dtypes, and of an array dtype
    with the dtype of a NumPy floating-point scalar. *)
Definition promote_f (a b : fdtype) : fdtype :=
  match a, b with
  | float32, float32 => float32
  | _, _ => float64
  end.

Definition result_type (a : dtype) (s : fdtype) : fdtype :=
  match a with
  | DFloat f => promote_f f s
  | DInt i =>
      match s with
      | float32 => if (ibits i <=? 16)%Z then float32 else float64
      | float64 => float64
      end
  end.

(** The items of an array: integers of one integer dtype or floats of one
    floating-point dtype, in row-major order. *)
Inductive buffer :=
| IBuf (d : idtype) (l : list Z)
| FBuf (d : fdtype) (l : list spec_float).

Definition buf_dtype (b : buffer) : dtype :=
  match b with
  | IBuf d _ => DInt d
  | FBuf d _ => DFloat d
  end.

Definition buf_len (b : buffer) : nat :=
  match b with
  | IBuf _ l => length l
  | FBuf _ l => length l
  end.

Definition buf_slice (off len : nat) (b : buffer) : buffer :=
  match b with
  | IBuf d l => IBuf d (take len (drop off l))
  | FBuf d l => FBuf d (take len (drop off l))
  end.

Record ndarray := NdArray { shape : list nat; items : buffer }.

Definition dtype_of (a : ndarray) : dtype := buf_dtype (items a).

(** Number of items of a shape. *)
Definition size_of (sh : list nat) : nat := foldr Nat.mul 1 sh.

(** A NumPy floating-point scalar, such as the ones [np.percentile]
    returns: a value together with its dtype. *)
Record npfloat := NpFloat { sc_dtype : fdtype; sc_val : spec_float }.

(** A floating-point value of the dtype [f]: its representation is the
    canonical one of the format. *)
Definition valid (f : fdtype) (v : spec_float) : bool :=
  valid_binary (IEEE.fprec (fmt f)) (IEEE.femax (fmt f)) v.

(** The items of a buffer converted to a floating-point format. *)
Definition to_floats (f : IEEE.format) (b : buffer) : list spec_float :=
  match b with
  | IBuf _ l => map (IEEE.of_Z f) l
  | FBuf _ l => map (IEEE.round f) l
  end.

(** [a.astype(t)]. *)
Definition astype_buf (t : dtype) (b : buffer) : buffer :=
  match t with
  | DFloat f => FBuf f (to_floats (fmt f) b)
  | DInt i =>
      match b with
      | IBuf _ l => IBuf i (map (wrap i) l)
      | FBuf _ l => IBuf i (map (fun x => wrap i (IEEE.trunc x)) l)
      end
  end.

Definition astype (t : dtype) (a : ndarray) : ndarray :=
  NdArray (shape a) (astype_buf t (items a)).

(** [np.zeros_like(a, dtype=t)]. *)
Definition zeros_buf (t : dtype) (n : nat) : buffer :=
  match t with
  | DInt i => IBuf i (replicate n 0%Z)
  | DFloat f => FBuf f (replicate n IEEE.zero)
  end.

Definition zeros_like (t : dtype) (a : ndarray) : ndarray :=
  NdArray (shape a) (zeros_buf t (buf_len (items a))).

(** [a - s] and [a / s] for a NumPy floating-point scalar [s]: both operands
    are converted to the promoted dtype and combined item by item. *)
Definition map_scalar (op : IEEE.format -> spec_float -> spec_float -> spec_float)
    (a : ndarray) (s : npfloat) : ndarray :=
  let r := result_type (dtype_of a) (sc_dtype s) in
  NdArray (shape a)
    (FBuf r (map (fun x => op (fmt r) x (IEEE.round (fmt r) (sc_val s)))
               (to_floats (fmt r) (items a)))).

Definition sub_scalar := map_scalar IEEE.sub.
Definition div_scalar := map_scalar IEEE.div.

(** [p - q] for two NumPy floating-point scalars. *)
Definition npfloat_sub (p q : npfloat) : npfloat :=
  let r := promote_f (sc_dtype p) (sc_dtype q) in
  NpFloat r (IEEE.sub (fmt r) (IEEE.round (fmt r) (sc_val p))
                              (IEEE.round (fmt r) (sc_val q))).

(** [a * c] for a Python float [c]: a Python scalar is weakly typed, so a
    floating-point array keeps its dtype and an integer array becomes
    float64. *)
Definition mul_pyfloat (a : ndarray) (c : spec_float) : ndarray :=
  let r := match dtype_of a with DFloat f => f | DInt _ => float64 end in
  NdArray (shape a)
    (FBuf r (map (fun x => IEEE.mul (fmt r) x (IEEE.round (fmt r) c))
               (to_floats (fmt r) (items a)))).

(** [np.clip(a, lo, hi)] for Python integers [lo] and [hi]: the dtype of
    [a] is kept and the bounds are converted to it. *)
Definition clip_buf (lo hi : Z) (b : buffer) : buffer :=
  match b with
  | IBuf d l => IBuf d (map (fun x => Z.min (Z.max x lo) hi) l)
  | FBuf d l =>
      FBuf d (map (fun x => IEEE.clip x (IEEE.of_Z (fmt d) lo) (IEEE.of_Z (fmt d) hi)) l)
  end.

Definition clip (lo hi : Z) (a : ndarray) : ndarray :=
  NdArray (shape a) (clip_buf lo hi (items a)).

(** The [n] consecutive blocks of [k] items of a row-major list: the
    sub-arrays along the leading axis. *)
Fixpoint blocks {A : Type} (k n : nat) (l : list A) : list (list A) :=
  match n with
  | O => []
  | S n' => take k l :: blocks k n' (drop k l)
  end.

(** Reduction along the leading axis: the accumulator starts as the first
    sub-array and takes the others in order, item by item. *)
Definition reduce0 {A : Type} (op : A -> A -> A) (dflt : list A)
    (fs : list (list A)) : list A :=
  match fs with
  | [] => dflt
  | f :: rest => foldl (zip_with op) f rest
  end.

(** [np.mean(a, axis=0)]: integers are summed in float64, floats in their
    own dtype; the sum is divided by the length of the axis.  [None] when
    the array has no axis 0. *)
Definition mean_dtype (d : dtype) : fdtype :=
  match d with
  | DInt _ => float64
  | DFloat f => f
  end.

Definition mean0 (a : ndarray) : option ndarray :=
  match shape a with
  | [] => None
  | n :: rest =>
      let r := mean_dtype (dtype_of a) in
      let k := size_of rest in
      let fs := blocks k n (to_floats (fmt r) (items a)) in
      let total := reduce0 (IEEE.add (fmt r)) (replicate k IEEE.zero) fs in
      Some (NdArray rest
              (FBuf r (map (fun s => IEEE.div (fmt r) s (IEEE.of_Z (fmt r) (Z.of_nat n)))
                         total)))
  end.

(** The larger of two floating-point values as [np.max] combines them: a
    NaN operand is the result. *)
Definition fmaximum (a b : spec_float) : spec_float :=
  if IEEE.is_nan a then a
  else if IEEE.is_nan b then b
  else if IEEE.ltb a b then b else a.

(** [np.max(a, axis=0)]: the dtype is kept; [None] when the array has no
    axis 0 or the axis is empty (NumPy raises [ValueError]). *)
Definition max0 (a : ndarray) : option ndarray :=
  match shape a with
  | [] | O :: _ => None
  | n :: rest =>
      let k := size_of rest in
      Some (NdArray rest
              (match items a with
               | IBuf d l => IBuf d (reduce0 Z.max [] (blocks k n l))
               | FBuf d l => FBuf d (reduce0 fmaximum [] (blocks k n l))
               end))
  end.

(** The [t]-th sub-array along the leading axis, as a value. *)
Definition frame_of (a : ndarray) (t : nat) : ndarray :=
  let rest := tail (shape a) in
  NdArray rest (buf_slice (t * size_of rest) (size_of rest) (items a)).

(** The items at position [j] of each of the [n] sub-arrays of [k] items:
    what a reduction along the leading axis combines for output item [j]. *)
Definition column {A : Type} (d : A) (k n : nat) (l : list A) (j : nat) : list A :=
  map (fun t => nth (t * k + j) l d) (seq 0 n).

(** Left-to-right combination of a non-empty list. *)
Definition fold1 {A : Type} (op : A -> A -> A) (d : A) (l : list A) : A :=
  match l with
  | [] => d
  | x :: l' => foldl op x l'
  end.

(** The mean projection, written item by item: output item [j] is the
    floating-point sum of the items [j] of the sub-arrays, first to last,
    divided by their number. *)
Definition mean_items (f : IEEE.format) (k n : nat) (xs : list spec_float)
    : list spec_float :=
  map (fun j =>
         IEEE.div f (fold1 (IEEE.add f) IEEE.zero (column IEEE.zero k n xs j))
           (IEEE.of_Z f (Z.of_nat n)))
    (seq 0 k).

Definition mean_projection (a : ndarray) : ndarray :=
  let r := mean_dtype (dtype_of a) in
  let rest := tail (shape a) in
  NdArray rest
    (FBuf r (mean_items (fmt r) (size_of rest) (hd 0 (shape a))
               (to_floats (fmt r) (items a)))).

(** The max projection, item by item and in the dtype of the stack. *)
Definition max_projection (a : ndarray) : ndarray :=
  let rest := tail (shape a) in
  let k := size_of rest in
  let n := hd 0 (shape a) in
  NdArray rest
    (match items a with
     | IBuf d l =>
         IBuf d (map (fun j => fold1 Z.max 0%Z (column 0%Z k n l j)) (seq 0 k))
     | FBuf d l =>
         FBuf d (map (fun j => fold1 fmaximum S754_nan (column S754_nan k n l j))
                   (seq 0 k))
     end).

(** What "the maximum across the leading axis" asks of one pixel, given
    the values [col] the pixel takes over the frames: for integers, [m] is
    one of the values and none of them is larger; for floating-point
    values, [m] is NaN as soon as one of the values is NaN (NumPy's [np.max]
    propagates NaN), and otherwise [m] is one of the values and none of
    them exceeds it in the IEEE order. *)
Definition int_maximum (col : list Z) (m : Z) : Prop :=
  In m col ∧ Forall (fun y => (y <= m)%Z) col.

Definition float_maximum (col : list spec_float) (m : spec_float) : Prop :=
  if existsb IEEE.is_nan col then IEEE.is_nan m = true
  else In m col ∧ Forall (fun y => IEEE.leb y m = true) col.

(** A reference [np.percentile] for running examples: NumPy's default
    linear method on the float64 conversion of the items.  The items are
    sorted, the position [q / 100 * (n - 1)] is split into its integer part
    [j] and its fraction [g], and the result interpolates between the
    [j]-th item and its successor.  A NaN among the items makes the result
    NaN, as in NumPy. *)
Fixpoint insert_sorted (x : spec_float) (l : list spec_float) : list spec_float :=
  match l with
  | [] => [x]
  | y :: l' => if IEEE.ltb y x then y :: insert_sorted x l' else x :: l
  end.

Definition sort_floats (l : list spec_float) : list spec_float :=
  foldr insert_sorted [] l.

Definition lerp (a b t : spec_float) : spec_float :=
  let f := IEEE.binary64 in
  let d := IEEE.sub f b a in
  if IEEE.leb (IEEE.div f (IEEE.of_Z f 1) (IEEE.of_Z f 2)) t
  then IEEE.sub f b (IEEE.mul f d (IEEE.sub f (IEEE.of_Z f 1) t))
  else IEEE.add f a (IEEE.mul f d t).

Definition percentile_linear (a : ndarray) (q : Z) : npfloat :=
  let f := IEEE.binary64 in
  let xs := to_floats f (items a) in
  if existsb IEEE.is_nan xs then NpFloat float64 S754_nan
  else
    let s := sort_floats xs in
    let pos := (q * (Z.of_nat (length s) - 1))%Z in
    let j := Z.to_nat (pos / 100) in
    let g := IEEE.div f (IEEE.of_Z f (pos mod 100)) (IEEE.of_Z f 100) in
    NpFloat float64
      (lerp (nth j s S754_nan) (nth (Nat.min (S j) (length s - 1)) s S754_nan) g).

End Np.

(** ** Python values used by the scripts *)

Module Py.

(** [range(start, stop)]. *)
Definition range (start stop : Z) : list Z := seqZ start (stop - start).

(** Resolution of an index into a sequence of length [n]: negative indices
    count from the end, anything outside is an [IndexError]. *)
Definition norm_index (n : nat) (i : Z) : option nat :=
  if (0 <=? i)%Z
  then (if (i <? Z.of_nat n)%Z then Some (Z.to_nat i) else None)
  else (if (- Z.of_nat n <=? i)%Z then Some (Z.to_nat (Z.of_nat n + i)) else None).

(** [str.lower] on the ASCII range. *)
Definition lower_ascii (c : ascii) : ascii :=
  let n := nat_of_ascii c in
  if (65 <=? n)%nat && (n <=? 90)%nat then ascii_of_nat (n + 32) else c.

Fixpoint lower (s : string) : string :=
  match s with
  | EmptyString => EmptyString
  | String c s' => String (lower_ascii c) (lower s')
  end.

(** [needle in hay] for strings. *)
Fixpoint contains (needle hay : string) : bool :=
  String.prefix needle hay
  || match hay with
     | EmptyString => false
     | String _ hay' => contains needle hay'
     end.

(** [hay] holds [needle] somewhere. *)
Definition substring (needle hay : string) : Prop :=
  ∃ pre post, hay = pre +:+ needle +:+ post.

(** [str(x)] for a string or [None]. *)
Definition str_opt (x : option string) : string :=
  match x with
  | None => "None"
  | Some s => s
  end.

(** Decimal digits of a natural number, and the format [{n:04d}]. *)
Definition str_nat (n : nat) : string :=
  NilEmpty.string_of_uint (Nat.to_uint n).

Definition str_int (z : Z) : string :=
  NilEmpty.string_of_int (Z.to_int z).

Fixpoint zeros_then (k : nat) (s : string) : string :=
  match k with
  | O => s
  | S k' => String "0" (zeros_then k' s)
  end.

Definition format_04d (n : nat) : string :=
  let s := str_nat n in zeros_then (4 - String.length s) s.

(** [int / int]: the correctly rounded quotient as a Python float, or
    [None] for a zero divisor ([ZeroDivisionError]). *)
Definition raw_int (z : Z) : spec_float :=
  match z with
  | Z0 => S754_zero false
  | Zpos p => S754_finite false p 0
  | Zneg p => S754_finite true p 0
  end.

Definition int_truediv (a b : Z) : option spec_float :=
  if (b =? 0)%Z then None
  else Some (IEEE.div IEEE.binary64 (raw_int a) (raw_int b)).

(** [x / y] on Python floats: a zero divisor raises. *)
Definition float_truediv (x y : spec_float) : option spec_float :=
  if IEEE.is_zero y then None else Some (IEEE.div IEEE.binary64 x y).

(** [pathlib]: [dir / name] for a relative name. *)
Definition path_join (dir name : string) : string := dir +:+ "/" +:+ name.

End Py.

(** ** The store of buffers, the effects and the monad *)

Module Rt.
Import Np.

(** An array object: a row-major window into a buffer of the store.  Basic
    indexing yields a view on the same buffer; every other NumPy operation
    used by the scripts allocates a new buffer. *)
Record view := View { vbuf : nat; voff : nat; vshape : list nat }.

(** The contents of a TIFF file as the scripts read it: the pixel data, the
    tags of the first page and its description. *)
Inductive tagvalue :=
| TagRational (num den : Z)
| TagInt (z : Z)
| TagText (s : string).

Record tiff := Tiff {
  tiff_data : ndarray;
  tiff_tags : gmap string tagvalue;
  tiff_description : option string
}.

(** What the scripts make observable, in order. *)
Inductive event :=
| Mkdir (dir : string)
| ShowFrame (img : view) (title : string)
| Imsave (path : string) (img : view)
| Imwrite (path : string) (arr : view)
| Print (line : string)
| PrintShape (sh : list nat)
| PrintScale (scale : spec_float * spec_float * spec_float)
| AxImshow (img : view)
| FuncAnimation (frames : list Z) (interval : spec_float)
| SetArray (img : view) (title : string)
| AddImage (data : view) (scale : spec_float * spec_float * spec_float)
    (contrast_limits : npfloat * npfloat).

Inductive exn :=
| IndexError
| KeyError (key : string)
| TypeError
| ValueError
| AxisError
| ZeroDivisionError
| FileNotFoundError
| DanglingView.

(** The buffers of the arrays, the TIFF files by path, and what the program
    has done so far.  [files] holds TIFF files only: a directory made by
    [mkdir] and a PNG written by [plt.imsave] appear in the trace, with
    their paths (see [event_path]). *)
Record world := World {
  heap : list buffer;
  files : gmap string tiff;
  trace : list event
}.

Inductive result (A : Type) :=
| Ok (a : A)
| Raise (e : exn).
Arguments Ok {A} a.
Arguments Raise {A} e.

Definition M (A : Type) : Type := world -> result A * world.

#[global] Instance M_ret : MRet M := fun A a w => (Ok a, w).
#[global] Instance M_bind : MBind M := fun A B f m w =>
  match m w with
  | (Ok a, w') => f a w'
  | (Raise e, w') => (Raise e, w')
  end.

Definition raise {A : Type} (e : exn) : M A := fun w => (Raise e, w).
Definition emit (e : event) : M unit :=
  fun w => (Ok tt, World (heap w) (files w) (trace w ++ [e])).
Definition of_option {A : Type} (e : exn) (o : option A) : M A :=
  match o with
  | Some a => mret a
  | None => raise e
  end.

(** The array a view denotes in a store. *)
Definition deref (h : list buffer) (v : view) : option ndarray :=
  b ← h !! vbuf v;
  if decide (voff v + size_of (vshape v) ≤ buf_len b)
  then Some (NdArray (vshape v) (buf_slice (voff v) (size_of (vshape v)) b))
  else None.

Definition load (v : view) : M ndarray :=
  fun w => of_option DanglingView (deref (heap w) v) w.

(** A new buffer holding the items of [a]; the view covers it whole. *)
Definition alloc (a : ndarray) : M view :=
  fun w => (Ok (View (length (heap w)) 0 (shape a)),
            World (heap w ++ [items a]) (files w) (trace w)).

(** Writing the items of [a] through a view, in place ([out=] arguments):
    the items are cast to the dtype of the target buffer. *)
Definition splice {A : Type} (off : nat) (new l : list A) : list A :=
  take off l ++ new ++ drop (off + length new) l.

Definition buf_write (off : nat) (src dst : buffer) : buffer :=
  match astype_buf (buf_dtype dst) src, dst with
  | IBuf _ new, IBuf d l => IBuf d (splice off new l)
  | FBuf _ new, FBuf d l => FBuf d (splice off new l)
  | _, _ => dst
  end.

Definition store (v : view) (a : ndarray) : M unit :=
  fun w =>
    match heap w !! vbuf v with
    | Some b =>
        if decide (size_of (vshape v) = buf_len (items a)
                   ∧ voff v + size_of (vshape v) ≤ buf_len b)
        then (Ok tt, World (<[vbuf v := buf_write (voff v) (items a) b]> (heap w))
                           (files w) (trace w))
        else (Raise ValueError, w)
    | None => (Raise DanglingView, w)
    end.

(** The world after new buffers were appended to the store. *)
Definition grow (w : world) (bs : list buffer) : world :=
  World (heap w ++ bs) (files w) (trace w).

(** An array is well formed when its shape counts its items. *)
Definition wf (a : ndarray) : Prop := size_of (shape a) = buf_len (items a).

(** [m], run in [w], returns a view on the array [a] after appending the
    buffers [bs] to the store and changing nothing else; the view lies in
    one of the new buffers. *)
Definition yields (m : M view) (w : world) (bs : list buffer) (v : view)
    (a : ndarray) : Prop :=
  m w = (Ok v, grow w bs)
  ∧ deref (heap w ++ bs) v = Some a
  ∧ length (heap w) ≤ vbuf v.

(** From [w] to [w'] the store only grew and the trace gained [evs]. *)
Definition advances (w w' : world) (evs : list event) : Prop :=
  heap w `prefix_of` heap w' ∧ trace w' = trace w ++ evs.

(** [m] never changes a buffer that is already in the store nor takes
    back what it made observable, whatever its outcome: the store and the
    trace it leaves extend the ones it found. *)
Definition grows {A : Type} (m : M A) : Prop :=
  ∀ w, heap w `prefix_of` heap (snd (m w))
       ∧ trace w `prefix_of` trace (snd (m w)).

(** Events that create or change something on disk. *)
Definition disk_event (e : event) : bool :=
  match e with
  | Mkdir _ | Imsave _ _ | Imwrite _ _ => true
  | _ => false
  end.



(** [m] leaves the disk alone, whatever its outcome: no TIFF file is
    written or changed and none of the events it adds creates a directory
    or saves an image. *)
Definition keeps_files {A : Type} (m : M A) : Prop :=
  ∀ w, files (snd (m w)) = files w
       ∧ ∃ evs, trace (snd (m w)) = trace w ++ evs
                ∧ Forall (fun e => disk_event e = false) evs.

(** *** NumPy operations on array objects *)

Definition np_shape0 (v : view) : M nat :=
  of_option IndexError (head (vshape v)).

Definition np_dtype (v : view) : M dtype :=
  a ← load v; mret (dtype_of a).

(** [a[i]]: a view on the [i]-th sub-array along the leading axis. *)
Definition np_index0 (v : view) (i : Z) : M view :=
  match vshape v with
  | [] => raise IndexError
  | n :: rest =>
      k ← of_option IndexError (Py.norm_index n i);
      mret (View (vbuf v) (voff v + k * size_of rest) rest)
  end.

(** [a[i, :, :]]: the same view, for an array of at least three axes. *)
Definition np_index0_full2 (v : view) (i : Z) : M view :=
  match vshape v with
  | _ :: _ :: _ :: _ => np_index0 v i
  | _ => raise IndexError
  end.

Definition np_astype (v : view) (t : dtype) : M view :=
  a ← load v; alloc (astype t a).

Definition np_zeros_like (v : view) (t : dtype) : M view :=
  a ← load v; alloc (zeros_like t a).

Definition np_sub (v : view) (s : npfloat) : M view :=
  a ← load v; alloc (sub_scalar a s).

Definition np_div (v : view) (s : npfloat) : M view :=
  a ← load v; alloc (div_scalar a s).

Definition np_mul_pyfloat (v : view) (c : spec_float) : M view :=
  a ← load v; alloc (mul_pyfloat a c).

(** [np.clip(a, lo, hi, out=out)]: without [out] the result is a new
    array, with it the result is written into [out] and [out] is returned. *)
Definition np_clip (v : view) (lo hi : Z) (out : option view) : M view :=
  a ← load v;
  match out with
  | None => alloc (clip lo hi a)
  | Some o => _ ← store o (clip lo hi a); mret o
  end.

Definition np_mean0 (v : view) : M view :=
  a ← load v; r ← of_option AxisError (mean0 a); alloc r.

Definition np_max0 (v : view) : M view :=
  a ← load v; r ← of_option ValueError (max0 a); alloc r.

(** *** Files and windows *)

(** [tifffile.imwrite(path, a)]: the file then holds the items of [a] as
    they are at the time of the call. *)
Definition write_file (path : string) (f : tiff) : M unit :=
  fun w => (Ok tt, World (heap w) (<[path := f]> (files w)) (trace w)).

Definition tiff_imwrite (path : string) (v : view) : M unit :=
  a ← load v;
  _ ← emit (Imwrite path v);
  write_file path (Tiff a ∅ None).

(** [tifffile.TiffFile(path)]: the decoded file, or an error. *)
Definition tiff_open (path : string) : M tiff :=
  fun w => of_option FileNotFoundError (files w !! path) w.

End Rt.

(** ** [reader.py] *)

Module Reader.
Import Np Rt.

Section WithPercentile.

(** [np.percentile] is NumPy's: the scripts only rely on its being a
    function of the items and the requested percentile. *)
Variable percentile : ndarray -> Z -> npfloat.

(** [p == q] on NumPy floating-point scalars. *)
Definition npfloat_eqb (p q : npfloat) : bool :=
  let r := promote_f (sc_dtype p) (sc_dtype q) in
  IEEE.eqb (IEEE.round (fmt r) (sc_val p)) (IEEE.round (fmt r) (sc_val q)).

(** The contrast stretch of one pixel [x] (already converted to float32),
    written after the formula [clip((x - p_low) / (p_high - p_low), 0, 1)]:
    the subtraction is done in the dtype NumPy promotes float32 and the
    dtype of [p_low] to, the division in the dtype promoted from that and
    the dtype of [p_high - p_low]. *)
Definition stretch_item (p_low p_high : npfloat) (x : spec_float) : spec_float :=
  let r1 := result_type (DFloat float32) (sc_dtype p_low) in
  let d := npfloat_sub p_high p_low in
  let r2 := result_type (DFloat r1) (sc_dtype d) in
  let num := IEEE.sub (fmt r1) (IEEE.round (fmt r1) x) (IEEE.round (fmt r1) (sc_val p_low)) in
  let quot := IEEE.div (fmt r2) (IEEE.round (fmt r2) num) (IEEE.round (fmt r2) (sc_val d)) in
  IEEE.clip quot (IEEE.of_Z (fmt r2) 0) (IEEE.of_Z (fmt r2) 1).

(** The dtype of the stretched image. *)
Definition stretch_dtype (p_low p_high : npfloat) : fdtype :=
  result_type (DFloat (result_type (DFloat float32) (sc_dtype p_low)))
    (sc_dtype (npfloat_sub p_high p_low)).

(** [np.percentile(a, (low, high))], unpacked. *)
Definition np_percentile2 (v : view) (low high : Z) : M (npfloat * npfloat) :=
  a ← load v; mret (percentile a low, percentile a high).

Definition load_tiff_stack (path : string)
    : M (view * gmap string tagvalue * option string) :=
  tif ← tiff_open path;
  data ← alloc (tiff_data tif);
  mret (data, tiff_tags tif, tiff_description tif).

(** The array [percentile_contrast] computes from the array it is given. *)
Definition stretch (a : ndarray) (low high : Z) : ndarray :=
  let p_low := percentile a low in
  let p_high := percentile a high in
  clip 0 1
    (if npfloat_eqb p_high p_low
     then zeros_like (DFloat float32) a
     else div_scalar (sub_scalar (astype (DFloat float32) a) p_low)
            (npfloat_sub p_high p_low)).

Definition percentile_contrast (img2d : view) (low high : Z) : M view :=
  '(p_low, p_high) ← np_percentile2 img2d low high;
  img_disp ←
    (if npfloat_eqb p_high p_low
     then np_zeros_like img2d (DFloat float32)
     else
       x ← np_astype img2d (DFloat float32);
       num ← np_sub x p_low;
       np_div num (npfloat_sub p_high p_low));
  np_clip img_disp 0 1 None.

(** Matplotlib draws two-dimensional data, or RGB(A) data with a last axis
    of length 3 or 4; any other shape is a [TypeError]. *)
Definition image_shape (sh : list nat) : bool :=
  match sh with
  | [_; _] => true
  | [_; _; c] => (c =? 3)%nat || (c =? 4)%nat
  | _ => false
  end.

Definition plt_check (img : view) : M unit :=
  if image_shape (vshape img) then mret tt else raise TypeError.

Definition show_frame (frame2d : view) (title : string) : M unit :=
  img_disp01 ← percentile_contrast frame2d 1 99;
  _ ← plt_check img_disp01;
  emit (ShowFrame img_disp01 title).

(** [plt.imsave(path, img)] writes a PNG: the write is recorded in the
    trace with its path; [files] holds the TIFF files only, so the PNG is
    not among them. *)
Definition plt_imsave (path : string) (img : view) : M unit :=
  _ ← plt_check img;
  emit (Imsave path img).

(** The 16-bit value stored for one floating-point item [v] of dtype [f],
    written after the formula [clip(v * 65535, 0, 65535)] cast to uint16. *)
Definition rescale_item (f : fdtype) (v : spec_float) : Z :=
  wrap uint16
    (IEEE.trunc
       (IEEE.clip (IEEE.mul (fmt f) (IEEE.round (fmt f) v) (IEEE.of_Z (fmt f) 65535))
          (IEEE.of_Z (fmt f) 0) (IEEE.of_Z (fmt f) 65535))).

(** The array [save_as_tiff] writes for a uint16 target, as a function of
    the array it is given. *)
Definition tiff_payload (a : ndarray) : ndarray :=
  match items a with
  | FBuf f xs => NdArray (shape a) (IBuf uint16 (map (rescale_item f) xs))
  | IBuf i l =>
      if decide (i = uint16) then a
      else NdArray (shape a) (IBuf uint16 (map (wrap uint16) l))
  end.

Definition save_as_tiff (img2d_or_3d : view) (out_path : string) (dtype : Np.dtype)
    : M unit :=
  let arr := img2d_or_3d in
  d ← np_dtype arr;
  arr_to_save ←
    (if decide (d ≠ dtype)
     then
       if String.eqb (kind d) "f"
       then
         scaled ← np_mul_pyfloat arr (IEEE.of_Z IEEE.binary64 65535);
         clipped ← np_clip scaled 0 65535 None;
         np_astype clipped (DInt uint16)
       else np_astype arr dtype
     else mret arr);
  tiff_imwrite out_path arr_to_save.

Definition summarize_movie (data : view) (save_dir : string) : M unit :=
  _ ← emit (Mkdir save_dir);
  n_frames ← np_shape0 data;
  let mid_t := (n_frames / 2)%nat in
  mid_frame ← np_index0_full2 data (Z.of_nat mid_t);
  _ ← show_frame mid_frame
        ("Frame " +:+ Py.str_nat mid_t +:+ "/" +:+ Py.str_nat n_frames);
  img ← percentile_contrast mid_frame 1 99;
  _ ← plt_imsave
        (Py.path_join save_dir ("frame_" +:+ Py.format_04d mid_t +:+ ".png")) img;
  mean_proj ← np_mean0 data;
  max_proj ← np_max0 data;
  _ ← show_frame mean_proj "Mean across time";
  _ ← show_frame max_proj "Max across time";
  img_mean ← percentile_contrast mean_proj 1 99;
  _ ← plt_imsave (Py.path_join save_dir "mean_projection.png") img_mean;
  img_max ← percentile_contrast max_proj 1 99;
  _ ← plt_imsave (Py.path_join save_dir "max_projection.png") img_max;
  _ ← save_as_tiff mean_proj (Py.path_join save_dir "mean_projection.tif") (DInt uint16);
  _ ← save_as_tiff max_proj (Py.path_join save_dir "max_projection.tif") (DInt uint16);
  emit (Print ("[OK] Saved previews to " +:+ save_dir)).

(** The trace of one summary of a stack of [n] frames: the windows and
    files in order, with the arrays [v1] to [v8] handed to them. *)
Definition summary_trace (dir : string) (n : nat) (v1 v2 v3 v4 v5 v6 v7 v8 : view)
    : list event :=
  [ Mkdir dir;
    ShowFrame v1 ("Frame " +:+ Py.str_nat (n / 2) +:+ "/" +:+ Py.str_nat n);
    Imsave (Py.path_join dir ("frame_" +:+ Py.format_04d (n / 2) +:+ ".png")) v2;
    ShowFrame v3 "Mean across time";
    ShowFrame v4 "Max across time";
    Imsave (Py.path_join dir "mean_projection.png") v5;
    Imsave (Py.path_join dir "max_projection.png") v6;
    Imwrite (Py.path_join dir "mean_projection.tif") v7;
    Imwrite (Py.path_join dir "max_projection.tif") v8;
    Print ("[OK] Saved previews to " +:+ dir) ].

(** [stop or data.shape[0]]: the length is only looked up when [stop] is
    falsy. *)
Definition stop_or_length (stop : option Z) (data : view) : M Z :=
  match stop with
  | None => n ← np_shape0 data; mret (Z.of_nat n)
  | Some z => if (z =? 0)%Z then n ← np_shape0 data; mret (Z.of_nat n) else mret z
  end.

(** One step of the animation: [update(i)]. *)
Definition update (data : view) (i : Z) : M unit :=
  frame ← np_index0 data i;
  img ← percentile_contrast frame 1 99;
  n ← np_shape0 data;
  emit (SetArray img ("Frame " +:+ Py.str_int (i + 1) +:+ "/" +:+ Py.str_nat n)).

Fixpoint for_each {A : Type} (f : A -> M unit) (l : list A) : M unit :=
  match l with
  | [] => mret tt
  | x :: l' => _ ← f x; for_each f l'
  end.

(** [play_movie]: the trace holds one pass over the frame range, which is
    what the animation draws before it repeats. *)
Definition play_movie (data : view) (start : Z) (stop : option Z) (fps : Z) : M unit :=
  stop ← stop_or_length stop data;
  first ← np_index0 data start;
  img ← percentile_contrast first 1 99;
  _ ← plt_check img;
  _ ← emit (AxImshow img);
  interval ← of_option ZeroDivisionError (Py.int_truediv 1000 fps);
  _ ← emit (FuncAnimation (Py.range start stop) interval);
  for_each (update data) (Py.range start stop).

(** The lines the script body prints about the leading axis. *)
Definition msg_time (axis0 : nat) : string :=
  "Interpreting axis 0 (" +:+ Py.str_nat axis0 +:+ ") as TIME (T).".
Definition msg_depth (axis0 : nat) : string :=
  "Interpreting axis 0 (" +:+ Py.str_nat axis0 +:+ ") as DEPTH (Z).".
Definition msg_guess (axis0 : nat) : string :=
  "Axis 0 is " +:+ Py.str_nat axis0 +:+ " planes. Could be time or z; we guess TIME.".

(** The axis-labelling rule in words: TIME when the lowercased description
    mentions "frames" or "frames" is a key of the metadata, else DEPTH when
    the lowercased description mentions "slices", else a guess of TIME. *)
Inductive axis_reading := AxisTime | AxisDepth | AxisGuessTime.

Definition axis_rule (desc : option string) (meta : gmap string tagvalue)
    : axis_reading :=
  let text := Py.lower (Py.str_opt desc) in
  match Py.contains "frames" text, decide ("frames" ∈ dom meta),
        Py.contains "slices" text with
  | true, _, _ | _, left _, _ => AxisTime
  | false, right _, true => AxisDepth
  | false, right _, false => AxisGuessTime
  end.

Definition axis_message (r : axis_reading) (axis0 : nat) : string :=
  match r with
  | AxisTime => msg_time axis0
  | AxisDepth => msg_depth axis0
  | AxisGuessTime => msg_guess axis0
  end.

(** The script body from the dimensionality test on (the earlier lines,
    which print the shape, the dtype, the extrema and the description, are
    not part of the trace). *)
Definition main_block (data : view) (meta : gmap string tagvalue)
    (desc : option string) : M unit :=
  if decide (length (vshape data) = 3)
  then
    axis0 ← np_shape0 data;
    _ ← (if Py.contains "frames" (Py.lower (Py.str_opt desc))
            || bool_decide (is_Some (meta !! "frames"))
         then emit (Print (msg_time axis0))
         else if Py.contains "slices" (Py.lower (Py.str_opt desc))
         then emit (Print (msg_depth axis0))
         else emit (Print (msg_guess axis0)));
    summarize_movie data "previews"
  else
    emit (Print ("Unexpected dimensionality: " +:+ Py.str_nat (length (vshape data)))).

Definition main (tiff_path : string) : M unit :=
  '(data, meta, desc) ← load_tiff_stack tiff_path;
  main_block data meta desc.

End WithPercentile.

End Reader.

(** ** [viewer.py] *)

Module Viewer.
Import Np Rt.

Section WithPercentile.

Variable percentile : ndarray -> Z -> npfloat.

(** [res[0] / res[1]] for the value of a resolution tag: a rational is a
    pair of integers; any other value cannot be divided this way. *)
Definition ratio (res : tagvalue) : M spec_float :=
  match res with
  | TagRational num den => of_option ZeroDivisionError (Py.int_truediv num den)
  | _ => raise TypeError
  end.

Definition one : spec_float := IEEE.of_Z IEEE.binary64 1.

(** [1.0 / (res[0] / res[1])] when neither division fails. *)
Definition pixel_size (num den : Z) : spec_float :=
  IEEE.div IEEE.binary64 one
    (IEEE.div IEEE.binary64 (Py.raw_int num) (Py.raw_int den)).

Definition load_tiff (tif_path : string) : M unit :=
  tif ← tiff_open tif_path;
  data ← alloc (tiff_data tif);
  let tags := tiff_tags tif in
  xres ← of_option (KeyError "XResolution") (tags !! "XResolution");
  yres ← of_option (KeyError "YResolution") (tags !! "YResolution");
  x_ppunit ← ratio xres;
  y_ppunit ← ratio yres;
  px_size_x ← of_option ZeroDivisionError (Py.float_truediv one x_ppunit);
  px_size_y ← of_option ZeroDivisionError (Py.float_truediv one y_ppunit);
  let scale := (one, px_size_y, px_size_x) in
  _ ← emit (PrintShape (vshape data));
  _ ← emit (PrintScale scale);
  a ← load data;
  emit (AddImage data scale (percentile a 1, percentile a 99)).

End WithPercentile.

End Viewer.

(** ** Concrete inputs *)

Module Examples.
Import Np Rt.

(** A store holding one buffer, no files and an empty trace. *)
Definition world_of (b : buffer) : world := World [b] ∅ [].

Definition view_2x2 : view := View 0 0 [2; 2].
Definition view_1x2 : view := View 0 0 [1; 2].
Definition view_1x1 : view := View 0 0 [1; 1].

(** A flat 2x2 image, a 2x2 image with two grey levels, and a 1x2
    float64 image holding a NaN. *)
Definition flat_image : buffer := IBuf uint8 [7; 7; 7; 7]%Z.
Definition two_level_image : buffer := IBuf uint8 [0; 0; 10; 10]%Z.
Definition nan_image : buffer :=
  FBuf float64 [S754_nan; IEEE.one IEEE.binary64].

(** A stack of 5 frames of 2 by 2 pixels holding 0, 1, ..., 19. *)
Definition view_5x2x2 : view := View 0 0 [5; 2; 2].
Definition counting_stack : buffer :=
  IBuf uint8 [0; 1; 2; 3; 4; 5; 6; 7; 8; 9; 10; 11; 12; 13; 14; 15; 16; 17; 18; 19]%Z.

(** A TIFF file holding that stack with given tags, and a store holding
    nothing but one file. *)
Definition stack_file (tags : gmap string tagvalue) : tiff :=
  Tiff (NdArray [5; 2; 2] counting_stack) tags None.
Definition world_with_file (path : string) (f : tiff) : world :=
  World [] {[ path := f ]} [].

(** Resolution tags of 72 pixels per unit on both axes. *)
Definition resolution_72 : gmap string tagvalue :=
  {[ "XResolution" := TagRational 72 1; "YResolution" := TagRational 72 1 ]}.

(** A float64 image holding the single value 0.25. *)
Definition quarter : spec_float := S754_finite false 4503599627370496 (-54).
Definition quarter_image : buffer := FBuf float64 [quarter].

(** A 1x2 float64 image holding 2.0 and -3.0, outside the unit interval. *)
Definition out_of_range_image : buffer :=
  FBuf float64 [IEEE.of_Z IEEE.binary64 2; IEEE.of_Z IEEE.binary64 (-3)].

(** A float64 stack of 2 frames of 1 by 2 pixels: 2.0, -3.0 and then
    0.25, 0.25. *)
Definition view_2x1x2 : view := View 0 0 [2; 1; 2].
Definition float_stack : buffer :=
  FBuf float64 [IEEE.of_Z IEEE.binary64 2; IEEE.of_Z IEEE.binary64 (-3);
                quarter; quarter].

(** Resolution tags whose X numerator is zero. *)
Definition resolution_zero : gmap string tagvalue :=
  {[ "XResolution" := TagRational 0 1; "YResolution" := TagRational 72 1 ]}.

End Examples.

(** * Properties *)

(** ** Floating-point facts *)

Module IEEEFacts.
Import Np.

Lemma compare_refl x : IEEE.is_nan x = false -> SFcompare x x = Some Eq.
Proof.
  destruct x as [s|s| |s m e]; simpl; try done; intros _.
  - by destruct s.
  - destruct s; by rewrite Z.compare_refl, Pos.compare_cont_refl.
Qed.

Lemma leb_refl x : IEEE.is_nan x = false -> IEEE.leb x x = true.
Proof. intros H. unfold IEEE.leb, SFleb. by rewrite compare_refl. Qed.

Lemma ltb_leb x y : IEEE.ltb x y = true -> IEEE.leb x y = true.
Proof.
  unfold IEEE.ltb, IEEE.leb, SFltb, SFleb.
  by destruct (SFcompare x y) as [[]|].
Qed.

(** A clipped value that is not NaN lies between the bounds. *)
Lemma clip_range x lo hi :
  IEEE.is_nan x = false -> IEEE.is_nan lo = false -> IEEE.is_nan hi = false ->
  IEEE.leb lo hi = true ->
  IEEE.leb lo (IEEE.clip x lo hi) = true ∧ IEEE.leb (IEEE.clip x lo hi) hi = true.
Proof.
  intros Hx Hlo Hhi Hle. unfold IEEE.clip, IEEE.fmax. rewrite Hx.
  destruct (IEEE.ltb lo x) eqn:E1.
  - unfold IEEE.fmin. rewrite Hx. destruct (IEEE.ltb x hi) eqn:E2.
    + split; by apply ltb_leb.
    + split; [done|by apply leb_refl].
  - unfold IEEE.fmin. rewrite Hlo. destruct (IEEE.ltb lo hi) eqn:E2.
    + split; [by apply leb_refl|done].
    + split; [done|by apply leb_refl].
Qed.

(** NaN goes through [clip] unchanged. *)
Lemma clip_nan x lo hi : IEEE.is_nan x = true -> IEEE.clip x lo hi = x.
Proof. intros H. unfold IEEE.clip, IEEE.fmax, IEEE.fmin. by rewrite H, H. Qed.

Lemma clip_is_nan x lo hi :
  IEEE.is_nan lo = false -> IEEE.is_nan hi = false ->
  IEEE.is_nan (IEEE.clip x lo hi) = IEEE.is_nan x.
Proof.
  intros Hlo Hhi. destruct (IEEE.is_nan x) eqn:Hx.
  - by rewrite clip_nan.
  - unfold IEEE.clip, IEEE.fmax, IEEE.fmin. rewrite Hx.
    destruct (IEEE.ltb lo x); [rewrite Hx|rewrite Hlo];
      by destruct (IEEE.ltb _ hi).
Qed.

(** [x - x] is [+0] for every finite [x]. *)
Lemma sub_self f x : IEEE.is_finite x = true -> IEEE.sub f x x = IEEE.zero.
Proof.
  destruct x as [s|s| |s m e]; try done; intros _.
  - by destruct s.
  - unfold IEEE.sub, SFsub. by rewrite Z.sub_diag.
Qed.

Lemma div_eucl_shiftl m n :
  (0 <= n)%Z -> Z.div_eucl (Z.shiftl (Zpos m) n) (Zpos m) = (2 ^ n, 0)%Z.
Proof.
  intros Hn. rewrite Z.shiftl_mul_pow2 by done.
  assert (Z.div_eucl (Z.pos m * 2 ^ n) (Z.pos m)
          = ((Z.pos m * 2 ^ n) / Z.pos m, (Z.pos m * 2 ^ n) mod Z.pos m)%Z) as ->.
  { unfold Z.div, Z.modulo. by destruct (Z.div_eucl _ _). }
  by rewrite Z.mul_comm, Z.div_mul, Z.mod_mul.
Qed.

(** [d / d] is [1] for every finite nonzero [d], in both formats. *)
Lemma div_self d s m e :
  IEEE.div (fmt d) (S754_finite s m e) (S754_finite s m e) = IEEE.one (fmt d).
Proof.
  unfold IEEE.div, SFdiv, SFdiv_core_binary.
  replace (Zdigits2 (Z.pos m) + e - (Zdigits2 (Z.pos m) + e))%Z with 0%Z by lia.
  rewrite Z.sub_diag, xorb_nilpotent.
  destruct d; simpl fmt; cbn [IEEE.fprec IEEE.femax IEEE.binary32 IEEE.binary64].
  - change (Z.min (fexp 24 128 0) 0) with (-24)%Z. change (0 - -24)%Z with 24%Z.
    cbv iota. change IntDef.Z.div_eucl with Z.div_eucl.
    change IntDef.Z.shiftl with Z.shiftl.
    rewrite div_eucl_shiftl by done.
    unfold new_location, new_location_even, new_location_odd.
    change (0 =? 0)%Z with true. by destruct (Z.even _).
  - change (Z.min (fexp 53 1024 0) 0) with (-53)%Z. change (0 - -53)%Z with 53%Z.
    cbv iota. change IntDef.Z.div_eucl with Z.div_eucl.
    change IntDef.Z.shiftl with Z.shiftl.
    rewrite div_eucl_shiftl by done.
    unfold new_location, new_location_even, new_location_odd.
    change (0 =? 0)%Z with true. by destruct (Z.even _).
Qed.

(** [0 / d] is a zero for every finite nonzero [d]. *)
Lemma div_zero_l f b s m e :
  IEEE.div f (S754_zero b) (S754_finite s m e) = S754_zero (xorb b s).
Proof. reflexivity. Qed.

Lemma clip01_zero d b :
  IEEE.clip (S754_zero b) (IEEE.of_Z (fmt d) 0) (IEEE.of_Z (fmt d) 1) = IEEE.zero.
Proof. by destruct d, b. Qed.

Lemma clip01_one d :
  IEEE.clip (IEEE.one (fmt d)) (IEEE.of_Z (fmt d) 0) (IEEE.of_Z (fmt d) 1)
  = IEEE.one (fmt d).
Proof. by destruct d. Qed.

(** NaN is absorbing. *)
Lemma is_nan_eq x : IEEE.is_nan x = true -> x = S754_nan.
Proof. by destruct x. Qed.

Lemma eqb_nan_l x : IEEE.eqb S754_nan x = false.
Proof. done. Qed.

Lemma eqb_nan_r x : IEEE.eqb x S754_nan = false.
Proof. by destruct x. Qed.

Lemma sub_nan_l f x : IEEE.sub f S754_nan x = S754_nan.
Proof. done. Qed.

Lemma sub_nan_r f x : IEEE.sub f x S754_nan = S754_nan.
Proof. by destruct x. Qed.

Lemma div_nan_r f x : IEEE.div f x S754_nan = S754_nan.
Proof. by destruct x. Qed.

(** The IEEE comparison orders the values that are not NaN. *)
Lemma compare_key x y :
  IEEE.is_nan x = false -> IEEE.is_nan y = false ->
  (IEEE.leb x y = true <-> IEEE.key_le (IEEE.order_key x) (IEEE.order_key y))
  ∧ (IEEE.ltb x y = false <-> IEEE.key_le (IEEE.order_key y) (IEEE.order_key x)).
Proof.
  intros Hx Hy. unfold IEEE.leb, IEEE.ltb, SFleb, SFltb, SFcompare.
  destruct x as [sx|sx| |sx mx ex], y as [sy|sy| |sy my ey]; try done;
    try destruct sx; try destruct sy; simpl; try (split; split; [lia|done]);
    try (split; split; first [done|lia]).
  all: destruct (Z.compare_spec ex ey);
    [change (Pos.compare_cont Eq mx my) with (Pos.compare mx my);
     destruct (Pos.compare_spec mx my)| |];
    simpl; split; split; first [done|lia].
Qed.

Lemma leb_trans x y z :
  IEEE.is_nan x = false -> IEEE.is_nan y = false -> IEEE.is_nan z = false ->
  IEEE.leb x y = true -> IEEE.leb y z = true -> IEEE.leb x z = true.
Proof.
  intros Hx Hy Hz Hxy Hyz.
  apply (compare_key x y Hx Hy) in Hxy. apply (compare_key y z Hy Hz) in Hyz.
  apply (compare_key x z Hx Hz).
  unfold IEEE.key_le in *.
  destruct (IEEE.order_key x) as [[c1 a1] b1], (IEEE.order_key y) as [[c2 a2] b2],
    (IEEE.order_key z) as [[c3 a3] b3]. lia.
Qed.

Lemma ltb_false_leb x y :
  IEEE.is_nan x = false -> IEEE.is_nan y = false ->
  IEEE.ltb x y = false -> IEEE.leb y x = true.
Proof.
  intros Hx Hy H.
  apply (compare_key x y Hx Hy) in H. by apply (compare_key y x Hy Hx).
Qed.

End IEEEFacts.

(** ** Rounding *)

Module RoundFacts.
Import Np Reader.
Local Open Scope Z_scope.

Lemma digits2_size m : digits2_pos m = Pos.size m.
Proof. induction m; simpl; congruence. Qed.

Lemma digits_bounds m :
  2 ^ (Zpos (digits2_pos m) - 1) <= Zpos m < 2 ^ Zpos (digits2_pos m).
Proof.
  rewrite digits2_size. split.
  - pose proof (Pos.size_le m) as H.
    assert (Zpos (2 ^ Pos.size m) <= Zpos m~0)%Z by exact H.
    rewrite Pos2Z.inj_pow in H0. change (Zpos m~0) with (2 * Zpos m) in H0.
    replace (Zpos (Pos.size m)) with (Z.succ (Zpos (Pos.size m) - 1)) in H0 by lia.
    rewrite Z.pow_succ_r in H0 by lia. lia.
  - pose proof (Pos.size_gt m) as H.
    assert (Zpos m < Zpos (2 ^ Pos.size m))%Z by exact H.
    by rewrite Pos2Z.inj_pow in H0.
Qed.

Lemma digits_unique m d :
  2 ^ (d - 1) <= Zpos m < 2 ^ d -> Zpos (digits2_pos m) = d.
Proof.
  intros [H1 H2]. pose proof (digits_bounds m) as [H3 H4].
  assert (0 < d). { destruct (Z_lt_le_dec 0 d); [done|]. 
    assert (2 ^ d <= 2^0) by (apply Z.pow_le_mono_r; lia). simpl in *. lia. }
  destruct (Z_lt_le_dec (Zpos (digits2_pos m)) d) as [Hlt|Hge].
  - assert (2 ^ Zpos (digits2_pos m) <= 2 ^ (d - 1)) by (apply Z.pow_le_mono_r; lia). lia.
  - destruct (Z_lt_le_dec d (Zpos (digits2_pos m))) as [Hlt|Hge']; [|lia].
    assert (2 ^ d <= 2 ^ (Zpos (digits2_pos m) - 1)) by (apply Z.pow_le_mono_r; lia). lia.
Qed.

(* iter_pos as Nat.iter *)
Lemma iter_pos_nat {A} (f : A -> A) p x : SpecFloat.iter_pos f p x = Nat.iter (Pos.to_nat p) f x.
Proof.
  revert x. induction p as [p IH|p IH|]; intros x.
  - rewrite Pos2Nat.inj_xI.
    replace (S (2 * Pos.to_nat p))%nat with (Pos.to_nat p + (Pos.to_nat p + 1))%nat by lia.
    rewrite !Nat.iter_add. cbn [SpecFloat.iter_pos]. rewrite !IH. done.
  - rewrite Pos2Nat.inj_xO.
    replace (2 * Pos.to_nat p)%nat with (Pos.to_nat p + Pos.to_nat p)%nat by lia.
    rewrite Nat.iter_add. cbn [SpecFloat.iter_pos]. by rewrite !IH.
  - done.
Qed.

Local Abbreviation inexact := IEEE.inexact.

Lemma shr_1_spec mrs :
  0 <= shr_m mrs ->
  shr_m (shr_1 mrs) = shr_m mrs / 2
  ∧ inexact (shr_1 mrs) = Z.odd (shr_m mrs) || inexact mrs.
Proof.
  destruct mrs as [m r s]. simpl. intros Hm. unfold inexact.
  destruct m as [|[p|p|]|p]; simpl; try lia.
  - done.
  - split; [|done]. rewrite Pos2Z.inj_xI. 
    apply (Z.div_unique _ _ _ 1); lia.
  - split; [|done]. rewrite Pos2Z.inj_xO.
    apply (Z.div_unique _ _ _ 0); lia.
  - done.
Qed.

Lemma iter_shr_spec k : ∀ M,
  0 <= M ->
  let mrs := Nat.iter k shr_1 (Build_shr_record M false false) in
  shr_m mrs = M / 2 ^ Z.of_nat k
  ∧ (inexact mrs = false <-> M mod 2 ^ Z.of_nat k = 0).
Proof.
  induction k as [|k IH]; intros M HM.
  - simpl. rewrite Z.div_1_r, Z.mod_1_r. done.
  - intros mrs. subst mrs. simpl Nat.iter.
    destruct (IH M HM) as [Hm Hi].
    set (x := Nat.iter k shr_1 _) in *.
    assert (0 <= shr_m x) as Hx. { rewrite Hm. apply Z.div_pos; lia. }
    destruct (shr_1_spec x Hx) as [H1 H2].
    rewrite Nat2Z.inj_succ, Z.pow_succ_r by lia.
    split.
    + rewrite H1, Hm, Z.div_div by lia. f_equal. lia.
    + rewrite H2, Hm. 
      assert (0 < 2 ^ Z.of_nat k) as Hp by lia.
      pose proof (Z.div_mod M (2 ^ Z.of_nat k) ltac:(lia)) as Hdm.
      pose proof (Z.mod_pos_bound M (2 ^ Z.of_nat k) Hp) as Hb.
      set (qq := M / 2 ^ Z.of_nat k) in *. set (rr := M mod 2 ^ Z.of_nat k) in *.
      rewrite orb_false_iff, Hi.
      rewrite <- Z.negb_even, negb_false_iff, Z.even_spec.
      split.
      * intros [[c Hc] Hr]. 
        assert (M = (2 * 2 ^ Z.of_nat k) * c) as -> by lia.
        rewrite Z.mul_comm. apply Z.mod_mul. lia.
      * intros H0. apply Z.mod_divide in H0 as [c Hc]; [|lia].
        subst qq rr. rewrite Hc.
        replace (c * (2 * 2 ^ Z.of_nat k)) with ((c * 2) * 2 ^ Z.of_nat k) by lia.
        rewrite Z.mod_mul, Z.div_mul by lia. split; [|done].
        exists c. lia.
Qed.
Section Round.
Variables prec emax : Z.

Local Abbreviation fexp := (fexp prec emax).
Local Abbreviation emin := (emin prec emax).

Lemma fexp_eq c : fexp c = Z.max (c - prec) emin.
Proof. reflexivity. Qed.

Lemma shr_fexp_shift M E :
  0 <= M ->
  let n := fexp (Zdigits2 M + E) - E in
  0 <= n ->
  ∃ mrs, shr_fexp prec emax M E loc_Exact = (mrs, E + n)
         ∧ shr_m mrs = M / 2 ^ n
         ∧ (inexact mrs = false <-> M mod 2 ^ n = 0).
Proof.
  intros HM n Hn. unfold shr_fexp, shr. fold n.
  destruct n as [|p|p] eqn:En; [| |lia].
  - eexists. split; [by rewrite Z.add_0_r|]. simpl.
    by rewrite Z.div_1_r, Z.mod_1_r.
  - eexists. split; [done|]. rewrite iter_pos_nat.
    destruct (iter_shr_spec (Pos.to_nat p) M HM) as [H1 H2].
    rewrite positive_nat_Z in H1, H2. done.
Qed.

Lemma shr_fexp_noshift M E :
  fexp (Zdigits2 M + E) - E <= 0 ->
  shr_fexp prec emax M E loc_Exact = (Build_shr_record M false false, E).
Proof.
  intros Hn. unfold shr_fexp, shr.
  destruct (fexp (Zdigits2 M + E) - E) as [|p|p]; [done|lia|done].
Qed.

Lemma shr_fexp_one M E :
  fexp (Zdigits2 M + E) - E = 1 ->
  shr_fexp prec emax M E loc_Exact = (shr_1 (Build_shr_record M false false), E + 1).
Proof.
  intros Hn. unfold shr_fexp, shr. by rewrite Hn.
Qed.

Lemma rne_bounds mrs :
  let m1 := round_nearest_even (shr_m mrs) (loc_of_shr_record mrs) in
  shr_m mrs <= m1 <= shr_m mrs + 1 ∧ (inexact mrs = false -> m1 = shr_m mrs).
Proof.
  destruct mrs as [m [] []]; unfold inexact; simpl; try destruct (Z.even m); 
    (split; [lia|done]).
Qed.

Lemma Zdigits2_bounds M :
  0 < M -> 2 ^ (Zdigits2 M - 1) <= M < 2 ^ Zdigits2 M.
Proof. destruct M as [|m|m]; try lia. intros _. apply digits_bounds. Qed.

Lemma Zdigits2_unique M d :
  2 ^ (d - 1) <= M < 2 ^ d -> 0 < M -> Zdigits2 M = d.
Proof. destruct M as [|m|m]; try lia. intros H _. by apply digits_unique. Qed.

Lemma Zdigits2_pos M : 0 < M -> 0 < Zdigits2 M.
Proof. destruct M; simpl; lia. Qed.

(** The result of rounding an exact positive value [M * 2^E]. *)
Lemma round_aux_spec s M E :
  0 < prec -> 0 < M -> E <= fexp (Zdigits2 M + E) ->
  let e1 := fexp (Zdigits2 M + E) in
  let n := e1 - E in
  let q := M / 2 ^ n in
  ∃ M1, q <= M1 <= q + 1 ∧ (M mod 2 ^ n = 0 -> M1 = q) ∧
    match binary_round_aux prec emax s M E loc_Exact with
    | S754_zero s' => s' = s ∧ M1 = 0
    | S754_infinity s' => s' = s ∧ 0 < M1 ∧ emax - prec < e1 + 1
    | S754_nan => False
    | S754_finite s' m2 e2 =>
        s' = s ∧ e1 <= e2 <= e1 + 1 ∧ Zpos m2 * 2 ^ (e2 - e1) = M1
        ∧ canonical_mantissa prec emax m2 e2 = true ∧ e2 <= emax - prec
    end.
Proof.
  intros Hprec HM HE e1 n q.
  assert (0 <= n) as Hn by (unfold n, e1; lia).
  destruct (shr_fexp_shift M E ltac:(lia) Hn) as (mrs & S1 & Hq & Hex).
  fold e1 in S1. replace (E + (e1 - E)) with e1 in S1 by lia.
  fold e1 n in Hq, Hex. fold q in Hq.
  unfold binary_round_aux. rewrite S1.
  destruct (rne_bounds mrs) as [Hb Hx].
  set (M1 := round_nearest_even (shr_m mrs) (loc_of_shr_record mrs)) in *.
  rewrite Hq in Hb, Hx.
  exists M1. split; [done|]. split; [intros H0; apply Hx; by apply Hex|].
  pose proof (Zdigits2_bounds M HM) as [Hd1 Hd2].
  set (d := Zdigits2 M) in *.
  assert (0 < d) as Hd by by apply Zdigits2_pos.
  assert (0 <= q) as Hq0 by (apply Z.div_pos; lia).
  assert (emin <= e1) as Hemin by (unfold e1; rewrite fexp_eq; lia).
  destruct (Z.eq_dec M1 0) as [HM0|HM0].
  - (* rounded to zero *)
    rewrite HM0. rewrite shr_fexp_noshift; [done|].
    simpl Zdigits2. rewrite fexp_eq. lia.
  - assert (0 < M1) as HM1 by lia.
    (* digits of the rounded mantissa *)
    assert ((Zdigits2 M1 + e1 = d + E ∧ fexp (Zdigits2 M1 + e1) = e1)
            ∨ (Zdigits2 M1 + e1 = d + E + 1 ∧ ∃ j, 0 < j ∧ M1 = 2 ^ j ∧ Zdigits2 M1 = j + 1)
            ∨ (M1 = 1 ∧ e1 = emin)) as Hcase.
    { destruct (Z_lt_le_dec n d) as [Hnd|Hnd].
      - assert (2 ^ (d - n - 1) <= q < 2 ^ (d - n)) as [Hq1 Hq2].
        { unfold q. split.
          - apply Z.div_le_lower_bound; [lia|].
            rewrite <- Z.pow_add_r by lia. by replace (n + (d - n - 1)) with (d - 1) by lia.
          - apply Z.div_lt_upper_bound; [lia|].
            rewrite <- Z.pow_add_r by lia. by replace (n + (d - n)) with d by lia. }
        destruct (Z_lt_le_dec M1 (2 ^ (d - n))) as [Hlt|Hge].
        + left. assert (Zdigits2 M1 = d - n) as ->.
          { apply Zdigits2_unique; [|done]. split; [lia|done]. }
          replace (d - n + e1) with (d + E) by (unfold n; lia). done.
        + right. left. assert (M1 = 2 ^ (d - n)) as HM1e by lia.
          assert (Zdigits2 M1 = d - n + 1) as Hd1'.
          { apply Zdigits2_unique; [|done]. rewrite HM1e.
            replace (d - n + 1 - 1) with (d - n) by lia. split; [lia|].
            apply Z.pow_lt_mono_r; lia. }
          split; [rewrite Hd1'; unfold n; lia|].
          exists (d - n). split; [lia|]. done.
      - right. right.
        assert (q = 0) as Hq00.
        { unfold q. apply Z.div_small. split; [lia|].
          assert (2 ^ d <= 2 ^ n) by (apply Z.pow_le_mono_r; lia). lia. }
        split; [lia|].
        unfold n, e1 in Hnd. unfold e1. rewrite fexp_eq in *. fold d in Hnd |- *. lia. }
    destruct Hcase as [[Hc Hf]|[[Hc (j & Hj & HMj & Hdj)]|[HM11 He1]]].
    + rewrite shr_fexp_noshift by lia. simpl shr_m.
      destruct M1 as [|m1|m1]; try lia.
      destruct (e1 <=? emax - prec) eqn:Hov.
      * apply Z.leb_le in Hov. split; [done|]. split; [lia|].
        split; [by rewrite Z.sub_diag, Z.mul_1_r|]. split; [|done].
        unfold canonical_mantissa. apply Z.eqb_eq. exact Hf.
      * apply Z.leb_gt in Hov. split; [done|]. split; lia.
    + assert (fexp (Zdigits2 M1 + e1) = e1 ∨ fexp (Zdigits2 M1 + e1) = e1 + 1) as [Hf|Hf].
      { rewrite Hc. unfold e1. fold d. rewrite !fexp_eq. lia. }
      * rewrite shr_fexp_noshift by lia. simpl shr_m.
        destruct M1 as [|m1|m1]; try lia.
        destruct (e1 <=? emax - prec) eqn:Hov.
        -- apply Z.leb_le in Hov. split; [done|]. split; [lia|].
           split; [by rewrite Z.sub_diag, Z.mul_1_r|]. split; [|done].
           unfold canonical_mantissa. apply Z.eqb_eq. exact Hf.
        -- apply Z.leb_gt in Hov. split; [done|]. split; lia.
      * rewrite shr_fexp_one by lia.
        destruct (shr_1_spec (Build_shr_record M1 false false) ltac:(simpl; lia)) as [Hs _].
        rewrite Hs. simpl shr_m.
        assert (M1 / 2 = 2 ^ (j - 1)) as Hhalf.
        { rewrite HMj. replace j with (Z.succ (j - 1)) at 1 by lia.
          rewrite Z.pow_succ_r by lia. rewrite Z.mul_comm, Z.div_mul; lia. }
        rewrite Hhalf.
        assert (0 < 2 ^ (j - 1)) as Hpos by (apply Z.pow_pos_nonneg; lia).
        destruct (2 ^ (j - 1)) as [|m2|m2] eqn:Em2; try lia.
        destruct (e1 + 1 <=? emax - prec) eqn:Hov.
        -- apply Z.leb_le in Hov. split; [done|]. split; [lia|].
           split. { replace (e1 + 1 - e1) with 1 by lia. rewrite <- Em2, HMj.
                    replace j with (Z.succ (j - 1)) at 2 by lia.
                    rewrite Z.pow_succ_r by lia. lia. }
           split; [|done].
           unfold canonical_mantissa. apply Z.eqb_eq.
           assert (Zdigits2 (Zpos m2) = j) as Hdm2.
           { apply Zdigits2_unique; [|done]. rewrite <- Em2. split; [lia|].
             apply Z.pow_lt_mono_r; lia. }
           simpl Zdigits2 in Hdm2. rewrite Hdm2.
           rewrite Hdj in Hf. by replace (j + (e1 + 1)) with (j + 1 + e1) by lia.
        -- apply Z.leb_gt in Hov. split; [done|]. split; lia.
    + rewrite HM11. rewrite shr_fexp_noshift; cycle 1.
      { simpl Zdigits2. rewrite fexp_eq, He1. lia. }
      simpl shr_m.
      destruct (e1 <=? emax - prec) eqn:Hov.
      * apply Z.leb_le in Hov. split; [done|]. split; [lia|].
        split; [rewrite Z.sub_diag; lia|]. split; [|done].
        unfold canonical_mantissa. apply Z.eqb_eq. simpl. rewrite fexp_eq, He1. lia.
      * apply Z.leb_gt in Hov. split; [done|]. split; lia.
Qed.

Lemma canonical_digits m e :
  canonical_mantissa prec emax m e = true ->
  Zpos (digits2_pos m) <= prec
  ∧ (emin < e -> Zpos (digits2_pos m) = prec).
Proof.
  unfold canonical_mantissa. intros H%Z.eqb_eq.
  unfold SpecFloat.fexp in H. lia.
Qed.

Lemma round_canonical s m e :
  bounded prec emax m e = true ->
  binary_round prec emax s m e = S754_finite s m e.
Proof.
  unfold bounded. intros [Hc Hb]%andb_prop. apply Z.leb_le in Hb.
  pose proof Hc as Hc'. unfold canonical_mantissa in Hc'. apply Z.eqb_eq in Hc'.
  unfold binary_round, shl_align. rewrite Hc', Z.sub_diag.
  unfold binary_round_aux.
  rewrite shr_fexp_noshift by (simpl Zdigits2; lia).
  simpl shr_m. simpl loc_of_shr_record. simpl round_nearest_even.
  rewrite shr_fexp_noshift by (simpl Zdigits2; lia).
  simpl shr_m. by rewrite (proj2 (Z.leb_le _ _) Hb).
Qed.

End Round.

Lemma trunc_nonpos m e :
  e <= 0 -> IEEE.trunc (S754_finite false m e) = Zpos m / 2 ^ (- e).
Proof.
  intros He. unfold IEEE.trunc. simpl cond_Zopp.
  destruct e as [|p|p]; [|lia|].
  - simpl. by rewrite Z.div_1_r.
  - by rewrite Z.shiftr_div_pow2.
Qed.

Section Scale.
Variables prec emax : Z.
Hypothesis Hprec : 16 < prec.
Hypothesis Hemax : 17 <= emax.
Variable Kp Op : positive.
Hypothesis HK : Zpos Kp = 65535 * 2 ^ (prec - 16).
Hypothesis HO : Zpos Op = 2 ^ (prec - 1).

Local Abbreviation fexp := (fexp prec emax).
Local Abbreviation emin := (emin prec emax).

Lemma mul65535_spec (m : positive) (e : Z) :
  canonical_mantissa prec emax m e = true -> e < 0 -> Zpos m <= 2 ^ (- e) ->
  let t := SFmul prec emax (S754_finite false m e) (S754_finite false Kp (16 - prec)) in
  let FL := (Zpos m * 65535) / 2 ^ (- e) in
  ∃ T, FL <= T <= FL + 1 ∧ T <= 65535
       ∧ ((t = S754_zero false ∧ T = 0)
          ∨ ∃ m2 e2, t = S754_finite false m2 e2
                     ∧ canonical_mantissa prec emax m2 e2 = true
                     ∧ e2 <= 17 - prec ∧ T = Zpos m2 / 2 ^ (- e2)).
Proof using All.
  intros Hcan He Hm t FL.
  destruct (canonical_digits prec emax m e Hcan) as [Hdm _].
  pose proof (digits_bounds m) as [Hm1 Hm2].
  set (dm := Zpos (digits2_pos m)) in *.
  assert (0 < dm) as Hdm0 by (unfold dm; lia).
  set (M := Zpos (m * Kp)).
  set (E := e + (16 - prec)).
  assert (M = Zpos m * 65535 * 2 ^ (prec - 16)) as HM.
  { unfold M. rewrite Pos2Z.inj_mul, HK. lia. }
  assert (0 < 2 ^ (prec - 16)) as Hp16 by (apply Z.pow_pos_nonneg; lia).
  assert (0 < 2 ^ (- e)) as Hpe by (apply Z.pow_pos_nonneg; lia).
  assert (0 < M) as HM0 by (unfold M; lia).
  pose proof (Zdigits2_bounds M HM0) as [Hd1 Hd2].
  set (d := Zdigits2 M) in *.
  assert (0 < d) as Hd0 by (by apply Zdigits2_pos).
  (* the product has at least [dm + prec - 1] digits *)
  assert (dm + prec - 1 <= d) as Hdlow.
  { destruct (Z_lt_le_dec d (dm + prec - 1)) as [Hlt|]; [|done]. exfalso.
    assert (2 ^ d <= 2 ^ (dm + prec - 2)) as H1 by (apply Z.pow_le_mono_r; lia).
    replace (dm + prec - 2) with ((dm - 1) + (prec - 16) + 15) in H1 by lia.
    rewrite !Z.pow_add_r in H1 by lia.
    assert (2 ^ (dm - 1) * 2 ^ (prec - 16) * 2 ^ 15
            <= Zpos m * 2 ^ (prec - 16) * 2 ^ 15) as H2.
    { apply Z.mul_le_mono_nonneg_r; [lia|]. apply Z.mul_le_mono_nonneg_r; lia. }
    change (2 ^ 15) with 32768 in *. nia. }
  (* and at most [16 - E] *)
  assert (M <= 65535 * 2 ^ (- E)) as HMle.
  { rewrite HM. unfold E. replace (- (e + (16 - prec))) with (- e + (prec - 16)) by lia.
    rewrite Z.pow_add_r by lia. nia. }
  assert (d + E <= 16) as Hdup.
  { destruct (Z_lt_le_dec 16 (d + E)) as [Hgt|]; [|lia]. exfalso.
    assert (2 ^ (16 - E) <= 2 ^ (d - 1)) as H1 by (apply Z.pow_le_mono_r; lia).
    replace (16 - E) with (16 + - E) in H1 by lia.
    rewrite Z.pow_add_r in H1 by (unfold E; lia).
    change (2 ^ 16) with 65536 in H1.
    assert (0 < 2 ^ (- E)) by (apply Z.pow_pos_nonneg; unfold E; lia). nia. }
  assert (E <= fexp (d + E)) as HE by (unfold SpecFloat.fexp; lia).
  destruct (round_aux_spec prec emax false M E ltac:(lia) HM0 HE)
    as (M1 & Hb & Hx & Hr).
  fold d in Hb, Hx, Hr.
  set (e1 := fexp (d + E)) in *.
  set (n := e1 - E) in *.
  set (q := M / 2 ^ n) in *.
  assert (emin <= 16 - prec) as Hemin by (unfold SpecFloat.emin; lia).
  assert (e1 <= 16 - prec) as He1 by (unfold e1, SpecFloat.fexp; lia).
  set (s1 := - e1).
  assert (0 < s1) as Hs1 by (unfold s1; lia).
  assert (0 <= n) as Hn by (unfold n; lia).
  assert (0 < 2 ^ s1) as Hps1 by (apply Z.pow_pos_nonneg; lia).
  assert (0 < 2 ^ n) as Hpn by (apply Z.pow_pos_nonneg; lia).
  assert (FL = q / 2 ^ s1) as HFL.
  { unfold FL, q. rewrite Z.div_div by lia. rewrite <- Z.pow_add_r by lia.
    replace (n + s1) with (- e + (prec - 16)) by (unfold n, s1, E; lia).
    rewrite Z.pow_add_r by lia. rewrite HM.
    by rewrite Z.div_mul_cancel_r by lia. }
  assert (FL <= 65535) as HFLle.
  { unfold FL. apply Z.div_le_upper_bound; [lia|]. nia. }
  assert (0 <= q) as Hq0 by (apply Z.div_pos; lia).
  set (T := M1 / 2 ^ s1).
  assert (FL <= T <= FL + 1) as HT.
  { unfold T. rewrite HFL. split.
    - apply Z.div_le_mono; lia.
    - etrans; [apply (Z.div_le_mono M1 (q + 2 ^ s1)); lia|].
      rewrite <- (Z.mul_1_l (2 ^ s1)) at 1. rewrite Z.div_add by lia. done. }
  assert (T <= 65535) as HT2.
  { destruct (Z.eq_dec FL 65535) as [Heq|]; [|lia].
    (* the product is exactly 65535: nothing is rounded *)
    assert (Zpos m = 2 ^ (- e)) as Hmeq.
    { unfold FL in Heq.
      pose proof (Z.mul_div_le (Zpos m * 65535) (2 ^ (- e)) Hpe) as Hle.
      rewrite Heq in Hle. nia. }
    assert (M = (65535 * 2 ^ s1) * 2 ^ n) as HMn.
    { rewrite HM, Hmeq.
      assert (2 ^ s1 * 2 ^ n = 2 ^ (- e) * 2 ^ (prec - 16)) as Hpw.
      { rewrite <- !Z.pow_add_r by lia. f_equal. unfold n, s1, E. lia. }
      nia. }
    assert (M1 = q) as -> by (apply Hx; rewrite HMn; apply Z.mod_mul; lia).
    unfold T. rewrite <- HFL. lia. }
  exists T. split; [done|]. split; [done|].
  unfold t, SFmul. simpl xorb. fold M E.
  destruct (binary_round_aux prec emax false M E loc_Exact) as [s'|s'| |s' m2 e2].
  - left. destruct Hr as [-> HM10]. split; [done|]. unfold T. by rewrite HM10.
  - exfalso. lia.
  - done.
  - right. destruct Hr as (-> & He2 & Hmant & Hc2 & _).
    exists m2, e2. split; [done|]. split; [done|]. split; [lia|].
    unfold T. rewrite <- Hmant.
    assert (0 < 2 ^ (e2 - e1)) by (apply Z.pow_pos_nonneg; lia).
    replace s1 with ((- e2) + (e2 - e1)) by (unfold s1; lia).
    rewrite Z.pow_add_r by lia.
    rewrite Z.div_mul_cancel_r; lia.
Qed.

Lemma leb_one_spec m e :
  canonical_mantissa prec emax m e = true ->
  IEEE.leb (S754_finite false m e) (S754_finite false Op (1 - prec)) = true ->
  e < 0 ∧ Zpos m <= 2 ^ (- e).
Proof using All.
  intros Hcan Hle.
  destruct (canonical_digits prec emax m e Hcan) as [Hdm _].
  pose proof (digits_bounds m) as [_ Hm2].
  unfold IEEE.leb, SFleb, SFcompare in Hle.
  destruct (Z.compare_spec e (1 - prec)) as [Heq|Hlt|Hgt].
  - subst e. split; [lia|]. replace (- (1 - prec)) with (prec - 1) by lia.
    rewrite <- HO.
    destruct (Pos.compare_cont Eq m Op) eqn:Ec; try done.
    + apply Pos.compare_eq in Ec. subst. lia.
    + assert (Zpos m < Zpos Op) by (apply Pos2Z.pos_lt_pos; exact Ec). lia.
  - split; [lia|].
    assert (2 ^ Zpos (digits2_pos m) <= 2 ^ (- e)) by (apply Z.pow_le_mono_r; lia).
    lia.
  - done.
Qed.

Lemma clip_scaled_trunc t T :
  T <= 65535 ->
  ((t = S754_zero false ∧ T = 0)
   ∨ ∃ m2 e2, t = S754_finite false m2 e2
              ∧ canonical_mantissa prec emax m2 e2 = true
              ∧ e2 <= 17 - prec ∧ T = Zpos m2 / 2 ^ (- e2)) ->
  IEEE.trunc (IEEE.clip t (S754_zero false) (S754_finite false Kp (16 - prec))) = T.
Proof using All.
  intros HT [[-> ->]|(m2 & e2 & -> & Hcan & He2 & HTe)]; [done|].
  assert (IEEE.trunc (S754_finite false Kp (16 - prec)) = 65535) as Hhi.
  { rewrite trunc_nonpos by lia. rewrite HK.
    replace (- (16 - prec)) with (prec - 16) by lia.
    apply Z.div_mul. assert (0 < 2 ^ (prec - 16)) by (apply Z.pow_pos_nonneg; lia). lia. }
  unfold IEEE.clip, IEEE.fmax. simpl IEEE.is_nan. 
  change (IEEE.ltb (S754_zero false) (S754_finite false m2 e2)) with true.
  cbv iota. unfold IEEE.fmin. simpl IEEE.is_nan. cbv iota.
  unfold IEEE.ltb, SFltb, SFcompare.
  destruct (Z.compare_spec e2 (16 - prec)) as [Heq|Hlt|Hgt].
  - destruct (Pos.compare_cont Eq m2 Kp) eqn:Ec.
    + rewrite Hhi. apply Pos.compare_eq in Ec. subst m2 e2.
      rewrite HTe, <- Hhi. by rewrite trunc_nonpos by lia.
    + rewrite trunc_nonpos by lia. done.
    + rewrite Hhi.
      assert (Zpos Kp < Zpos m2) as Hgt.
      { apply Pos2Z.pos_lt_pos, Pos.compare_gt_iff. exact Ec. }
      assert (65535 <= T); [|lia].
      rewrite HTe. subst e2. replace (- (16 - prec)) with (prec - 16) by lia.
      assert (0 < 2 ^ (prec - 16)) by (apply Z.pow_pos_nonneg; lia).
      apply Z.div_le_lower_bound; [lia|]. lia.
  - rewrite trunc_nonpos by lia. done.
  - exfalso. assert (e2 = 17 - prec) as -> by lia.
    destruct (canonical_digits prec emax m2 _ Hcan) as [_ Hd].
    assert (Zpos (digits2_pos m2) = prec) as Hdm2 by (apply Hd; unfold emin; lia).
    pose proof (digits_bounds m2) as [Hlow _]. rewrite Hdm2 in Hlow.
    replace (- (17 - prec)) with (prec - 17) in HTe by lia.
    assert (65536 <= T); [|lia].
    rewrite HTe. 
    assert (0 < 2 ^ (prec - 17)) by (apply Z.pow_pos_nonneg; lia).
    apply Z.div_le_lower_bound; [lia|].
    replace (prec - 1) with (16 + (prec - 17)) in Hlow by lia.
    rewrite Z.pow_add_r in Hlow by lia. change (2 ^ 16) with 65536 in Hlow. lia.
Qed.

(** The scaled, clipped and truncated value of a float in [0, 1]. *)
Lemma scale_trunc_spec m e :
  bounded prec emax m e = true ->
  IEEE.leb (S754_finite false m e) (S754_finite false Op (1 - prec)) = true ->
  let c := IEEE.clip
             (SFmul prec emax (binary_round prec emax false m e)
                (S754_finite false Kp (16 - prec)))
             (S754_zero false) (S754_finite false Kp (16 - prec)) in
  let FL := (Zpos m * 65535) / 2 ^ (- e) in
  e < 0 ∧ FL <= IEEE.trunc c <= FL + 1 ∧ 0 <= IEEE.trunc c <= 65535.
Proof using All.
  intros Hb Hle c FL.
  pose proof Hb as Hb'. unfold bounded in Hb'. apply andb_prop in Hb' as [Hcan _].
  destruct (leb_one_spec m e Hcan Hle) as [He Hm].
  destruct (mul65535_spec m e Hcan He Hm)
    as (T & HT1 & HT2 & Ht).
  unfold c. rewrite (round_canonical prec emax) by done.
  rewrite (clip_scaled_trunc _ T HT2 Ht).
  split; [done|]. split; [done|]. split; [|done].
  assert (0 <= (Zpos m * 65535) / 2 ^ (- e)); [|unfold FL in *; lia].
  apply Z.div_pos; [lia|]. apply Z.pow_pos_nonneg; lia.
Qed.

End Scale.

Lemma iter_shr_m k : ∀ mrs,
  0 <= shr_m mrs -> shr_m (Nat.iter k shr_1 mrs) = shr_m mrs / 2 ^ Z.of_nat k.
Proof.
  induction k as [|k IH]; intros mrs Hm.
  - simpl. by rewrite Z.div_1_r.
  - simpl Nat.iter.
    assert (0 <= shr_m (Nat.iter k shr_1 mrs)) as Hk.
    { rewrite IH by done. apply Z.div_pos; lia. }
    destruct (shr_1_spec _ Hk) as [-> _]. rewrite IH by done.
    rewrite Nat2Z.inj_succ, Z.pow_succ_r by lia.
    rewrite Z.div_div by lia. f_equal. lia.
Qed.

Lemma shr_m_record_of_loc m l : shr_m (shr_record_of_loc m l) = m.
Proof. by destruct l as [|[]]. Qed.

Section Nonzero.
Variables prec emax : Z.
Local Abbreviation fexp := (fexp prec emax).
Local Abbreviation emin := (emin prec emax).

(** Rounding a value with at least [prec] digits above the subnormal
    range gives a nonzero number. *)
Lemma round_aux_nonzero s M E l :
  0 < prec -> 2 ^ (prec - 1) <= M -> emin <= E ->
  match binary_round_aux prec emax s M E l with
  | S754_finite _ _ _ | S754_infinity _ => True
  | _ => False
  end.
Proof.
  intros Hprec HM HE.
  assert (0 < 2 ^ (prec - 1)) as Hpp by (apply Z.pow_pos_nonneg; lia).
  assert (0 < M) as HM0 by lia.
  pose proof (Zdigits2_bounds M HM0) as [Hd1 Hd2].
  set (d := Zdigits2 M) in *.
  assert (prec <= d) as Hd.
  { destruct (Z_lt_le_dec d prec); [|done]. exfalso.
    assert (2 ^ d <= 2 ^ (prec - 1)) by (apply Z.pow_le_mono_r; lia). lia. }
  unfold binary_round_aux.
  destruct (shr_fexp prec emax M E l) as [mrs e1] eqn:S1.
  assert (e1 = E + (d - prec) ∧ 2 ^ (prec - 1) <= shr_m mrs) as [He1 Hm].
  { unfold shr_fexp, shr in S1. fold d in S1.
    assert (fexp (d + E) - E = d - prec) as Hn by (rewrite fexp_eq; lia).
    rewrite Hn in S1.
    destruct (d - prec) as [|p|p] eqn:En; [| |lia].
    - injection S1 as <- <-. rewrite shr_m_record_of_loc. split; [lia|done].
    - injection S1 as <- <-. split; [done|].
      rewrite iter_pos_nat, iter_shr_m by (rewrite shr_m_record_of_loc; lia).
      rewrite shr_m_record_of_loc, positive_nat_Z.
      apply Z.div_le_lower_bound; [lia|].
      rewrite <- Z.pow_add_r by lia.
      replace (Zpos p + (prec - 1)) with (d - 1) by lia. done. }
  destruct (rne_bounds mrs) as [[Hb _] _].
  set (M1 := round_nearest_even (shr_m mrs) (loc_of_shr_record mrs)) in *.
  assert (0 < M1) as HM1 by lia.
  destruct (shr_fexp prec emax M1 e1 loc_Exact) as [mrs' e2] eqn:S2.
  assert (0 < shr_m mrs') as Hfin.
  { pose proof (Zdigits2_bounds M1 HM1) as [Hx1 Hx2].
    set (d1 := Zdigits2 M1) in *.
    assert (prec <= d1) as Hd1'.
    { destruct (Z_lt_le_dec d1 prec); [|done]. exfalso.
      assert (2 ^ d1 <= 2 ^ (prec - 1)) by (apply Z.pow_le_mono_r; lia). lia. }
    unfold shr_fexp, shr in S2. fold d1 in S2.
    assert (fexp (d1 + e1) - e1 = d1 - prec) as Hn by (rewrite fexp_eq; lia).
    rewrite Hn in S2.
    destruct (d1 - prec) as [|p|p] eqn:En; [| |lia].
    - injection S2 as <- <-. simpl. done.
    - injection S2 as <- <-.
      rewrite iter_pos_nat, iter_shr_m by (simpl; lia).
      simpl shr_m. rewrite positive_nat_Z.
      apply Z.div_str_pos. split; [lia|].
      etrans; [|exact Hx1]. apply Z.pow_le_mono_r; lia. }
  destruct (shr_m mrs'); try lia. by destruct (_ <=? _).
Qed.

End Nonzero.

(** The quotient of two positive 32-bit integers is a nonzero float. *)
Lemma int_truediv_nonzero a b :
  0 < a < 2 ^ 32 -> 0 < b < 2 ^ 32 ->
  ∃ x, Py.int_truediv a b = Some x ∧ IEEE.is_zero x = false ∧ IEEE.is_nan x = false.
Proof.
  intros Ha Hb. unfold Py.int_truediv.
  replace (b =? 0) with false by (symmetry; apply Z.eqb_neq; lia).
  eexists. split; [done|].
  destruct a as [|a|a]; try lia. destruct b as [|b|b]; try lia.
  unfold Py.raw_int, IEEE.div, SFdiv, SFdiv_core_binary.
  cbn [IEEE.fprec IEEE.femax IEEE.binary64 xorb].
  pose proof (Zdigits2_bounds (Zpos a) ltac:(lia)) as [Ha1 Ha2].
  pose proof (Zdigits2_bounds (Zpos b) ltac:(lia)) as [Hb1 Hb2].
  set (d1 := Zdigits2 (Zpos a)) in *. set (d2 := Zdigits2 (Zpos b)) in *.
  assert (0 < d1 <= 32) as Hd1.
  { split; [by apply Zdigits2_pos|].
    destruct (Z_lt_le_dec 32 d1); [|done]. exfalso.
    assert (2 ^ 32 <= 2 ^ (d1 - 1)) by (apply Z.pow_le_mono_r; lia). lia. }
  assert (0 < d2 <= 32) as Hd2.
  { split; [by apply Zdigits2_pos|].
    destruct (Z_lt_le_dec 32 d2); [|done]. exfalso.
    assert (2 ^ 32 <= 2 ^ (d2 - 1)) by (apply Z.pow_le_mono_r; lia). lia. }
  rewrite !Z.add_0_r, Z.sub_diag.
  assert (Z.min (SpecFloat.fexp 53 1024 (d1 - d2)) 0 = d1 - d2 - 53) as ->.
  { unfold SpecFloat.fexp, SpecFloat.emin. lia. }
  replace (0 - (d1 - d2 - 53)) with (53 + d2 - d1) by lia.
  destruct (53 + d2 - d1) as [|p|p] eqn:Es; try lia.
  change IntDef.Z.div_eucl with Z.div_eucl. change IntDef.Z.shiftl with Z.shiftl.
  rewrite Z.shiftl_mul_pow2 by lia.
  pose proof (Z.div_eucl_eq (Zpos a * 2 ^ Zpos p) (Zpos b) ltac:(lia)) as Hdiv.
  pose proof (Z.mod_pos_bound (Zpos a * 2 ^ Zpos p) (Zpos b) ltac:(lia)) as Hmod.
  unfold Z.modulo in Hmod.
  destruct (Z.div_eucl (Zpos a * 2 ^ Zpos p) (Zpos b)) as [q r].
  assert (2 ^ 52 <= q) as Hq.
  { assert (2 ^ (d1 - 1) * 2 ^ Zpos p <= Zpos a * 2 ^ Zpos p) as H1.
    { apply Z.mul_le_mono_nonneg_r; [|done]. apply Z.pow_nonneg. lia. }
    rewrite <- Z.pow_add_r in H1 by lia.
    replace (d1 - 1 + Zpos p) with (52 + d2) in H1 by lia.
    rewrite Z.pow_add_r in H1 by lia.
    assert (0 < 2 ^ 52) by done.
    destruct (Z_lt_le_dec q (2 ^ 52)); [|done]. exfalso. nia. }
  pose proof (round_aux_nonzero 53 1024 false q (d1 - d2 - 53)
                (new_location (Zpos b) r) ltac:(lia) Hq
                ltac:(unfold SpecFloat.emin; lia)) as Hnz.
  by destruct (binary_round_aux _ _ _ _ _ _).
Qed.

Local Close Scope Z_scope.

Lemma Qfloor_scaled m e :
  (e < 0)%Z ->
  Qfloor (IEEE.to_Q (S754_finite false m e) * 65535) = (Zpos m * 65535 / 2 ^ (- e))%Z.
Proof.
  intros He. rewrite Zdiv_Qdiv. apply Qfloor_comp.
  unfold IEEE.to_Q. simpl cond_Zopp.
  replace e with (- (- e))%Z at 1 by lia. rewrite Qpower_opp.
  rewrite inject_Z_mult. rewrite Zpower_Qpower by lia.
  change (inject_Z 2) with 2%Q. change (inject_Z 65535) with 65535%Q.
  field. 
  intros H. apply (Qpower_not_0 2 (- e)) in H; [done|]. done.
Qed.

Lemma nearest_floor q : (Qfloor q <= IEEE.nearest q <= Qfloor q + 1)%Z.
Proof.
  unfold IEEE.nearest. split.
  - apply Qfloor_resp_le. lra.
  - pose proof (Qfloor_le (q + (1 # 2))) as H1.
    pose proof (Qlt_floor q) as H2.
    assert (inject_Z (Qfloor (q + (1 # 2))) < inject_Z (Qfloor q + 1) + (1 # 2))%Q as H by lra.
    destruct (Z_lt_le_dec (Qfloor q + 1) (Qfloor (q + (1 # 2)))) as [Hlt|]; [|done].
    exfalso. assert (Qfloor q + 1 + 1 <= Qfloor (q + (1 # 2)))%Z as Hle by lia.
    rewrite Zle_Qle in Hle. rewrite !inject_Z_plus in Hle. rewrite inject_Z_plus in H.
    change (inject_Z 1) with 1%Q in *. lra.
Qed.

(** Scaling one value of [0, 1] to sixteen bits. *)
Lemma rescale_item_unit f v :
  valid f v = true ->
  IEEE.leb (IEEE.of_Z (fmt f) 0) v = true ->
  IEEE.leb v (IEEE.of_Z (fmt f) 1) = true ->
  (Qfloor (IEEE.to_Q v * 65535) <= rescale_item f v <= Qfloor (IEEE.to_Q v * 65535) + 1)%Z
  ∧ rescale_item f v
    = IEEE.trunc (IEEE.clip (IEEE.mul (fmt f) v (IEEE.of_Z (fmt f) 65535))
                    (IEEE.of_Z (fmt f) 0) (IEEE.of_Z (fmt f) 65535)).
Proof.
  intros Hv H0 H1.
  destruct v as [s|s| |s m e].
  - split; [|by destruct f, s]. by destruct f, s.
  - by destruct f, s.
  - done.
  - destruct s; [by destruct f|].
    unfold valid in Hv. simpl in Hv.
    assert (IEEE.round (fmt f) (S754_finite false m e) = S754_finite false m e) as Hr.
    { apply round_canonical. done. }
    unfold rescale_item. rewrite Hr.
    destruct f.
    + destruct (scale_trunc_spec 24 128 ltac:(lia) ltac:(lia) 16776960 8388608
                  ltac:(done) ltac:(done) m e Hv H1) as (He & Hfl & Hrange).
      rewrite (round_canonical 24 128) in Hfl, Hrange by done.
      rewrite Qfloor_scaled by done.
      change (IEEE.of_Z (fmt float32) 65535) with (S754_finite false 16776960 (16 - 24)).
      change (IEEE.of_Z (fmt float32) 0) with (S754_zero false).
      change (IEEE.mul (fmt float32)) with (SFmul 24 128).
      set (T := IEEE.trunc _) in *.
      unfold wrap. simpl isigned. cbv iota. simpl ibits.
      change (2 ^ 16)%Z with 65536%Z. rewrite Z.mod_small by lia. done.
    + destruct (scale_trunc_spec 53 1024 ltac:(lia) ltac:(lia) 9007061815787520
                  4503599627370496 ltac:(done) ltac:(done) m e Hv H1)
        as (He & Hfl & Hrange).
      rewrite (round_canonical 53 1024) in Hfl, Hrange by done.
      rewrite Qfloor_scaled by done.
      change (IEEE.of_Z (fmt float64) 65535) with (S754_finite false 9007061815787520 (16 - 53)).
      change (IEEE.of_Z (fmt float64) 0) with (S754_zero false).
      change (IEEE.mul (fmt float64)) with (SFmul 53 1024).
      set (T := IEEE.trunc _) in *.
      unfold wrap. simpl isigned. cbv iota. simpl ibits.
      change (2 ^ 16)%Z with 65536%Z. rewrite Z.mod_small by lia. done.
Qed.

(** *** Values of the format, and values outside the unit interval *)

Local Open Scope Z_scope.

Section Valid.
Variables prec emax : Z.
Local Abbreviation fexp := (fexp prec emax).
Local Abbreviation emin := (emin prec emax).

(** Shifting by [fexp] divides the mantissa, whatever was lost before. *)
Lemma shr_fexp_loc M E l :
  0 <= M ->
  let n := fexp (Zdigits2 M + E) - E in
  0 <= n ->
  ∃ mrs, shr_fexp prec emax M E l = (mrs, E + n) ∧ shr_m mrs = M / 2 ^ n.
Proof.
  intros HM n Hn. unfold shr_fexp, shr. fold n.
  destruct n as [|p|p] eqn:En; [| |lia].
  - eexists. split; [by rewrite Z.add_0_r|].
    by rewrite shr_m_record_of_loc, Z.div_1_r.
  - eexists. split; [done|].
    rewrite iter_pos_nat, iter_shr_m by (rewrite shr_m_record_of_loc; lia).
    by rewrite shr_m_record_of_loc, positive_nat_Z.
Qed.

(** Rounding a mantissa that carries enough digits gives a value of the
    format: zero, an infinity, or a finite number in canonical form. *)
Lemma round_aux_valid s M E l :
  0 < prec -> 0 <= M -> E <= fexp (Zdigits2 M + E) ->
  valid_binary prec emax (binary_round_aux prec emax s M E l) = true
  ∧ (match binary_round_aux prec emax s M E l with
     | S754_nan => False
     | S754_zero s' | S754_infinity s' | S754_finite s' _ _ => s' = s
     end).
Proof.
  intros Hprec HM HE.
  set (e1 := fexp (Zdigits2 M + E)).
  set (n := e1 - E).
  set (q := M / 2 ^ n).
  assert (0 <= n) as Hn by (unfold n, e1; lia).
  destruct (shr_fexp_loc M E l HM Hn) as (mrs & S1 & Hq).
  fold e1 in S1. replace (E + (e1 - E)) with e1 in S1 by lia.
  fold e1 n in Hq. fold q in Hq.
  unfold binary_round_aux. rewrite S1.
  destruct (rne_bounds mrs) as [Hb _].
  set (M1 := round_nearest_even (shr_m mrs) (loc_of_shr_record mrs)) in *.
  rewrite Hq in Hb.
  set (d := Zdigits2 M) in *.
  assert (0 <= d) as Hd by (unfold d; destruct M; simpl; lia).
  assert (M < 2 ^ d) as Hd2.
  { destruct (Z.eq_dec M 0) as [->|]; [simpl; lia|].
    apply Zdigits2_bounds. lia. }
  assert (0 < 2 ^ n) as Hpn by (apply Z.pow_pos_nonneg; lia).
  assert (0 <= q) as Hq0 by (apply Z.div_pos; lia).
  assert (emin <= e1) as Hemin by (unfold e1; rewrite fexp_eq; lia).
  destruct (Z.eq_dec M1 0) as [HM0|HM0].
  - rewrite HM0. rewrite shr_fexp_noshift; [done|].
    simpl Zdigits2. rewrite fexp_eq. lia.
  - assert (0 < M1) as HM1 by lia.
    assert ((Zdigits2 M1 + e1 = d + E ∧ fexp (Zdigits2 M1 + e1) = e1)
            ∨ (Zdigits2 M1 + e1 = d + E + 1 ∧ ∃ j, 0 < j ∧ M1 = 2 ^ j ∧ Zdigits2 M1 = j + 1)
            ∨ (M1 = 1 ∧ e1 = emin)) as Hcase.
    { destruct (Z_lt_le_dec n d) as [Hnd|Hnd].
      - assert (0 < M) as HMpos.
        { destruct (Z.eq_dec M 0) as [H0|]; [|lia]. unfold d in Hnd. rewrite H0 in Hnd.
          simpl in Hnd. lia. }
        pose proof (Zdigits2_bounds M HMpos) as [Hd1 _]. fold d in Hd1.
        assert (2 ^ (d - n - 1) <= q < 2 ^ (d - n)) as [Hq1 Hq2].
        { unfold q. split.
          - apply Z.div_le_lower_bound; [lia|].
            rewrite <- Z.pow_add_r by lia. by replace (n + (d - n - 1)) with (d - 1) by lia.
          - apply Z.div_lt_upper_bound; [lia|].
            rewrite <- Z.pow_add_r by lia. by replace (n + (d - n)) with d by lia. }
        destruct (Z_lt_le_dec M1 (2 ^ (d - n))) as [Hlt|Hge].
        + left. assert (Zdigits2 M1 = d - n) as ->.
          { apply Zdigits2_unique; [|done]. split; [lia|done]. }
          replace (d - n + e1) with (d + E) by (unfold n; lia). done.
        + right. left. assert (M1 = 2 ^ (d - n)) as HM1e by lia.
          assert (Zdigits2 M1 = d - n + 1) as Hd1'.
          { apply Zdigits2_unique; [|done]. rewrite HM1e.
            replace (d - n + 1 - 1) with (d - n) by lia. split; [lia|].
            apply Z.pow_lt_mono_r; lia. }
          split; [rewrite Hd1'; unfold n; lia|].
          exists (d - n). split; [lia|]. done.
      - right. right.
        assert (q = 0) as Hq00.
        { unfold q. apply Z.div_small. split; [lia|].
          assert (2 ^ d <= 2 ^ n) by (apply Z.pow_le_mono_r; lia). lia. }
        split; [lia|].
        unfold n, e1 in Hnd. unfold e1. rewrite fexp_eq in *. fold d in Hnd |- *. lia. }
    destruct Hcase as [[Hc Hf]|[[Hc (j & Hj & HMj & Hdj)]|[HM11 He1]]].
    + rewrite shr_fexp_noshift by lia. simpl shr_m.
      destruct M1 as [|m1|m1]; try lia.
      destruct (e1 <=? emax - prec) eqn:Hov; [|done].
      split; [|done]. simpl. unfold bounded. rewrite Hov, andb_true_r.
      unfold canonical_mantissa. apply Z.eqb_eq. exact Hf.
    + assert (fexp (Zdigits2 M1 + e1) = e1 ∨ fexp (Zdigits2 M1 + e1) = e1 + 1) as [Hf|Hf].
      { rewrite Hc. unfold e1. fold d. rewrite !fexp_eq. lia. }
      * rewrite shr_fexp_noshift by lia. simpl shr_m.
        destruct M1 as [|m1|m1]; try lia.
        destruct (e1 <=? emax - prec) eqn:Hov; [|done].
        split; [|done]. simpl. unfold bounded. rewrite Hov, andb_true_r.
        unfold canonical_mantissa. apply Z.eqb_eq. exact Hf.
      * rewrite shr_fexp_one by lia.
        destruct (shr_1_spec (Build_shr_record M1 false false) ltac:(simpl; lia)) as [Hs _].
        rewrite Hs. simpl shr_m.
        assert (M1 / 2 = 2 ^ (j - 1)) as Hhalf.
        { rewrite HMj. replace j with (Z.succ (j - 1)) at 1 by lia.
          rewrite Z.pow_succ_r by lia. rewrite Z.mul_comm, Z.div_mul; lia. }
        rewrite Hhalf.
        assert (0 < 2 ^ (j - 1)) as Hpos by (apply Z.pow_pos_nonneg; lia).
        destruct (2 ^ (j - 1)) as [|m2|m2] eqn:Em2; try lia.
        destruct (e1 + 1 <=? emax - prec) eqn:Hov; [|done].
        split; [|done]. simpl. unfold bounded. rewrite Hov, andb_true_r.
        unfold canonical_mantissa. apply Z.eqb_eq.
        assert (Zdigits2 (Zpos m2) = j) as Hdm2.
        { apply Zdigits2_unique; [|done]. rewrite <- Em2. split; [lia|].
          apply Z.pow_lt_mono_r; lia. }
        simpl Zdigits2 in Hdm2. rewrite Hdm2.
        rewrite Hdj in Hf. by replace (j + (e1 + 1)) with (j + 1 + e1) by lia.
    + rewrite HM11. rewrite shr_fexp_noshift; cycle 1.
      { simpl Zdigits2. rewrite fexp_eq, He1. lia. }
      simpl shr_m.
      destruct (e1 <=? emax - prec) eqn:Hov; [|done].
      split; [|done]. simpl. unfold bounded. rewrite Hov, andb_true_r.
      unfold canonical_mantissa. apply Z.eqb_eq. simpl. rewrite fexp_eq, He1. lia.
Qed.

(** The quotient and exponent handed to the rounding by a division carry
    enough digits. *)
Lemma div_core_digits (m1 m2 : positive) (e1 e2 : Z) :
  0 < prec ->
  let '(q, e', _) := SFdiv_core_binary prec emax (Zpos m1) e1 (Zpos m2) e2 in
  0 <= q ∧ e' <= fexp (Zdigits2 q + e').
Proof.
  intros Hprec. unfold SFdiv_core_binary.
  pose proof (Zdigits2_bounds (Zpos m1) ltac:(lia)) as [Ha1 Ha2].
  pose proof (Zdigits2_bounds (Zpos m2) ltac:(lia)) as [Hb1 Hb2].
  set (d1 := Zdigits2 (Zpos m1)) in *. set (d2 := Zdigits2 (Zpos m2)) in *.
  assert (0 < d1) as Hd1 by (by apply Zdigits2_pos).
  assert (0 < d2) as Hd2 by (by apply Zdigits2_pos).
  set (c := d1 + e1 - (d2 + e2)).
  set (e' := Z.min (fexp c) (e1 - e2)).
  set (s := e1 - e2 - e').
  assert (0 <= s) as Hs by (unfold s, e'; lia).
  assert (e' = Z.min (Z.max (c - prec) emin) (e1 - e2)) as He' by done.
  assert (s = e1 - e2 - e') as Hse by done.
  assert (c = d1 + e1 - (d2 + e2)) as Hc by done.
  set (m' := match s with Zpos _ => Z.shiftl (Zpos m1) s | Z0 => Zpos m1 | Zneg _ => 0 end).
  assert (m' = Zpos m1 * 2 ^ s) as Hm'.
  { unfold m'. destruct s as [|p|p] eqn:Es; [lia| |lia].
    change IntDef.Z.shiftl with Z.shiftl. by rewrite Z.shiftl_mul_pow2 by lia. }
  clearbody m' s e' c.
  assert (0 < 2 ^ s) as Hps by (apply Z.pow_pos_nonneg; lia).
  change IntDef.Z.div_eucl with Z.div_eucl.
  pose proof (Z.div_eucl_eq m' (Zpos m2) ltac:(lia)) as Hdiv.
  pose proof (Z.mod_pos_bound m' (Zpos m2) ltac:(lia)) as Hmod.
  unfold Z.modulo in Hmod.
  destruct (Z.div_eucl m' (Zpos m2)) as [q r].
  assert (0 <= q) as Hq by nia.
  split; [done|].
  assert (2 ^ (d1 - 1) * 2 ^ s <= m' < 2 ^ d1 * 2 ^ s) as [Hl Hu] by nia.
  rewrite <- Z.pow_add_r in Hl, Hu by lia.
  destruct (Z.eq_dec q 0) as [->|Hq0].
  - simpl Zdigits2. rewrite Z.add_0_l.
    (* the quotient is zero only below the smallest exponent *)
    assert (d1 - 1 + s < d2) as Hlt.
    { destruct (Z_lt_le_dec (d1 - 1 + s) d2); [done|]. exfalso.
      assert (2 ^ d2 <= 2 ^ (d1 - 1 + s)) by (apply Z.pow_le_mono_r; lia). lia. }
    rewrite fexp_eq. lia.
  - assert (0 < q) as Hqpos by lia.
    pose proof (Zdigits2_bounds q Hqpos) as [Hq1 Hq2].
    set (dq := Zdigits2 q) in *.
    assert (0 < dq) as Hdq by (by apply Zdigits2_pos).
    assert (d1 + s - d2 <= dq) as Hlow.
    { destruct (Z_lt_le_dec dq (d1 + s - d2)) as [Hlt|]; [|done]. exfalso.
      assert (2 ^ dq * 2 ^ d2 <= 2 ^ (d1 - 1 + s)) as H1.
      { rewrite <- Z.pow_add_r by lia. apply Z.pow_le_mono_r; lia. }
      nia. }
    rewrite fexp_eq. lia.
Qed.

(** A division yields a value of the format. *)
Lemma div_valid x y :
  0 < prec -> valid_binary prec emax (SFdiv prec emax x y) = true.
Proof.
  intros Hprec.
  destruct x as [sx|sx| |sx mx ex], y as [sy|sy| |sy my ey]; try done.
  unfold SFdiv.
  pose proof (div_core_digits mx my ex ey Hprec) as H.
  destruct (SFdiv_core_binary prec emax (Zpos mx) ex (Zpos my) ey) as [[q e'] l].
  destruct H as [Hq He]. by apply round_aux_valid.
Qed.

End Valid.

Section Saturate.
Variables prec emax : Z.
Hypothesis Hprec : 16 < prec.
Hypothesis Hemax : 17 <= emax.
Variable Kp Op : positive.
Hypothesis HK : Zpos Kp = 65535 * 2 ^ (prec - 16).
Hypothesis HO : Zpos Op = 2 ^ (prec - 1).

(** A value of at least 1 scaled by 65535 is clipped to 65535. *)
Lemma mul65535_above (m : positive) (e : Z) :
  canonical_mantissa prec emax m e = true ->
  IEEE.leb (S754_finite false Op (1 - prec)) (S754_finite false m e) = true ->
  IEEE.clip (SFmul prec emax (S754_finite false m e) (S754_finite false Kp (16 - prec)))
    (S754_zero false) (S754_finite false Kp (16 - prec))
  = S754_finite false Kp (16 - prec).
Proof using All.
  intros Hcan Hle.
  destruct (canonical_digits prec emax m e Hcan) as [Hdm Hdm'].
  pose proof (digits_bounds m) as [Hm1 Hm2].
  set (dm := Zpos (digits2_pos m)) in *.
  assert (0 < 2 ^ (prec - 16)) as Hp16 by (apply Z.pow_pos_nonneg; lia).
  assert (0 < 2 ^ (prec - 1)) as Hp1 by (apply Z.pow_pos_nonneg; lia).
  (* the value is at least 1 *)
  assert (1 - prec <= e ∧ 2 ^ (prec - 1) <= Zpos m) as [He Hm].
  { unfold IEEE.leb, SFleb, SFcompare in Hle.
    destruct (Z.compare_spec (1 - prec) e) as [Heq|Hlt|Hgt].
    - split; [lia|]. rewrite <- HO.
      destruct (Pos.compare_cont Eq Op m) eqn:Ec; try done.
      + apply Pos.compare_eq in Ec. subst. lia.
      + assert (Zpos Op < Zpos m) by (apply Pos2Z.pos_lt_pos; exact Ec). lia.
    - split; [lia|].
      assert (dm = prec) as <- by (apply Hdm'; unfold SpecFloat.emin; lia). done.
    - done. }
  assert (Zpos m < 2 ^ prec) as Hmup.
  { assert (2 ^ dm <= 2 ^ prec) by (apply Z.pow_le_mono_r; lia). lia. }
  set (M := Zpos (m * Kp)).
  set (E := e + (16 - prec)).
  assert (M = Zpos m * Zpos Kp) as HM by (unfold M; lia).
  replace (prec - 1) with (15 + (prec - 16)) in Hm, Hp1 by lia.
  rewrite Z.pow_add_r in Hm, Hp1 by lia. change (2 ^ 15) with 32768 in Hm, Hp1.
  assert (2 ^ (prec - 1) * 2 ^ (prec - 1) <= M) as HMlow.
  { replace (prec - 1) with (15 + (prec - 16)) by lia.
    rewrite Z.pow_add_r by lia. change (2 ^ 15) with 32768. rewrite HM, HK. nia. }
  assert (0 < M) as HM0 by (unfold M; lia).
  pose proof (Zdigits2_bounds M HM0) as [Hd1 Hd2].
  set (d := Zdigits2 M) in *.
  assert (2 * prec - 1 <= d) as Hdlow.
  { destruct (Z_lt_le_dec d (2 * prec - 1)) as [Hlt|]; [|done]. exfalso.
    assert (2 ^ d <= 2 ^ ((prec - 1) + (prec - 1))) as H1 by (apply Z.pow_le_mono_r; lia).
    rewrite Z.pow_add_r in H1 by lia. lia. }
  assert (E <= fexp prec emax (d + E)) as HE by (unfold SpecFloat.fexp; lia).
  destruct (round_aux_spec prec emax false M E ltac:(lia) HM0 HE)
    as (M1 & Hb & Hx & Hr).
  fold d in Hb, Hx, Hr.
  assert (fexp prec emax (d + E) = d + E - prec) as He1.
  { unfold SpecFloat.fexp, SpecFloat.emin, E. lia. }
  rewrite He1 in Hb, Hx, Hr.
  replace (d + E - prec - E) with (d - prec) in Hb, Hx by lia.
  set (q := M / 2 ^ (d - prec)) in *.
  assert (0 < 2 ^ (d - prec)) as Hpn by (apply Z.pow_pos_nonneg; lia).
  assert (2 ^ (prec - 1) <= q) as Hq.
  { unfold q. apply Z.div_le_lower_bound; [lia|].
    rewrite <- Z.pow_add_r by lia. replace (d - prec + (prec - 1)) with (d - 1) by lia.
    done. }
  unfold SFmul. simpl xorb. fold M E.
  destruct (binary_round_aux prec emax false M E loc_Exact) as [s'|s'| |s' m2 e2].
  - destruct Hr as [_ Hr]. lia.
  - by destruct Hr as [-> _].
  - done.
  - destruct Hr as (-> & He2 & Hmant & Hc2 & _).
    unfold IEEE.clip, IEEE.fmax. simpl IEEE.is_nan.
    change (IEEE.ltb (S754_zero false) (S754_finite false m2 e2)) with true.
    cbv iota. unfold IEEE.fmin. simpl IEEE.is_nan. cbv iota.
    unfold IEEE.ltb, SFltb, SFcompare.
    destruct (Z.compare_spec e2 (16 - prec)) as [Heq|Hlt|Hgt]; [|unfold E in *; lia|done].
    destruct (Pos.compare_cont Eq m2 Kp) eqn:Ec; [done| |done].
    exfalso.
    assert (Zpos m2 < Zpos Kp) as Hlt by (apply Pos2Z.pos_lt_pos; exact Ec).
    assert (d = 2 * prec - 1 ∧ e = 1 - prec) as [Hd He'] by (unfold E in *; lia).
    replace (e2 - (d + E - prec)) with 0 in Hmant by (unfold E; lia).
    assert (Zpos Kp <= q); [|lia].
    unfold q. apply Z.div_le_lower_bound; [lia|].
    replace (d - prec) with (prec - 1) by lia.
    replace (prec - 1) with (15 + (prec - 16)) by lia.
    rewrite Z.pow_add_r by lia. change (2 ^ 15) with 32768. rewrite HM. nia.
Qed.

(** A negative value scaled by 65535 is clipped to 0. *)
Lemma mul65535_below (m : positive) (e : Z) :
  IEEE.clip (SFmul prec emax (S754_finite true m e) (S754_finite false Kp (16 - prec)))
    (S754_zero false) (S754_finite false Kp (16 - prec))
  = S754_zero false.
Proof using All.
  assert (0 < 2 ^ (prec - 16)) as Hp16 by (apply Z.pow_pos_nonneg; lia).
  set (M := Zpos (m * Kp)).
  set (E := e + (16 - prec)).
  assert (2 ^ (prec - 1) <= M) as HMlow.
  { replace (prec - 1) with (15 + (prec - 16)) by lia.
    rewrite Z.pow_add_r by lia. change (2 ^ 15) with 32768.
    unfold M. rewrite Pos2Z.inj_mul, HK. nia. }
  assert (0 < M) as HM0 by (unfold M; lia).
  pose proof (Zdigits2_bounds M HM0) as [Hd1 Hd2].
  set (d := Zdigits2 M) in *.
  assert (prec <= d) as Hdlow.
  { destruct (Z_lt_le_dec d prec) as [Hlt|]; [|done]. exfalso.
    assert (2 ^ d <= 2 ^ (prec - 1)) as H1 by (apply Z.pow_le_mono_r; lia). lia. }
  assert (E <= fexp prec emax (d + E)) as HE by (unfold SpecFloat.fexp; lia).
  destruct (round_aux_spec prec emax true M E ltac:(lia) HM0 HE)
    as (M1 & _ & _ & Hr).
  unfold SFmul. simpl xorb. fold M E.
  destruct (binary_round_aux prec emax true M E loc_Exact) as [s'|s'| |s' m2 e2].
  - by destruct Hr as [-> _].
  - by destruct Hr as [-> _].
  - done.
  - by destruct Hr as (-> & _).
Qed.

End Saturate.

Local Close Scope Z_scope.

(** Scaling one value outside [0, 1] to sixteen bits. *)
Lemma rescale_item_outside f v :
  valid f v = true ->
  (IEEE.leb (IEEE.of_Z (fmt f) 1) v = true -> rescale_item f v = 65535%Z)
  ∧ (IEEE.leb v (IEEE.of_Z (fmt f) 0) = true -> rescale_item f v = 0%Z).
Proof.
  intros Hv.
  destruct v as [s|s| |s m e].
  - by destruct f, s.
  - by destruct f, s.
  - by destruct f.
  - unfold valid in Hv. simpl in Hv.
    assert (IEEE.round (fmt f) (S754_finite s m e) = S754_finite s m e) as Hr.
    { apply round_canonical. done. }
    pose proof Hv as Hb. unfold bounded in Hb. apply andb_prop in Hb as [Hcan _].
    unfold rescale_item. rewrite Hr.
    destruct s.
    + split; [by destruct f|]. intros _. destruct f.
      * change (IEEE.of_Z (fmt float32) 65535) with (S754_finite false 16776960 (16 - 24)).
        change (IEEE.of_Z (fmt float32) 0) with (S754_zero false).
        change (IEEE.mul (fmt float32)) with (SFmul 24 128).
        by rewrite (mul65535_below 24 128 ltac:(lia) ltac:(lia) 16776960 8388608
                      ltac:(done) ltac:(done)).
      * change (IEEE.of_Z (fmt float64) 65535)
          with (S754_finite false 9007061815787520 (16 - 53)).
        change (IEEE.of_Z (fmt float64) 0) with (S754_zero false).
        change (IEEE.mul (fmt float64)) with (SFmul 53 1024).
        by rewrite (mul65535_below 53 1024 ltac:(lia) ltac:(lia) 9007061815787520
                      4503599627370496 ltac:(done) ltac:(done)).
    + split; [|by destruct f]. intros H1. destruct f.
      * change (IEEE.of_Z (fmt float32) 65535) with (S754_finite false 16776960 (16 - 24)).
        change (IEEE.of_Z (fmt float32) 0) with (S754_zero false).
        change (IEEE.mul (fmt float32)) with (SFmul 24 128).
        by rewrite (mul65535_above 24 128 ltac:(lia) ltac:(lia) 16776960 8388608
                      ltac:(done) ltac:(done) m e Hcan H1).
      * change (IEEE.of_Z (fmt float64) 65535)
          with (S754_finite false 9007061815787520 (16 - 53)).
        change (IEEE.of_Z (fmt float64) 0) with (S754_zero false).
        change (IEEE.mul (fmt float64)) with (SFmul 53 1024).
        by rewrite (mul65535_above 53 1024 ltac:(lia) ltac:(lia) 9007061815787520
                      4503599627370496 ltac:(done) ltac:(done) m e Hcan H1).
Qed.

End RoundFacts.

(** ** Reductions along the leading axis *)

Module NpFacts.
Import Np.

Section Reduce.
Context {A : Type} (op : A -> A -> A) (d : A).

Lemma map_nth_seq (l : list A) :
  map (fun j => nth j l d) (seq 0 (length l)) = l.
Proof.
  apply list_eq. intros i. rewrite list_lookup_fmap.
  destruct (decide (i < length l)) as [Hi|Hi].
  - rewrite lookup_seq_lt by done. simpl.
    destruct (nth_lookup_or_length l i d) as [->|]; [done|lia].
  - rewrite lookup_seq_ge by lia. simpl. symmetry. apply lookup_ge_None. lia.
Qed.

Lemma nth_zip_with (l k : list A) j :
  j < length l -> j < length k ->
  nth j (zip_with op l k) d = op (nth j l d) (nth j k d).
Proof.
  intros Hl Hk. rewrite !nth_lookup, lookup_zip_with.
  destruct (lookup_lt_is_Some_2 l j Hl) as [x ->].
  by destruct (lookup_lt_is_Some_2 k j Hk) as [y ->].
Qed.

Lemma column_S k n (l : list A) j :
  column d k (S n) l j = nth j l d :: column d k n (drop k l) j.
Proof.
  unfold column. simpl. f_equal.
  rewrite <- seq_shift, map_map. apply map_ext. intros t.
  rewrite nth_skipn. f_equal. lia.
Qed.

(** Folding the sub-arrays into an accumulator, seen item by item. *)
Lemma foldl_blocks k n : ∀ (acc l : list A),
  length acc = k -> length l = n * k ->
  foldl (zip_with op) acc (blocks k n l)
  = map (fun j => foldl op (nth j acc d) (column d k n l j)) (seq 0 k).
Proof.
  induction n as [|n IH]; intros acc l Hacc Hl.
  - simpl. subst k. symmetry. apply map_nth_seq.
  - cbn [blocks foldl]. rewrite IH; cycle 1.
    { rewrite length_zip_with, length_take. lia. }
    { rewrite length_drop. lia. }
    apply map_ext_in. intros j Hj%in_seq. cbv beta.
    rewrite column_S. simpl. f_equal.
    rewrite nth_zip_with, nth_firstn.
    + by replace (j <? k) with true by (symmetry; apply Nat.ltb_lt; lia).
    + lia.
    + rewrite length_take. lia.
Qed.

(** A reduction along a non-empty leading axis combines, for every output
    item, the items at that position of the sub-arrays, first to last. *)
Lemma reduce0_items k n (l dflt : list A) :
  0 < n -> length l = n * k ->
  reduce0 op dflt (blocks k n l)
  = map (fun j => fold1 op d (column d k n l j)) (seq 0 k).
Proof.
  intros Hn Hl. destruct n as [|n]; [lia|].
  cbn [blocks]. unfold reduce0. rewrite foldl_blocks; cycle 1.
  { rewrite length_take. lia. }
  { rewrite length_drop. lia. }
  apply map_ext_in. intros j Hj%in_seq. cbv beta.
  rewrite column_S. simpl. f_equal.
  rewrite nth_firstn.
  by replace (j <? k) with true by (symmetry; apply Nat.ltb_lt; lia).
Qed.

End Reduce.

Lemma length_to_floats f b : length (to_floats f b) = buf_len b.
Proof. destruct b; simpl; by rewrite length_map. Qed.

Lemma mean0_projection a n rest :
  shape a = n :: rest -> 0 < n -> size_of (shape a) = buf_len (items a) ->
  mean0 a = Some (mean_projection a).
Proof.
  intros Hs Hn Hwf. unfold mean0, mean_projection, mean_items. rewrite Hs.
  simpl tail. simpl hd. do 3 f_equal.
  rewrite (reduce0_items _ IEEE.zero); [by rewrite map_map|done|].
  rewrite length_to_floats, <- Hwf, Hs. done.
Qed.

Lemma max0_projection a n rest :
  shape a = n :: rest -> 0 < n -> size_of (shape a) = buf_len (items a) ->
  max0 a = Some (max_projection a).
Proof.
  intros Hs Hn Hwf. unfold max0, max_projection. rewrite Hs in *.
  destruct n as [|n]; [lia|]. simpl tail. simpl hd. do 2 f_equal.
  destruct (items a) as [d l|d l]; simpl in Hwf; f_equal.
  - by apply (reduce0_items _ 0%Z).
  - by apply (reduce0_items _ S754_nan).
Qed.

Lemma buf_slice_slice o1 l1 o2 l2 b :
  o2 + l2 ≤ l1 ->
  buf_slice o2 l2 (buf_slice o1 l1 b) = buf_slice (o1 + o2) l2 b.
Proof.
  intros H.
  assert (∀ (A : Type) (l : list A),
            take l2 (drop o2 (take l1 (drop o1 l))) = take l2 (drop (o1 + o2) l)) as E.
  { intros A l. rewrite skipn_firstn_comm, take_take, drop_drop.
    f_equal. lia. }
  destruct b; simpl; by rewrite E.
Qed.

(** *** The max projection as a maximum *)

Lemma foldl_max_spec xs : ∀ x : Z,
  Forall (fun y => (y <= foldl Z.max x xs)%Z) (x :: xs)
  ∧ In (foldl Z.max x xs) (x :: xs).
Proof.
  induction xs as [|y xs IH]; intros x; simpl.
  - split; [by constructor|by left].
  - destruct (IH (Z.max x y)) as [Hall Hin].
    apply Forall_cons in Hall as [Hm Hall].
    split.
    + constructor; [lia|]. constructor; [lia|done].
    + destruct Hin as [Hin|Hin]; [|by right; right].
      rewrite <- Hin.
      destruct (Z.max_spec x y) as [[_ E]|[_ E]]; rewrite E; [right; by left|by left].
Qed.

(** X11.  For an integer stack of [n > 0] frames, every pixel of the max
    projection is at least the value of that pixel in every frame and is
    the value of that pixel in one of the frames. *)
Theorem max_projection_is_maximum a n rest d l j :
  shape a = n :: rest -> items a = IBuf d l -> 0 < n -> j < size_of rest ->
  ∃ ms,
    items (max_projection a) = IBuf d ms
    ∧ length ms = size_of rest
    ∧ (∀ t, t < n -> (nth (t * size_of rest + j) l 0 <= nth j ms 0)%Z)
    ∧ (∃ t, t < n ∧ nth j ms 0%Z = nth (t * size_of rest + j) l 0%Z).
Proof.
  intros Hs Hi Hn Hj. unfold max_projection. rewrite Hs, Hi. simpl hd. simpl tail.
  set (k := size_of rest) in *.
  eexists. split; [reflexivity|]. split; [by rewrite length_map, length_seq|].
  rewrite (nth_indep _ 0%Z (fold1 Z.max 0%Z (column 0%Z k n l 0)))
    by (by rewrite length_map, length_seq).
  rewrite (map_nth (fun j => fold1 Z.max 0%Z (column 0%Z k n l j))), seq_nth by done.
  simpl. unfold column. destruct n as [|n]; [lia|].
  change (seq 0 (S n)) with (0 :: seq 1 n). cbn [map fold1].
  set (f := fun t => nth (t * k + j) l 0%Z).
  destruct (foldl_max_spec (map f (seq 1 n)) (f 0)) as [Hall Hin].
  split.
  - intros t Ht. rewrite List.Forall_forall in Hall. apply (Hall (f t)).
    destruct t as [|t]; [by left|]. right. apply in_map, in_seq. lia.
  - destruct Hin as [Hin|Hin].
    + exists 0. split; [lia|]. exact (eq_sym Hin).
    + apply in_map_iff in Hin as (t & Ht & Hin). apply in_seq in Hin.
      exists t. split; [lia|]. exact (eq_sym Ht).
Qed.

(** Pixel 1 of the stack of the examples: the maximum 17 is at least the
    value 13 of frame 3. *)
Lemma max_projection_is_maximum_witness :
  let l := [0; 1; 2; 3; 4; 5; 6; 7; 8; 9; 10; 11; 12; 13; 14; 15; 16; 17; 18; 19]%Z in
  let a := NdArray [5; 2; 2] (IBuf uint8 l) in
  let k := size_of [2; 2] in
  shape a = [5; 2; 2] ∧ items a = IBuf uint8 l ∧ 0 < 5 ∧ 1 < k
  ∧ ∃ ms, items (max_projection a) = IBuf uint8 ms
          ∧ (nth (3 * k + 1) l 0 <= nth 1 ms 0)%Z.
Proof.
  intros l a k.
  split; [reflexivity|]. split; [reflexivity|]. split; [lia|].
  split; [unfold k; simpl; lia|].
  destruct (max_projection_is_maximum a 5 [2; 2] uint8 l 1)
    as (ms & Hi & _ & Hle & _); [reflexivity|reflexivity|lia|simpl; lia|].
  exists ms. split; [exact Hi|]. apply Hle. lia.
Defined.

(** *** The floating-point maximum *)

Lemma foldl_fmaximum_nan xs : ∀ x,
  IEEE.is_nan x = true -> IEEE.is_nan (foldl fmaximum x xs) = true.
Proof.
  induction xs as [|y xs IH]; intros x H; simpl; [done|].
  apply IH. unfold fmaximum. by rewrite H.
Qed.

Lemma foldl_fmaximum_spec xs : ∀ x,
  IEEE.is_nan x = false ->
  float_maximum (x :: xs) (foldl fmaximum x xs).
Proof.
  unfold float_maximum.
  induction xs as [|y xs IH]; intros x Hx.
  - simpl. rewrite Hx. simpl. split; [by left|].
    constructor; [by apply IEEEFacts.leb_refl|constructor].
  - cbn [foldl]. specialize (IH (fmaximum x y)).
    cbn [existsb] in *. rewrite Hx in *. cbn [orb] in *.
    destruct (IEEE.is_nan y) eqn:Hy.
    + cbn [orb]. apply foldl_fmaximum_nan. unfold fmaximum. by rewrite Hx, Hy.
    + cbn [orb].
      assert (IEEE.is_nan (fmaximum x y) = false) as Hm.
      { unfold fmaximum. rewrite Hx, Hy. by destruct (IEEE.ltb x y). }
      specialize (IH Hm). rewrite Hm in IH. cbn [orb] in IH.
      destruct (existsb IEEE.is_nan xs) eqn:Hn; [done|].
      destruct IH as [Hin Hall]. set (r := foldl fmaximum (fmaximum x y) xs) in *.
      apply Forall_cons in Hall as [Hr Hall].
      assert (IEEE.is_nan r = false) as Hrn.
      { destruct (IEEE.is_nan r) eqn:E; [|done].
        destruct r; try done. by destruct (fmaximum x y). }
      unfold fmaximum in Hr, Hin. rewrite Hx, Hy in Hr, Hin.
      destruct (IEEE.ltb x y) eqn:Hlt.
      * split.
        { destruct Hin as [Hin|Hin]; [right; by left|by right; right]. }
        constructor; [|by constructor].
        apply (IEEEFacts.leb_trans x y r); try done. by apply IEEEFacts.ltb_leb.
      * split.
        { destruct Hin as [Hin|Hin]; [by left|by right; right]. }
        constructor; [done|]. constructor; [|done].
        apply (IEEEFacts.leb_trans y x r); try done. by apply IEEEFacts.ltb_false_leb.
Qed.

Lemma fold1_fmaximum_spec col :
  col ≠ [] -> float_maximum col (fold1 fmaximum S754_nan col).
Proof.
  destruct col as [|x xs]; [done|]. intros _. cbn [fold1].
  destruct (IEEE.is_nan x) eqn:Hx.
  - unfold float_maximum. cbn [existsb]. rewrite Hx. cbn [orb].
    by apply foldl_fmaximum_nan.
  - by apply foldl_fmaximum_spec.
Qed.

Lemma fold1_max_spec col :
  col ≠ [] -> int_maximum col (fold1 Z.max 0%Z col).
Proof.
  destruct col as [|x xs]; [done|]. intros _. cbn [fold1].
  destruct (foldl_max_spec xs x) as [Hall Hin]. by split.
Qed.

Lemma column_nonempty {A : Type} (d : A) k n l j : 0 < n -> column d k n l j ≠ [].
Proof. unfold column. destruct n; [lia|]. done. Qed.

(** Every pixel of the max projection is the maximum of the values the
    pixel takes over the frames. *)
Lemma max_projection_pixels a n rest j :
  shape a = n :: rest -> 0 < n -> j < size_of rest ->
  match items a, items (max_projection a) with
  | IBuf _ l, IBuf _ ms =>
      int_maximum (column 0%Z (size_of rest) n l j) (nth j ms 0%Z)
  | FBuf _ l, FBuf _ ms =>
      float_maximum (column S754_nan (size_of rest) n l j) (nth j ms S754_nan)
  | _, _ => False
  end.
Proof.
  intros Hs Hn Hj. unfold max_projection. rewrite Hs. simpl hd. simpl tail.
  set (k := size_of rest) in *.
  destruct (items a) as [d l|d l]; cbn [items].
  - rewrite (nth_indep _ 0%Z (fold1 Z.max 0%Z (column 0%Z k n l 0)))
      by (by rewrite length_map, length_seq).
    rewrite (map_nth (fun j => fold1 Z.max 0%Z (column 0%Z k n l j))), seq_nth by done.
    apply fold1_max_spec. by apply column_nonempty.
  - rewrite (nth_indep _ S754_nan (fold1 fmaximum S754_nan (column S754_nan k n l 0)))
      by (by rewrite length_map, length_seq).
    rewrite (map_nth (fun j => fold1 fmaximum S754_nan (column S754_nan k n l j))),
      seq_nth by done.
    apply fold1_fmaximum_spec. by apply column_nonempty.
Qed.

End NpFacts.

(** ** Strings *)

Module PyFacts.

Lemma prefix_app a : ∀ b, String.prefix a b = true <-> ∃ post, b = a +:+ post.
Proof.
  induction a as [|x a IH]; intros b.
  - split; [intros _; by exists b|intros _; by destruct b].
  - destruct b as [|y b]; simpl.
    + split; [done|intros [post H]; done].
    + destruct (Ascii.ascii_dec x y) as [->|Hne].
      * rewrite IH. split; intros [post H]; exists post; [by rewrite H|].
        by injection H.
      * split; [done|]. intros [post H]. injection H as -> _. done.
Qed.

Lemma contains_substring a : ∀ b, Py.contains a b = true <-> Py.substring a b.
Proof.
  unfold Py.substring.
  induction b as [|y b IH].
  - cbn [Py.contains]. rewrite orb_false_r, prefix_app. split.
    + intros [post H]. by exists "", post.
    + intros (pre & post & H). destruct pre; [by exists post|done].
  - cbn [Py.contains]. rewrite orb_true_iff, prefix_app, IH. split.
    + intros [[post H]|(pre & post & H)].
      * by exists "", post.
      * exists (String y pre), post. simpl. by rewrite H.
    + intros (pre & post & H). destruct pre as [|x pre].
      * left. by exists post.
      * right. injection H as -> H. by exists pre, post.
Qed.

Lemma length_zeros_then k s :
  String.length (Py.zeros_then k s) = k + String.length s.
Proof. induction k as [|k IH]; simpl; [done|]. by rewrite IH. Qed.

Lemma uint_of_zeros_then k s d :
  NilEmpty.uint_of_string s = Some d ->
  ∃ d', NilEmpty.uint_of_string (Py.zeros_then k s) = Some d'
        ∧ Nat.of_uint d' = Nat.of_uint d.
Proof.
  intros H. induction k as [|k (d' & Hd & He)]; simpl; [by exists d|].
  exists (Decimal.D0 d'). rewrite Hd. split; [done|]. by rewrite <- He.
Qed.

(** Numbers below 10000 have at most four digits. *)
Lemma str_nat_short n : n < 10000 -> String.length (Py.str_nat n) ≤ 4.
Proof.
  intros H.
  assert (forallb (fun n => String.length (Py.str_nat n) <=? 4) (seq 0 10000) = true)
    as Hall by (vm_compute; reflexivity).
  rewrite forallb_forall in Hall.
  apply Nat.leb_le, Hall, in_seq. lia.
Qed.

(** X19.  The frame number in the file name [frame_{mid_t:04d}.png] is
    written with at least four digits, with exactly four below 10000 and
    unpadded from 1000 on, and reading the digits back gives the frame
    number: two frames never share a name. *)
Theorem format_04d_decodes n :
  4 ≤ String.length (Py.format_04d n)
  ∧ (n < 10000 -> String.length (Py.format_04d n) = 4)
  ∧ (4 ≤ String.length (Py.str_nat n) -> Py.format_04d n = Py.str_nat n)
  ∧ ∃ d, NilEmpty.uint_of_string (Py.format_04d n) = Some d ∧ Nat.of_uint d = n.
Proof.
  unfold Py.format_04d. split; [rewrite length_zeros_then; lia|].
  split.
  { intros H. pose proof (str_nat_short n H). rewrite length_zeros_then. lia. }
  split.
  { intros H. by replace (4 - String.length (Py.str_nat n)) with 0 by lia. }
  destruct (uint_of_zeros_then (4 - String.length (Py.str_nat n)) (Py.str_nat n)
              (Nat.to_uint n)) as (d & Hd & He).
  { apply NilEmpty.usu. }
  exists d. split; [done|]. rewrite He. apply Unsigned.of_to.
Qed.

Lemma format_04d_decodes_witness :
  2 < 10000
  ∧ String.length (Py.format_04d 2) = 4
  ∧ ∃ d, NilEmpty.uint_of_string (Py.format_04d 2) = Some d ∧ Nat.of_uint d = 2.
Proof.
  assert (2 < 10000) as H by (apply Nat.ltb_lt; reflexivity).
  destruct (format_04d_decodes 2) as (_ & H4 & _ & Hd).
  split; [exact H|]. split; [exact (H4 H)|exact Hd].
Defined.

(** Joining a directory with two names gives two paths. *)
Lemma path_join_inj dir x y : Py.path_join dir x = Py.path_join dir y -> x = y.
Proof.
  unfold Py.path_join. induction dir as [|c dir IH]; simpl.
  - intros H. by injection H.
  - intros H. injection H as H. by apply IH.
Qed.

End PyFacts.

(** ** The monad and the store *)

Module RtFacts.
Import Np Rt NpFacts.

Lemma bind_ok {A B : Type} (m : M A) (f : A -> M B) (w w' : world) (a : A) :
  m w = (Ok a, w') -> (m ≫= f) w = f a w'.
Proof. intros H. unfold mbind, M_bind. by rewrite H. Qed.

Lemma bind_raise {A B : Type} (m : M A) (f : A -> M B) (w w' : world) (e : exn) :
  m w = (Raise e, w') -> (m ≫= f) w = (Raise e, w').
Proof. intros H. unfold mbind, M_bind. by rewrite H. Qed.

Lemma bind_ret {A B : Type} (a : A) (f : A -> M B) (w : world) :
  (mret a ≫= f) w = f a w.
Proof. reflexivity. Qed.

Lemma grow_nil w : grow w [] = w.
Proof. destruct w. unfold grow. simpl. by rewrite app_nil_r. Qed.

Lemma grow_grow w bs cs : grow (grow w bs) cs = grow w (bs ++ cs).
Proof. unfold grow. simpl. by rewrite app_assoc. Qed.

Lemma buf_len_slice off len b :
  off + len ≤ buf_len b -> buf_len (buf_slice off len b) = len.
Proof.
  destruct b as [d l | d l]; simpl; intros H;
    rewrite length_take, length_drop; lia.
Qed.

Lemma buf_slice_all b : buf_slice 0 (buf_len b) b = b.
Proof.
  destruct b as [d l | d l]; simpl; by rewrite drop_0, firstn_all.
Qed.

Lemma deref_wf h v a : deref h v = Some a -> wf a.
Proof.
  unfold deref, wf. intros H.
  destruct (h !! vbuf v) as [b|]; simpl in H; [|done].
  case_decide; [|done]. injection H as <-. simpl.
  by rewrite buf_len_slice.
Qed.

Lemma deref_shape h v a : deref h v = Some a -> shape a = vshape v.
Proof.
  unfold deref. intros H.
  destruct (h !! vbuf v) as [b|]; simpl in H; [|done].
  case_decide; [|done]. by injection H as <-.
Qed.

(** Appending buffers does not change what an existing view denotes. *)
Lemma deref_app h k v a : deref h v = Some a -> deref (h ++ k) v = Some a.
Proof.
  unfold deref. intros H.
  destruct (h !! vbuf v) as [b|] eqn:E; simpl in H; [|done].
  by rewrite (lookup_app_l_Some _ _ _ _ E).
Qed.

(** The view handed out by an allocation denotes the allocated array. *)
Lemma deref_new h k a :
  wf a -> deref (h ++ items a :: k) (View (length h) 0 (shape a)) = Some a.
Proof.
  unfold deref, wf. intros Hwf. simpl.
  rewrite lookup_app_r, Nat.sub_diag by lia. simpl.
  case_decide; [|lia]. rewrite Hwf, buf_slice_all. by destruct a.
Qed.

Lemma load_ok w v a : deref (heap w) v = Some a -> load v w = (Ok a, w).
Proof. unfold load. by intros ->. Qed.

Lemma alloc_ok w a :
  alloc a w = (Ok (View (length (heap w)) 0 (shape a)), grow w [items a]).
Proof. reflexivity. Qed.

(** Every array operation of the scripts has this form: read one array,
    allocate the result. *)
Lemma load_alloc_ok (f : ndarray -> ndarray) w v a :
  deref (heap w) v = Some a ->
  (load v ≫= fun x => alloc (f x)) w
  = (Ok (View (length (heap w)) 0 (shape (f a))), grow w [items (f a)]).
Proof. intros H. by rewrite (bind_ok _ _ _ _ _ (load_ok _ _ _ H)). Qed.

Lemma wf_astype t a : wf a -> wf (astype t a).
Proof.
  unfold wf, astype. simpl. intros ->.
  destruct t; simpl; [destruct (items a); simpl|];
    by rewrite ?length_map, ?length_to_floats.
Qed.

Lemma wf_zeros_like t a : wf a -> wf (zeros_like t a).
Proof.
  unfold wf, zeros_like. simpl. intros ->.
  destruct t; simpl; by rewrite length_replicate.
Qed.

Lemma wf_map_scalar op a s : wf a -> wf (map_scalar op a s).
Proof.
  unfold wf, map_scalar. simpl. intros ->.
  by rewrite length_map, length_to_floats.
Qed.

Lemma wf_mul_pyfloat a c : wf a -> wf (mul_pyfloat a c).
Proof.
  unfold wf, mul_pyfloat. simpl. intros ->.
  by rewrite length_map, length_to_floats.
Qed.

Lemma wf_clip lo hi a : wf a -> wf (clip lo hi a).
Proof.
  unfold wf, clip. simpl. intros ->.
  destruct (items a); simpl; by rewrite length_map.
Qed.

(** One array operation: the result is a new array. *)
Lemma yields_op (f : ndarray -> ndarray) w v a :
  deref (heap w) v = Some a -> wf (f a) ->
  yields (load v ≫= fun x => alloc (f x)) w [items (f a)]
    (View (length (heap w)) 0 (shape (f a))) (f a).
Proof.
  intros H Hwf. split; [by apply load_alloc_ok|]. split; [|done].
  by apply deref_new.
Qed.

(** Sequencing: the second computation runs in the grown store and sees
    the result of the first. *)
Lemma yields_bind (m : M view) (f : view -> M view) w bs cs v a v' a' :
  yields m w bs v a ->
  (deref (heap (grow w bs)) v = Some a -> yields (f v) (grow w bs) cs v' a') ->
  yields (m ≫= f) w (bs ++ cs) v' a'.
Proof.
  intros (Hm & Hd0 & _) Hk. destruct (Hk Hd0) as (Hf & Hd & Hl). split; [|split].
  - rewrite (bind_ok _ _ _ _ _ Hm), Hf. by rewrite grow_grow.
  - simpl in Hd. by rewrite app_assoc.
  - simpl in Hl. rewrite length_app in Hl. lia.
Qed.

Lemma yields_then {B : Type} (m : M view) (f : view -> M B) w bs v a :
  yields m w bs v a -> (m ≫= f) w = f v (grow w bs).
Proof. intros (Hm & _ & _). by rewrite (bind_ok _ _ _ _ _ Hm). Qed.

Lemma tiff_imwrite_ok path v w b :
  deref (heap w) v = Some b ->
  tiff_imwrite path v w
  = (Ok tt, World (heap w) (<[path := Tiff b ∅ None]> (files w))
              (trace w ++ [Imwrite path v])).
Proof.
  intros H. unfold tiff_imwrite.
  by rewrite (bind_ok _ _ _ _ _ (load_ok _ _ _ H)).
Qed.

Lemma advances_refl w : advances w w [].
Proof. split; [done|by rewrite app_nil_r]. Qed.

Lemma advances_trans w w1 w2 e1 e2 :
  advances w w1 e1 -> advances w1 w2 e2 -> advances w w2 (e1 ++ e2).
Proof.
  intros [H1 T1] [H2 T2]. split; [by etrans|].
  by rewrite T2, T1, app_assoc.
Qed.

Lemma advances_grow w bs : advances w (grow w bs) [].
Proof. split; [by apply prefix_app_r|simpl; by rewrite app_nil_r]. Qed.

Lemma prefix_deref h h' v a :
  h `prefix_of` h' -> deref h v = Some a -> deref h' v = Some a.
Proof. intros [k ->]. apply deref_app. Qed.

Lemma advances_deref w w' evs v a :
  advances w w' evs -> deref (heap w) v = Some a -> deref (heap w') v = Some a.
Proof. intros [H _]. by apply prefix_deref. Qed.

Lemma prefix_length_le {A : Type} (l k : list A) : l `prefix_of` k -> length l ≤ length k.
Proof. intros [x ->]. rewrite length_app. lia. Qed.

Lemma emit_ok e w :
  emit e w = (Ok tt, World (heap w) (files w) (trace w ++ [e])).
Proof. reflexivity. Qed.

(** Indexing the leading axis gives a view into the same buffer, and the
    view denotes the indexed sub-array. *)
Lemma deref_index0 h v a n rest t :
  deref h v = Some a -> shape a = n :: rest -> t < n ->
  deref h (View (vbuf v) (voff v + t * size_of rest) rest) = Some (frame_of a t).
Proof.
  unfold deref. simpl. intros H Hs Ht.
  destruct (h !! vbuf v) as [b|]; simpl in *; [|done].
  case_decide as Hle; [|done]. injection H as <-. simpl in Hs.
  rewrite Hs in *. simpl in Hle.
  assert (t * size_of rest + size_of rest ≤ n * size_of rest) by nia.
  rewrite decide_True by lia.
  unfold frame_of. simpl.
  by rewrite buf_slice_slice.
Qed.

Lemma np_index0_ok w v a n rest t :
  deref (heap w) v = Some a -> shape a = n :: rest -> t < n ->
  np_index0 v (Z.of_nat t) w
  = (Ok (View (vbuf v) (voff v + t * size_of rest) rest), w).
Proof.
  intros H Hs Ht. rewrite (deref_shape _ _ _ H) in Hs.
  unfold np_index0. rewrite Hs.
  assert (Py.norm_index n (Z.of_nat t) = Some t) as E.
  { unfold Py.norm_index.
    replace (0 <=? Z.of_nat t)%Z with true by (symmetry; apply Z.leb_le; lia).
    replace (Z.of_nat t <? Z.of_nat n)%Z with true by (symmetry; apply Z.ltb_lt; lia).
    by rewrite Nat2Z.id. }
  by rewrite (bind_ok _ _ w w t) by by rewrite E.
Qed.

Lemma np_shape0_ok w v a n rest :
  deref (heap w) v = Some a -> shape a = n :: rest -> np_shape0 v w = (Ok n, w).
Proof.
  intros H Hs. rewrite (deref_shape _ _ _ H) in Hs.
  unfold np_shape0. by rewrite Hs.
Qed.

Lemma wf_mean_projection a : wf (mean_projection a).
Proof.
  unfold wf, mean_projection, mean_items. simpl.
  by rewrite length_map, length_seq.
Qed.

Lemma wf_max_projection a : wf (max_projection a).
Proof.
  unfold wf, max_projection. simpl.
  destruct (items a); simpl; by rewrite length_map, length_seq.
Qed.

Lemma np_mean0_yields w v a n rest :
  deref (heap w) v = Some a -> shape a = n :: rest -> 0 < n ->
  yields (np_mean0 v) w [items (mean_projection a)]
    (View (length (heap w)) 0 rest) (mean_projection a).
Proof.
  intros H Hs Hn. pose proof (deref_wf _ _ _ H) as Hwf.
  pose proof (wf_mean_projection a) as Hwf'.
  assert (shape (mean_projection a) = rest) as Hr.
  { unfold mean_projection. simpl. by rewrite Hs. }
  unfold yields, np_mean0.
  rewrite (bind_ok _ _ _ _ _ (load_ok _ _ _ H)).
  rewrite (mean0_projection a n rest Hs Hn Hwf). simpl of_option.
  rewrite (bind_ok _ _ w w (mean_projection a)) by done.
  rewrite alloc_ok, Hr. split; [done|]. split; [|done].
  rewrite <- Hr. by apply deref_new.
Qed.

Lemma np_max0_yields w v a n rest :
  deref (heap w) v = Some a -> shape a = n :: rest -> 0 < n ->
  yields (np_max0 v) w [items (max_projection a)]
    (View (length (heap w)) 0 rest) (max_projection a).
Proof.
  intros H Hs Hn. pose proof (deref_wf _ _ _ H) as Hwf.
  pose proof (wf_max_projection a) as Hwf'.
  assert (shape (max_projection a) = rest) as Hr.
  { unfold max_projection. simpl. by rewrite Hs. }
  unfold yields, np_max0.
  rewrite (bind_ok _ _ _ _ _ (load_ok _ _ _ H)).
  rewrite (max0_projection a n rest Hs Hn Hwf). simpl of_option.
  rewrite (bind_ok _ _ w w (max_projection a)) by done.
  rewrite alloc_ok, Hr. split; [done|]. split; [|done].
  rewrite <- Hr. by apply deref_new.
Qed.

Lemma yields_advances (m : M view) w bs v a :
  yields m w bs v a ->
  m w = (Ok v, grow w bs) ∧ advances w (grow w bs) []
  ∧ files (grow w bs) = files w
  ∧ deref (heap (grow w bs)) v = Some a ∧ length (heap w) ≤ vbuf v.
Proof.
  intros (Hm & Hd & Hl). repeat split; try done.
  - by apply prefix_app_r.
  - simpl. by rewrite app_nil_r.
Qed.

(** *** Computations that only extend the store *)

Lemma grows_ret {A : Type} (a : A) : grows (mret a).
Proof. intros w. by split. Qed.

Lemma grows_raise {A : Type} (e : exn) : grows (raise (A := A) e).
Proof. intros w. by split. Qed.

Lemma grows_bind {A B : Type} (m : M A) (f : A -> M B) :
  grows m -> (∀ a, grows (f a)) -> grows (m ≫= f).
Proof.
  intros Hm Hf w. unfold mbind, M_bind. specialize (Hm w).
  destruct (m w) as [[a|e] w1]; simpl in *; [|done].
  destruct Hm as [Hh Ht]. destruct (Hf a w1) as [Hh' Ht'].
  split; by etrans.
Qed.

Lemma grows_of_option {A : Type} (e : exn) (o : option A) : grows (of_option e o).
Proof. destruct o; [apply grows_ret|apply grows_raise]. Qed.

Lemma grows_emit e : grows (emit e).
Proof. intros w. split; [done|]. by apply prefix_app_r. Qed.

Lemma grows_load v : grows (load v).
Proof. intros w. unfold load. apply grows_of_option. Qed.

Lemma grows_alloc a : grows (alloc a).
Proof. intros w. split; [|done]. simpl. by apply prefix_app_r. Qed.

Lemma grows_write_file path f : grows (write_file path f).
Proof. intros w. by split. Qed.

Lemma grows_np_shape0 v : grows (np_shape0 v).
Proof. apply grows_of_option. Qed.

Lemma grows_np_index0 v i : grows (np_index0 v i).
Proof.
  unfold np_index0. destruct (vshape v); [apply grows_raise|].
  apply grows_bind; [apply grows_of_option|intros; apply grows_ret].
Qed.

Lemma grows_np_index0_full2 v i : grows (np_index0_full2 v i).
Proof.
  unfold np_index0_full2.
  destruct (vshape v) as [|? [|? [|? ?]]];
    first [apply grows_raise|apply grows_np_index0].
Qed.

Lemma grows_load_alloc (f : ndarray -> ndarray) v :
  grows (load v ≫= fun x => alloc (f x)).
Proof. apply grows_bind; [apply grows_load|intros; apply grows_alloc]. Qed.

(** [np.clip] without [out=] only allocates. *)
Lemma grows_np_clip v lo hi : grows (np_clip v lo hi None).
Proof. apply (grows_load_alloc (clip lo hi)). Qed.

Lemma grows_np_mean0 v : grows (np_mean0 v).
Proof.
  unfold np_mean0. apply grows_bind; [apply grows_load|intros].
  apply grows_bind; [apply grows_of_option|intros; apply grows_alloc].
Qed.

Lemma grows_np_max0 v : grows (np_max0 v).
Proof.
  unfold np_max0. apply grows_bind; [apply grows_load|intros].
  apply grows_bind; [apply grows_of_option|intros; apply grows_alloc].
Qed.

Lemma grows_tiff_imwrite path v : grows (tiff_imwrite path v).
Proof.
  unfold tiff_imwrite. apply grows_bind; [apply grows_load|intros].
  apply grows_bind; [apply grows_emit|intros; apply grows_write_file].
Qed.

(** With [out=] the same call overwrites a buffer of the store: the
    property is one of the calls the scripts make, not of the model. *)
Lemma np_clip_out_overwrites :
  ¬ grows (np_clip (View 0 0 [1]) 0 1 (Some (View 0 0 [1]))).
Proof.
  intros H. destruct (H (World [IBuf uint8 [7%Z]] ∅ [])) as [[k Hk] _].
  vm_compute in Hk. discriminate Hk.
Qed.

Lemma yields_ext (m m' : M view) w bs v a :
  m w = m' w -> yields m' w bs v a -> yields m w bs v a.
Proof. unfold yields. by intros ->. Qed.

(** *** Computations that leave the disk alone *)

Lemma keeps_files_ret {A : Type} (a : A) : keeps_files (mret a).
Proof. intros w. split; [done|]. exists []. by rewrite app_nil_r. Qed.

Lemma keeps_files_raise {A : Type} (e : exn) : keeps_files (raise (A := A) e).
Proof. intros w. split; [done|]. exists []. by rewrite app_nil_r. Qed.

Lemma keeps_files_bind {A B : Type} (m : M A) (f : A -> M B) :
  keeps_files m -> (∀ a, keeps_files (f a)) -> keeps_files (m ≫= f).
Proof.
  intros Hm Hf w. unfold mbind, M_bind. specialize (Hm w).
  destruct (m w) as [[a|e] w1]; simpl in *; [|done].
  destruct Hm as (F1 & evs1 & T1 & E1).
  destruct (Hf a w1) as (F2 & evs2 & T2 & E2).
  split; [by rewrite F2|].
  exists (evs1 ++ evs2). split; [by rewrite T2, T1, app_assoc|].
  by apply Forall_app.
Qed.

Lemma keeps_files_of_option {A : Type} (e : exn) (o : option A) :
  keeps_files (of_option e o).
Proof. destruct o; [apply keeps_files_ret|apply keeps_files_raise]. Qed.

Lemma keeps_files_emit e : disk_event e = false -> keeps_files (emit e).
Proof. intros He w. split; [done|]. exists [e]. split; [done|]. by constructor. Qed.

Lemma keeps_files_load v : keeps_files (load v).
Proof. intros w. unfold load. apply keeps_files_of_option. Qed.

Lemma keeps_files_alloc a : keeps_files (alloc a).
Proof. intros w. split; [done|]. exists []. simpl. by rewrite app_nil_r. Qed.

Lemma keeps_files_tiff_open path : keeps_files (tiff_open path).
Proof. intros w. unfold tiff_open. apply keeps_files_of_option. Qed.

Lemma keeps_files_load_alloc (f : ndarray -> ndarray) v :
  keeps_files (load v ≫= fun x => alloc (f x)).
Proof.
  apply keeps_files_bind; [apply keeps_files_load|intros; apply keeps_files_alloc].
Qed.

Lemma keeps_files_np_index0 v i : keeps_files (np_index0 v i).
Proof.
  unfold np_index0. destruct (vshape v); [apply keeps_files_raise|].
  apply keeps_files_bind; [apply keeps_files_of_option|intros; apply keeps_files_ret].
Qed.

Lemma grows_tiff_open path : grows (tiff_open path).
Proof. intros w. unfold tiff_open. apply grows_of_option. Qed.

End RtFacts.

(** ** The contrast normalizer *)

Module ReaderFacts.
Import Np Rt RtFacts Reader.

Section WithPercentile.

Variable percentile : ndarray -> Z -> npfloat.

Lemma wf_stretch a low high : wf a -> wf (stretch percentile a low high).
Proof.
  intros H. unfold stretch. apply wf_clip.
  destruct (npfloat_eqb _ _).
  - by apply wf_zeros_like.
  - unfold div_scalar, sub_scalar. by apply wf_map_scalar, wf_map_scalar, wf_astype.
Qed.

Lemma percentile_contrast_unfold w img a low high :
  deref (heap w) img = Some a ->
  percentile_contrast percentile img low high w
  = ((if npfloat_eqb (percentile a high) (percentile a low)
      then np_zeros_like img (DFloat float32)
      else
        np_astype img (DFloat float32) ≫= fun x =>
        np_sub x (percentile a low) ≫= fun num =>
        np_div num (npfloat_sub (percentile a high) (percentile a low)))
     ≫= fun img_disp => np_clip img_disp 0 1 None) w.
Proof.
  intros Ha. unfold percentile_contrast, np_percentile2.
  rewrite (bind_ok _ _ w w (percentile a low, percentile a high)); [done|].
  by rewrite (bind_ok _ _ _ _ _ (load_ok _ _ _ Ha)).
Qed.

(** [percentile_contrast] reads its argument and returns a new array
    holding [stretch] of it. *)
Lemma percentile_contrast_yields w img a low high :
  deref (heap w) img = Some a ->
  ∃ bs out,
    yields (percentile_contrast percentile img low high) w bs out
      (stretch percentile a low high).
Proof.
  intros Ha. pose proof (deref_wf _ _ _ Ha) as Hwf.
  pose proof (percentile_contrast_unfold w img a low high Ha) as Hun.
  unfold stretch.
  destruct (npfloat_eqb (percentile a high) (percentile a low)) eqn:E.
  - exists ([items (zeros_like (DFloat float32) a)]
            ++ [items (clip 0 1 (zeros_like (DFloat float32) a))]).
    eexists. eapply yields_ext; [exact Hun|].
    eapply yields_bind.
    + apply (yields_op (zeros_like (DFloat float32))); [done|by apply wf_zeros_like].
    + intros Hd. apply (yields_op (clip 0 1)); [done|].
      by apply wf_clip, wf_zeros_like.
  - set (x := astype (DFloat float32) a).
    set (num := sub_scalar x (percentile a low)).
    set (q := div_scalar num (npfloat_sub (percentile a high) (percentile a low))).
    exists (([items x] ++ [items num] ++ [items q]) ++ [items (clip 0 1 q)]).
    eexists. eapply yields_ext; [exact Hun|].
    assert (wf x) as Hx by by apply wf_astype.
    assert (wf num) as Hnum by by apply wf_map_scalar.
    assert (wf q) as Hq by by apply wf_map_scalar.
    eapply yields_bind.
    + eapply yields_bind.
      * by apply (yields_op (astype (DFloat float32))).
      * intros Hd. eapply yields_bind.
        -- by apply (yields_op (fun y => sub_scalar y (percentile a low))).
        -- intros Hd'.
           by apply (yields_op (fun y => div_scalar y
                        (npfloat_sub (percentile a high) (percentile a low)))).
    + intros Hd. apply (yields_op (clip 0 1)); [done|]. by apply wf_clip.
Qed.

Lemma stretch_flat a low high :
  npfloat_eqb (percentile a high) (percentile a low) = true ->
  stretch percentile a low high
  = NdArray (shape a) (FBuf float32 (replicate (buf_len (items a)) IEEE.zero)).
Proof.
  intros E. unfold stretch. rewrite E. unfold clip, zeros_like. simpl.
  do 2 f_equal. by rewrite fmap_replicate.
Qed.

Lemma stretch_items a low high :
  npfloat_eqb (percentile a high) (percentile a low) = false ->
  stretch percentile a low high
  = NdArray (shape a)
      (FBuf (stretch_dtype (percentile a low) (percentile a high))
         (map (stretch_item (percentile a low) (percentile a high))
            (to_floats IEEE.binary32 (items a)))).
Proof.
  intros E. unfold stretch. rewrite E.
  unfold clip, div_scalar, sub_scalar, map_scalar, astype. simpl.
  by rewrite !map_map.
Qed.

(** C1.  When the low and high percentile values of the image compare
    equal, [percentile_contrast] returns a new float32 array of the shape of
    the image whose items are all [+0.0]. *)
Theorem percentile_contrast_flat w img a low high :
  deref (heap w) img = Some a ->
  npfloat_eqb (percentile a high) (percentile a low) = true ->
  ∃ out w',
    percentile_contrast percentile img low high w = (Ok out, w')
    ∧ deref (heap w') out
      = Some (NdArray (shape a)
                (FBuf float32 (replicate (size_of (shape a)) IEEE.zero))).
Proof.
  intros Ha E.
  destruct (percentile_contrast_yields w img a low high Ha)
    as (bs & out & Hrun & Hd & _).
  exists out, (grow w bs). split; [done|].
  simpl. rewrite Hd, (stretch_flat _ _ _ E).
  by rewrite (deref_wf _ _ _ Ha).
Qed.

(** The stretched pixel is NaN or lies between 0 and 1. *)
Lemma stretch_item_range p_low p_high x :
  IEEE.is_nan (stretch_item p_low p_high x) = false ->
  IEEE.leb (IEEE.of_Z (fmt (stretch_dtype p_low p_high)) 0)
    (stretch_item p_low p_high x) = true
  ∧ IEEE.leb (stretch_item p_low p_high x)
      (IEEE.of_Z (fmt (stretch_dtype p_low p_high)) 1) = true.
Proof.
  unfold stretch_item, stretch_dtype.
  set (r2 := result_type _ (sc_dtype (npfloat_sub p_high p_low))).
  intros Hn. rewrite IEEEFacts.clip_is_nan in Hn by by destruct r2.
  apply IEEEFacts.clip_range; [done|by destruct r2..].
Qed.

(** A pixel equal to the low percentile is sent to [+0.0]. *)
Lemma stretch_item_low p_low p_high x s m e :
  let r1 := result_type (DFloat float32) (sc_dtype p_low) in
  IEEE.is_finite (IEEE.round (fmt r1) x) = true ->
  IEEE.round (fmt r1) x = IEEE.round (fmt r1) (sc_val p_low) ->
  IEEE.round (fmt (stretch_dtype p_low p_high)) (sc_val (npfloat_sub p_high p_low))
  = S754_finite s m e ->
  stretch_item p_low p_high x = IEEE.zero.
Proof.
  intros r1 Hfin Heq Hd. unfold stretch_item. fold r1.
  unfold stretch_dtype in Hd. fold r1 in Hd. rewrite Hd, <- Heq.
  rewrite IEEEFacts.sub_self by done. simpl IEEE.round.
  unfold IEEE.zero. rewrite IEEEFacts.div_zero_l.
  apply IEEEFacts.clip01_zero.
Qed.

(** A pixel equal to the high percentile is sent to [1.0]. *)
Lemma stretch_item_high p_low p_high x s m e :
  let r1 := result_type (DFloat float32) (sc_dtype p_low) in
  sc_dtype p_high = sc_dtype p_low ->
  IEEE.round (fmt r1) x = IEEE.round (fmt r1) (sc_val p_high) ->
  IEEE.round (fmt (stretch_dtype p_low p_high)) (sc_val (npfloat_sub p_high p_low))
  = S754_finite s m e ->
  stretch_item p_low p_high x = IEEE.one (fmt (stretch_dtype p_low p_high)).
Proof.
  intros r1 Hdt Heq Hd. unfold stretch_item. fold r1.
  unfold stretch_dtype in *. fold r1 in Hd |- *.
  set (r2 := result_type (DFloat r1) (sc_dtype (npfloat_sub p_high p_low))) in *.
  assert (IEEE.sub (fmt r1) (IEEE.round (fmt r1) x) (IEEE.round (fmt r1) (sc_val p_low))
          = sc_val (npfloat_sub p_high p_low)) as ->.
  { rewrite Heq. unfold npfloat_sub, r1. simpl. rewrite Hdt.
    by destruct (sc_dtype p_low). }
  rewrite Hd, IEEEFacts.div_self. apply IEEEFacts.clip01_one.
Qed.

(** C2 (amended).  When the two percentile values compare different,
    [percentile_contrast] returns a new array of the shape of the image
    whose items are [clip((x - p_low) / (p_high - p_low), 0, 1)] of the
    pixels converted to float32.  Every item that is not NaN lies between 0
    and 1.  When [p_high - p_low] is a finite nonzero number, a pixel equal
    to the low percentile gives [+0.0], and (the two percentiles having one
    dtype) a pixel equal to the high percentile gives [1.0]. *)
Theorem percentile_contrast_stretch w img a low high :
  let p_low := percentile a low in
  let p_high := percentile a high in
  let r := stretch_dtype p_low p_high in
  let r1 := result_type (DFloat float32) (sc_dtype p_low) in
  deref (heap w) img = Some a ->
  npfloat_eqb p_high p_low = false ->
  ∃ out w' ys,
    percentile_contrast percentile img low high w = (Ok out, w')
    ∧ deref (heap w') out = Some (NdArray (shape a) (FBuf r ys))
    ∧ ys = map (stretch_item p_low p_high) (to_floats IEEE.binary32 (items a))
    ∧ Forall (fun y =>
        IEEE.is_nan y = false ->
        IEEE.leb (IEEE.of_Z (fmt r) 0) y = true
        ∧ IEEE.leb y (IEEE.of_Z (fmt r) 1) = true) ys
    ∧ (∀ s m e i x,
         IEEE.round (fmt r) (sc_val (npfloat_sub p_high p_low)) = S754_finite s m e ->
         to_floats IEEE.binary32 (items a) !! i = Some x ->
         (IEEE.is_finite (IEEE.round (fmt r1) x) = true ->
          IEEE.round (fmt r1) x = IEEE.round (fmt r1) (sc_val p_low) ->
          ys !! i = Some IEEE.zero)
         ∧ (sc_dtype p_high = sc_dtype p_low ->
            IEEE.round (fmt r1) x = IEEE.round (fmt r1) (sc_val p_high) ->
            ys !! i = Some (IEEE.one (fmt r)))).
Proof.
  intros p_low p_high r r1 Ha E.
  destruct (percentile_contrast_yields w img a low high Ha)
    as (bs & out & Hrun & Hd & _).
  exists out, (grow w bs), (map (stretch_item p_low p_high)
                             (to_floats IEEE.binary32 (items a))).
  split; [done|]. split.
  { simpl. by rewrite Hd, (stretch_items _ _ _ E). }
  split; [done|]. split.
  - apply Forall_forall. intros y Hy Hn.
    apply list_elem_of_In, in_map_iff in Hy as (x & <- & _).
    by apply stretch_item_range.
  - intros s m e i x Hdelta Hx. split.
    + intros Hfin Heq. rewrite list_lookup_fmap, Hx. simpl. f_equal.
      by eapply stretch_item_low.
    + intros Hdt Heq. rewrite list_lookup_fmap, Hx. simpl. f_equal.
      by eapply stretch_item_high.
Qed.

End WithPercentile.

(** *** Saving as a 16-bit TIFF *)

Lemma rescale_payload f xs sh :
  astype (DInt uint16)
    (clip 0 65535 (mul_pyfloat (NdArray sh (FBuf f xs)) (IEEE.of_Z IEEE.binary64 65535)))
  = NdArray sh (IBuf uint16 (map (rescale_item f) xs)).
Proof.
  unfold astype, clip, mul_pyfloat. simpl. rewrite !map_map.
  do 2 f_equal. apply map_ext. intros v. unfold rescale_item.
  by destruct f.
Qed.

Lemma save_as_tiff_run w arr a path :
  deref (heap w) arr = Some a ->
  ∃ payload w',
    save_as_tiff arr path (DInt uint16) w = (Ok tt, w')
    ∧ advances w w' [Imwrite path payload]
    ∧ files w' = <[path := Tiff (tiff_payload a) ∅ None]> (files w)
    ∧ deref (heap w') payload = Some (tiff_payload a)
    ∧ (if decide (dtype_of a = DInt uint16)
       then payload = arr ∧ heap w' = heap w
       else length (heap w) ≤ vbuf payload).
Proof.
  intros Ha. pose proof (deref_wf _ _ _ Ha) as Hwf.
  unfold save_as_tiff, np_dtype.
  rewrite (bind_ok _ _ w w (dtype_of a)); cycle 1.
  { by rewrite (bind_ok _ _ _ _ _ (load_ok _ _ _ Ha)). }
  unfold tiff_payload.
  destruct a as [sh [i l | f xs]]; unfold dtype_of; cbn [buf_dtype items shape].
  - destruct (decide (i = uint16)) as [->|Hne].
    + rewrite decide_False by (intros H; by apply H).
      rewrite (bind_ok _ _ w w arr) by done.
      rewrite (tiff_imwrite_ok _ _ _ _ Ha).
      eexists arr, _. split; [done|]. rewrite decide_True by done.
      by repeat split.
    + rewrite decide_True by congruence.
      replace (kind (DInt i) =? "f")%string with false by by destruct i.
      set (b := astype (DInt uint16) (NdArray sh (IBuf i l))).
      assert (yields (np_astype arr (DInt uint16)) w [items b]
                (View (length (heap w)) 0 (shape b)) b) as Hy.
      { apply (yields_op (astype (DInt uint16))); [done|by apply wf_astype]. }
      rewrite (yields_then _ _ _ _ _ _ Hy).
      destruct Hy as (_ & Hd & _).
      rewrite (tiff_imwrite_ok path _ (grow w [items b]) _ Hd).
      eexists _, _. split; [done|]. rewrite decide_False by congruence.
      repeat split; try done.
      by apply prefix_app_r.
  - rewrite decide_True by done.
    replace (kind (DFloat f) =? "f")%string with true by done.
    set (a := NdArray sh (FBuf f xs)) in *.
    set (x := mul_pyfloat a (IEEE.of_Z IEEE.binary64 65535)).
    set (c := clip 0 65535 x).
    set (b := astype (DInt uint16) c).
    assert (wf x) as Hx by by apply wf_mul_pyfloat.
    assert (wf c) as Hc by by apply wf_clip.
    assert (wf b) as Hb by by apply wf_astype.
    assert (∃ out, yields
              (np_mul_pyfloat arr (IEEE.of_Z IEEE.binary64 65535) ≫= fun scaled =>
               np_clip scaled 0 65535 None ≫= fun clipped =>
               np_astype clipped (DInt uint16))
              w ([items x] ++ [items c] ++ [items b]) out b) as [out Hy].
    { eexists. eapply yields_bind.
      - by apply (yields_op (fun y => mul_pyfloat y (IEEE.of_Z IEEE.binary64 65535))).
      - intros Hd. eapply yields_bind.
        + by apply (yields_op (clip 0 65535)).
        + intros Hd'. by apply (yields_op (astype (DInt uint16))). }
    rewrite (yields_then _ _ _ _ _ _ Hy).
    destruct Hy as (_ & Hd & Hl).
    rewrite (tiff_imwrite_ok path _ (grow w ([items x] ++ [items c] ++ [items b])) _ Hd).
    assert (b = NdArray sh (IBuf uint16 (map (rescale_item f) xs))) as Hb'
      by apply rescale_payload.
    eexists out, _. split; [done|]. rewrite <- Hb', decide_False by done.
    repeat split; try done.
    by apply prefix_app_r.
Qed.

(** C3.  [save_as_tiff] with target dtype uint16 writes one file.  For a
    floating-point array the file holds [clip(v * 65535, 0, 65535)] cast to
    uint16 for every item [v]; for an integer array of another dtype it
    holds the items cast to uint16 (wrapped, not rescaled); a uint16 array
    is written as it is, through the same array object. *)
Theorem save_as_tiff_payload w arr a path :
  deref (heap w) arr = Some a ->
  ∃ payload b w',
    save_as_tiff arr path (DInt uint16) w = (Ok tt, w')
    ∧ trace w' = trace w ++ [Imwrite path payload]
    ∧ files w' !! path = Some (Tiff b ∅ None)
    ∧ deref (heap w') payload = Some b
    ∧ match items a with
      | FBuf f xs => b = NdArray (shape a) (IBuf uint16 (map (rescale_item f) xs))
      | IBuf i l =>
          if decide (i = uint16)
          then payload = arr ∧ b = a ∧ heap w' = heap w
          else b = NdArray (shape a) (IBuf uint16 (map (wrap uint16) l))
      end.
Proof.
  intros Ha.
  destruct (save_as_tiff_run w arr a path Ha)
    as (payload & w' & Hrun & [_ Htr] & Hf & Hd & Hcase).
  exists payload, (tiff_payload a), w'.
  split; [done|]. split; [done|]. split; [by rewrite Hf, lookup_insert_eq|].
  split; [done|].
  unfold tiff_payload in *. unfold dtype_of in Hcase.
  destruct (items a) as [i l|f xs]; [|done]. simpl in Hcase.
  destruct (decide (i = uint16)) as [->|Hne]; [|done].
  rewrite decide_True in Hcase by done. by destruct Hcase.
Qed.

(** A float64 image holding 0.25 is written as the 16-bit value 16383. *)
Lemma save_as_tiff_payload_witness :
  deref (heap (Examples.world_of Examples.quarter_image)) Examples.view_1x1
  = Some (NdArray [1; 1] Examples.quarter_image)
  ∧ ∃ payload w',
      save_as_tiff Examples.view_1x1 "out.tif" (DInt uint16)
        (Examples.world_of Examples.quarter_image) = (Ok tt, w')
      ∧ files w' !! "out.tif"
        = Some (Tiff (NdArray [1; 1] (IBuf uint16 [16383%Z])) ∅ None)
      ∧ deref (heap w') payload = Some (NdArray [1; 1] (IBuf uint16 [16383%Z])).
Proof.
  split; [reflexivity|].
  destruct (save_as_tiff_payload (Examples.world_of Examples.quarter_image)
              Examples.view_1x1 (NdArray [1; 1] Examples.quarter_image) "out.tif")
    as (payload & b & w' & Hrun & _ & Hf & Hd & Hb); [reflexivity|].
  exists payload, w'. split; [exact Hrun|].
  simpl in Hb. rewrite Hf, Hd, Hb. split; reflexivity.
Defined.

(** Reading a file back gives a new array holding what was written. *)
Lemma load_tiff_stack_ok w path f :
  files w !! path = Some f -> wf (tiff_data f) ->
  ∃ data,
    load_tiff_stack path w
    = (Ok (data, tiff_tags f, tiff_description f), grow w [items (tiff_data f)])
    ∧ deref (heap (grow w [items (tiff_data f)])) data = Some (tiff_data f).
Proof.
  intros Hf Hwf. exists (View (length (heap w)) 0 (shape (tiff_data f))).
  split.
  - unfold load_tiff_stack, tiff_open.
    rewrite (bind_ok _ _ w w f) by by rewrite Hf.
    by rewrite (bind_ok _ _ _ _ _ (alloc_ok w (tiff_data f))).
  - by apply deref_new.
Qed.

(** C7 (amended).  A floating-point value [v] of [0, 1] saved as a 16-bit
    TIFF and read back gives the integer part of the floating-point product
    [v * 65535.0]: the stored integer is the floor of the exact product or
    one more, hence within 1 (not 1/65535) of the exact product rounded to
    the nearest integer. *)
Theorem save_as_tiff_roundtrip w arr sh f v path :
  deref (heap w) arr = Some (NdArray sh (FBuf f [v])) ->
  valid f v = true ->
  IEEE.leb (IEEE.of_Z (fmt f) 0) v = true ->
  IEEE.leb v (IEEE.of_Z (fmt f) 1) = true ->
  ∃ w1 data meta desc w2 s,
    save_as_tiff arr path (DInt uint16) w = (Ok tt, w1)
    ∧ load_tiff_stack path w1 = (Ok (data, meta, desc), w2)
    ∧ deref (heap w2) data = Some (NdArray sh (IBuf uint16 [s]))
    ∧ s = IEEE.trunc
            (IEEE.clip (IEEE.mul (fmt f) v (IEEE.of_Z (fmt f) 65535))
               (IEEE.of_Z (fmt f) 0) (IEEE.of_Z (fmt f) 65535))
    ∧ (Qfloor (IEEE.to_Q v * 65535) <= s <= Qfloor (IEEE.to_Q v * 65535) + 1)%Z
    ∧ (Z.abs (s - IEEE.nearest (IEEE.to_Q v * 65535)) <= 1)%Z.
Proof.
  intros Ha Hv H0 H1.
  destruct (save_as_tiff_run w arr _ path Ha)
    as (payload & w1 & Hrun & _ & Hf & Hd & _).
  unfold tiff_payload in Hf, Hd. simpl in Hf, Hd.
  destruct (load_tiff_stack_ok w1 path
              (Tiff (NdArray sh (IBuf uint16 [rescale_item f v])) ∅ None))
    as (data & Hload & Hdata).
  { by rewrite Hf, lookup_insert_eq. }
  { exact (deref_wf _ _ _ Hd). }
  destruct (RoundFacts.rescale_item_unit f v Hv H0 H1) as [Hfl Heq].
  pose proof (RoundFacts.nearest_floor (IEEE.to_Q v * 65535)) as Hn.
  eexists w1, data, _, _, _, (rescale_item f v).
  split; [exact Hrun|]. split; [exact Hload|]. split; [exact Hdata|].
  split; [exact Heq|]. split; [exact Hfl|]. lia.
Qed.

(** The value 0.25 is stored as 16383 and read back as such. *)
Lemma save_as_tiff_roundtrip_witness :
  deref (heap (Examples.world_of Examples.quarter_image)) Examples.view_1x1
  = Some (NdArray [1; 1] (FBuf float64 [Examples.quarter]))
  ∧ valid float64 Examples.quarter = true
  ∧ IEEE.leb (IEEE.of_Z (fmt float64) 0) Examples.quarter = true
  ∧ IEEE.leb Examples.quarter (IEEE.of_Z (fmt float64) 1) = true
  ∧ ∃ w1 data meta desc w2,
      save_as_tiff Examples.view_1x1 "out.tif" (DInt uint16)
        (Examples.world_of Examples.quarter_image) = (Ok tt, w1)
      ∧ load_tiff_stack "out.tif" w1 = (Ok (data, meta, desc), w2)
      ∧ deref (heap w2) data = Some (NdArray [1; 1] (IBuf uint16 [16383%Z])).
Proof.
  split; [reflexivity|]. split; [reflexivity|].
  split; [reflexivity|]. split; [reflexivity|].
  destruct (save_as_tiff_roundtrip (Examples.world_of Examples.quarter_image)
              Examples.view_1x1 [1; 1] float64 Examples.quarter "out.tif")
    as (w1 & data & meta & desc & w2 & s & Hrun & Hload & Hd & Hs & _);
    [reflexivity..|].
  exists w1, data, meta, desc, w2.
  split; [exact Hrun|]. split; [exact Hload|].
  rewrite Hd, Hs. reflexivity.
Defined.

(** C7 as stated fails at 0.25: the product 16383.75 rounds to 16384, the
    file holds 16383, and the two differ by 1, which is more than
    1/65535. *)
Lemma save_as_tiff_roundtrip_counterexample :
  valid float64 Examples.quarter = true
  ∧ IEEE.leb (IEEE.of_Z (fmt float64) 0) Examples.quarter = true
  ∧ IEEE.leb Examples.quarter (IEEE.of_Z (fmt float64) 1) = true
  ∧ (IEEE.to_Q Examples.quarter * 65535 == 65535 # 4)%Q
  ∧ IEEE.nearest (IEEE.to_Q Examples.quarter * 65535) = 16384%Z
  ∧ ∃ w1 data meta desc w2,
      save_as_tiff Examples.view_1x1 "out.tif" (DInt uint16)
        (Examples.world_of Examples.quarter_image) = (Ok tt, w1)
      ∧ load_tiff_stack "out.tif" w1 = (Ok (data, meta, desc), w2)
      ∧ deref (heap w2) data = Some (NdArray [1; 1] (IBuf uint16 [16383%Z]))
      ∧ ¬ (Qabs (inject_Z 16383
                 - inject_Z (IEEE.nearest (IEEE.to_Q Examples.quarter * 65535)))
           <= 1 # 65535)%Q.
Proof.
  split; [reflexivity|]. split; [reflexivity|]. split; [reflexivity|].
  split; [reflexivity|]. split; [reflexivity|].
  eexists _, _, _, _, _.
  split; [vm_compute; reflexivity|]. split; [vm_compute; reflexivity|].
  split; [vm_compute; reflexivity|].
  vm_compute. intros H. apply H. reflexivity.
Qed.

(** *** The projection summarizer *)

Section Summarize.

Variable percentile : ndarray -> Z -> npfloat.

Lemma shape_stretch a low high : shape (stretch percentile a low high) = shape a.
Proof. unfold stretch. simpl. by destruct (npfloat_eqb _ _). Qed.

Lemma percentile_contrast_run w img a low high :
  deref (heap w) img = Some a ->
  ∃ out w',
    percentile_contrast percentile img low high w = (Ok out, w')
    ∧ advances w w' [] ∧ files w' = files w
    ∧ deref (heap w') out = Some (stretch percentile a low high)
    ∧ length (heap w) ≤ vbuf out.
Proof.
  intros Ha.
  destruct (percentile_contrast_yields percentile w img a low high Ha)
    as (bs & out & Hy).
  exists out, (grow w bs). by apply yields_advances.
Qed.

Lemma plt_check_ok w v a h :
  deref h v = Some a -> image_shape (shape a) = true -> plt_check v w = (Ok tt, w).
Proof.
  intros Hd Hs. rewrite (deref_shape _ _ _ Hd) in Hs.
  unfold plt_check. by rewrite Hs.
Qed.

Lemma show_frame_run w frame a title :
  deref (heap w) frame = Some a -> image_shape (shape a) = true ->
  ∃ out w',
    show_frame percentile frame title w = (Ok tt, w')
    ∧ advances w w' [ShowFrame out title] ∧ files w' = files w
    ∧ deref (heap w') out = Some (stretch percentile a 1 99)
    ∧ length (heap w) ≤ vbuf out.
Proof.
  intros Ha Hs.
  destruct (percentile_contrast_run w frame a 1 99 Ha)
    as (out & w1 & Hrun & [Hp Ht] & Hf & Hd & Hl).
  exists out, (World (heap w1) (files w1) (trace w1 ++ [ShowFrame out title])).
  unfold show_frame. rewrite (bind_ok _ _ _ _ _ Hrun).
  rewrite (bind_ok _ _ w1 w1 tt); cycle 1.
  { eapply plt_check_ok; [exact Hd|]. by rewrite shape_stretch. }
  rewrite emit_ok. split; [done|]. simpl. repeat split; try done.
  by rewrite Ht, app_nil_r.
Qed.

Lemma plt_imsave_ok w v a path :
  deref (heap w) v = Some a -> image_shape (shape a) = true ->
  plt_imsave path v w
  = (Ok tt, World (heap w) (files w) (trace w ++ [Imsave path v])).
Proof.
  intros Hd Hs. unfold plt_imsave.
  by rewrite (bind_ok _ _ w w tt) by by eapply plt_check_ok.
Qed.

(** One run of [summarize_movie] on a stack of [n > 0] frames of [h] by
    [c] pixels: what is shown and written, and where it lives. *)
Lemma summarize_movie_run w data a dir n h c :
  deref (heap w) data = Some a -> shape a = [n; h; c] -> 0 < n ->
  ∃ v1 v2 v3 v4 v5 v6 v7 v8 vm vx w',
    summarize_movie percentile data dir w = (Ok tt, w')
    ∧ advances w w' (summary_trace dir n v1 v2 v3 v4 v5 v6 v7 v8)
    ∧ files w'
      = <[Py.path_join dir "max_projection.tif" :=
            Tiff (tiff_payload (max_projection a)) ∅ None]>
          (<[Py.path_join dir "mean_projection.tif" :=
               Tiff (tiff_payload (mean_projection a)) ∅ None]> (files w))
    ∧ deref (heap w') v1 = Some (stretch percentile (frame_of a (n / 2)) 1 99)
    ∧ deref (heap w') v2 = Some (stretch percentile (frame_of a (n / 2)) 1 99)
    ∧ deref (heap w') v3 = Some (stretch percentile (mean_projection a) 1 99)
    ∧ deref (heap w') v4 = Some (stretch percentile (max_projection a) 1 99)
    ∧ deref (heap w') v5 = Some (stretch percentile (mean_projection a) 1 99)
    ∧ deref (heap w') v6 = Some (stretch percentile (max_projection a) 1 99)
    ∧ deref (heap w') v7 = Some (tiff_payload (mean_projection a))
    ∧ deref (heap w') v8 = Some (tiff_payload (max_projection a))
    ∧ deref (heap w') vm = Some (mean_projection a)
    ∧ deref (heap w') vx = Some (max_projection a)
    ∧ Forall (fun v => length (heap w) ≤ vbuf v)
        [v1; v2; v3; v4; v5; v6; v7; v8; vm; vx].
Proof.
  intros Ha Hs Hn.
  assert (n / 2 < n) as Hmid by (apply Nat.div_lt; lia).
  assert (image_shape [h; c] = true) as Him by done.
  assert (shape (frame_of a (n / 2)) = [h; c]) as Hsf
    by (unfold frame_of; simpl; by rewrite Hs).
  assert (shape (mean_projection a) = [h; c]) as Hsm
    by (unfold mean_projection; simpl; by rewrite Hs).
  assert (shape (max_projection a) = [h; c]) as Hsx
    by (unfold max_projection; simpl; by rewrite Hs).
  unfold summarize_movie.
  (* mkdir, the length and the middle frame *)
  set (w0 := World (heap w) (files w) (trace w ++ [Mkdir dir])).
  rewrite (bind_ok _ _ w w0 tt) by done.
  assert (deref (heap w0) data = Some a) as Ha0 by done.
  rewrite (bind_ok _ _ _ _ _ (np_shape0_ok w0 data a n [h; c] Ha0 Hs)).
  set (mid := View (vbuf data) (voff data + n / 2 * size_of [h; c]) [h; c]).
  rewrite (bind_ok _ _ w0 w0 mid); cycle 1.
  { unfold np_index0_full2. rewrite <- (deref_shape _ _ _ Ha0), Hs.
    by apply (np_index0_ok w0 data a n [h; c]). }
  assert (deref (heap w0) mid = Some (frame_of a (n / 2))) as Hmid0
    by by apply (deref_index0 _ _ _ n).
  (* the middle frame, shown and saved *)
  destruct (show_frame_run w0 mid _
              ("Frame " +:+ Py.str_nat (n / 2) +:+ "/" +:+ Py.str_nat n) Hmid0)
    as (v1 & w1 & R1 & [P1 T1] & F1 & D1 & L1); [by rewrite Hsf|].
  rewrite (bind_ok _ _ _ _ _ R1).
  destruct (percentile_contrast_run w1 mid _ 1 99 (prefix_deref _ _ _ _ P1 Hmid0))
    as (v2 & w2 & R2 & [P2 T2] & F2 & D2 & L2).
  rewrite (bind_ok _ _ _ _ _ R2).
  rewrite (bind_ok _ _ _ _ _
             (plt_imsave_ok w2 v2 _
                (Py.path_join dir ("frame_" +:+ Py.format_04d (n / 2) +:+ ".png")) D2
                ltac:(by rewrite shape_stretch, Hsf))).
  set (w3 := World (heap w2) (files w2) (trace w2 ++ [Imsave _ v2])).
  (* the projections *)
  assert (heap w0 `prefix_of` heap w3) as P03 by (by etrans).
  destruct (yields_advances _ _ _ _ _
              (np_mean0_yields w3 data a n [h; c] (prefix_deref _ _ _ _ P03 Ha0) Hs Hn))
    as (R4 & [P4 T4] & F4 & D4 & L4).
  rewrite (bind_ok _ _ _ _ _ R4).
  set (vm := View (length (heap w3)) 0 [h; c]) in *.
  set (w4 := grow w3 [items (mean_projection a)]) in *.
  assert (heap w0 `prefix_of` heap w4) as P04 by (by etrans).
  destruct (yields_advances _ _ _ _ _
              (np_max0_yields w4 data a n [h; c] (prefix_deref _ _ _ _ P04 Ha0) Hs Hn))
    as (R5 & [P5 T5] & F5 & D5 & L5).
  rewrite (bind_ok _ _ _ _ _ R5).
  set (vx := View (length (heap w4)) 0 [h; c]) in *.
  set (w5 := grow w4 [items (max_projection a)]) in *.
  (* the projections, shown *)
  destruct (show_frame_run w5 vm _ "Mean across time" (prefix_deref _ _ _ _ P5 D4))
    as (v3 & w6 & R6 & [P6 T6] & F6 & D6 & L6); [by rewrite Hsm|].
  rewrite (bind_ok _ _ _ _ _ R6).
  assert (heap w4 `prefix_of` heap w6) as P46 by (by etrans).
  destruct (show_frame_run w6 vx _ "Max across time" (prefix_deref _ _ _ _ P6 D5))
    as (v4 & w7 & R7 & [P7 T7] & F7 & D7 & L7); [by rewrite Hsx|].
  rewrite (bind_ok _ _ _ _ _ R7).
  assert (heap w4 `prefix_of` heap w7) as P47 by (by etrans).
  assert (heap w5 `prefix_of` heap w7) as P57 by (by etrans).
  (* the projections, saved as PNG *)
  destruct (percentile_contrast_run w7 vm _ 1 99 (prefix_deref _ _ _ _ P47 D4))
    as (v5 & w8 & R8 & [P8 T8] & F8 & D8 & L8).
  rewrite (bind_ok _ _ _ _ _ R8).
  rewrite (bind_ok _ _ _ _ _
             (plt_imsave_ok w8 v5 _ (Py.path_join dir "mean_projection.png") D8
                ltac:(by rewrite shape_stretch, Hsm))).
  set (w9 := World (heap w8) (files w8) (trace w8 ++ [Imsave _ v5])).
  assert (heap w5 `prefix_of` heap w9) as P59 by (by etrans).
  destruct (percentile_contrast_run w9 vx _ 1 99 (prefix_deref _ _ _ _ P59 D5))
    as (v6 & w10 & R10 & [P10 T10] & F10 & D10 & L10).
  rewrite (bind_ok _ _ _ _ _ R10).
  rewrite (bind_ok _ _ _ _ _
             (plt_imsave_ok w10 v6 _ (Py.path_join dir "max_projection.png") D10
                ltac:(by rewrite shape_stretch, Hsx))).
  set (w11 := World (heap w10) (files w10) (trace w10 ++ [Imsave _ v6])).
  (* the projections, saved as TIFF *)
  assert (heap w4 `prefix_of` heap w11) as P411 by (etrans; [exact P47|by etrans]).
  assert (heap w5 `prefix_of` heap w11) as P511 by (by etrans).
  destruct (save_as_tiff_run w11 vm _ (Py.path_join dir "mean_projection.tif")
              (prefix_deref _ _ _ _ P411 D4))
    as (v7 & w12 & R12 & [P12 T12] & F12 & D12 & C12).
  rewrite (bind_ok _ _ _ _ _ R12).
  assert (heap w5 `prefix_of` heap w12) as P512 by (by etrans).
  destruct (save_as_tiff_run w12 vx _ (Py.path_join dir "max_projection.tif")
              (prefix_deref _ _ _ _ P512 D5))
    as (v8 & w13 & R13 & [P13 T13] & F13 & D13 & C13).
  rewrite (bind_ok _ _ _ _ _ R13). rewrite emit_ok.
  (* collecting *)
  assert (heap w `prefix_of` heap w3) as Q3 by done.
  assert (heap w `prefix_of` heap w7) as Q7 by (etrans; [exact P04|exact P47]).
  assert (heap w `prefix_of` heap w11) as Q11 by (etrans; [exact P04|exact P411]).
  assert (heap w `prefix_of` heap w12) as Q12 by (by etrans).
  assert (heap w1 `prefix_of` heap w13) as E1.
  { etrans; [exact P2|]. change (heap w2) with (heap w3).
    etrans; [exact P4|]. etrans; [exact P411|]. by etrans. }
  assert (heap w2 `prefix_of` heap w13) as E2.
  { change (heap w2) with (heap w3).
    etrans; [exact P4|]. etrans; [exact P411|]. by etrans. }
  assert (heap w6 `prefix_of` heap w13) as E6.
  { etrans; [exact P7|]. etrans; [exact P8|]. change (heap w8) with (heap w9).
    etrans; [exact P10|]. change (heap w10) with (heap w11). by etrans. }
  assert (heap w7 `prefix_of` heap w13) as E7.
  { etrans; [exact P8|]. change (heap w8) with (heap w9).
    etrans; [exact P10|]. change (heap w10) with (heap w11). by etrans. }
  assert (heap w8 `prefix_of` heap w13) as E8.
  { change (heap w8) with (heap w9).
    etrans; [exact P10|]. change (heap w10) with (heap w11). by etrans. }
  assert (heap w10 `prefix_of` heap w13) as E10.
  { change (heap w10) with (heap w11). by etrans. }
  assert (heap w4 `prefix_of` heap w13) as E4.
  { etrans; [exact P411|]. by etrans. }
  assert (heap w5 `prefix_of` heap w13) as E5 by (by etrans).
  exists v1, v2, v3, v4, v5, v6, v7, v8, vm, vx.
  eexists. split; [done|]. simpl.
  split; [split|].
  - simpl. etrans; [exact Q12|exact P13].
  - simpl. rewrite T13, T12. simpl. rewrite T10. simpl. rewrite T8, T7, T6.
    simpl. rewrite app_nil_r. simpl. rewrite T2, T1. simpl.
    rewrite !app_nil_r, <- !app_assoc. done.
  - split.
    { rewrite F13, F12. simpl. rewrite F10. simpl. rewrite F8, F7, F6. simpl.
      by rewrite F2, F1. }
    split; [by apply (prefix_deref _ _ _ _ E1)|].
    split; [by apply (prefix_deref _ _ _ _ E2)|].
    split; [by apply (prefix_deref _ _ _ _ E6)|].
    split; [by apply (prefix_deref _ _ _ _ E7)|].
    split; [by apply (prefix_deref _ _ _ _ E8)|].
    split; [by apply (prefix_deref _ _ _ _ E10)|].
    split; [by apply (prefix_deref _ _ _ _ P13)|].
    split; [done|].
    split; [by apply (prefix_deref _ _ _ _ E4)|].
    split; [by apply (prefix_deref _ _ _ _ E5)|].
    pose proof (prefix_length_le _ _ P1) as G1.
    pose proof (prefix_length_le _ _ Q3) as G3.
    pose proof (prefix_length_le _ _ P04) as G4.
    pose proof (prefix_length_le _ _ P5) as G5.
    pose proof (prefix_length_le _ _ P6) as G6.
    pose proof (prefix_length_le _ _ Q7) as G7.
    pose proof (prefix_length_le _ _ P8) as G8.
    pose proof (prefix_length_le _ _ P10) as G10.
    pose proof (prefix_length_le _ _ Q11) as G11.
    pose proof (prefix_length_le _ _ Q12) as G12.
    assert (length (heap w) ≤ vbuf v7) as K7.
    { destruct (decide (dtype_of (mean_projection a) = DInt uint16)) as [E|E];
        [destruct C12 as [-> _]; simpl; simpl in G3; lia|simpl in *; lia]. }
    assert (length (heap w) ≤ vbuf v8) as K8.
    { destruct (decide (dtype_of (max_projection a) = DInt uint16)) as [E|E];
        [destruct C13 as [-> _]; simpl; simpl in *; lia|simpl in *; lia]. }
    repeat (apply Forall_cons; split); try apply Forall_nil; simpl in *; lia.
Qed.

(** *** Nothing is written in place *)

Lemma grows_percentile_contrast img low high :
  grows (percentile_contrast percentile img low high).
Proof.
  unfold percentile_contrast, np_percentile2.
  apply grows_bind.
  { apply grows_bind; [apply grows_load|intros; apply grows_ret]. }
  intros [p_low p_high]. apply grows_bind; [|intros; apply grows_np_clip].
  destruct (npfloat_eqb p_high p_low).
  - apply (grows_load_alloc (zeros_like (DFloat float32))).
  - apply grows_bind; [apply (grows_load_alloc (astype (DFloat float32)))|intros x].
    apply grows_bind; [apply (grows_load_alloc (fun y => sub_scalar y p_low))|intros num].
    apply (grows_load_alloc (fun y => div_scalar y (npfloat_sub p_high p_low))).
Qed.

Lemma grows_plt_check img : grows (plt_check img).
Proof.
  unfold plt_check. destruct (image_shape _); [apply grows_ret|apply grows_raise].
Qed.

Lemma grows_show_frame frame title : grows (show_frame percentile frame title).
Proof.
  unfold show_frame. apply grows_bind; [apply grows_percentile_contrast|intros].
  apply grows_bind; [apply grows_plt_check|intros; apply grows_emit].
Qed.

Lemma grows_plt_imsave path img : grows (plt_imsave path img).
Proof.
  unfold plt_imsave.
  apply grows_bind; [apply grows_plt_check|intros; apply grows_emit].
Qed.

Lemma grows_save_as_tiff arr path t : grows (save_as_tiff arr path t).
Proof.
  unfold save_as_tiff, np_dtype.
  apply grows_bind.
  { apply grows_bind; [apply grows_load|intros; apply grows_ret]. }
  intros d. apply grows_bind; [|intros; apply grows_tiff_imwrite].
  destruct (decide (d ≠ t)); [|apply grows_ret].
  destruct (kind d =? "f")%string.
  - apply grows_bind;
      [apply (grows_load_alloc (fun y => mul_pyfloat y (IEEE.of_Z IEEE.binary64 65535)))
      |intros].
    apply grows_bind; [apply grows_np_clip|intros].
    apply (grows_load_alloc (astype (DInt uint16))).
  - apply (grows_load_alloc (astype t)).
Qed.

Lemma grows_summarize_movie data dir : grows (summarize_movie percentile data dir).
Proof.
  unfold summarize_movie.
  repeat first
    [ apply grows_emit
    | apply grows_np_shape0
    | apply grows_np_index0_full2
    | apply grows_show_frame
    | apply grows_percentile_contrast
    | apply grows_plt_imsave
    | apply grows_np_mean0
    | apply grows_np_max0
    | apply grows_save_as_tiff
    | apply grows_bind; [|intros ?] ].
Qed.

(** C4.  For a stack of [n > 0] frames of [h] by [c] pixels,
    [summarize_movie] shows and saves the contrast stretch of the frame at
    index [n / 2] (integer division; the index is in the window title and,
    zero-padded to four digits, in the file name), computes the mean
    projection item by item as the floating-point sum of the frames'
    items divided by [n] (in float64 for an integer stack), and the max
    projection item by item as the maximum of the frames' items, in the
    dtype of the stack; both are shown, saved as PNG after stretching and
    saved as 16-bit TIFF.  Every pixel of the max projection is the maximum
    of the values the pixel takes over the frames: for an integer stack one
    of these values and at least each of them, for a floating-point stack
    NaN when one of them is NaN and otherwise one of them that none exceeds
    in the IEEE order. *)
Theorem summarize_movie_projections w data a dir n h c :
  deref (heap w) data = Some a -> shape a = [n; h; c] -> 0 < n ->
  ∃ v1 v2 v3 v4 v5 v6 v7 v8 vm vx w',
    summarize_movie percentile data dir w = (Ok tt, w')
    ∧ trace w' = trace w ++ summary_trace dir n v1 v2 v3 v4 v5 v6 v7 v8
    ∧ deref (heap w') v1 = Some (stretch percentile (frame_of a (n / 2)) 1 99)
    ∧ deref (heap w') v2 = Some (stretch percentile (frame_of a (n / 2)) 1 99)
    ∧ deref (heap w') vm = Some (mean_projection a)
    ∧ dtype_of (mean_projection a) = DFloat (mean_dtype (dtype_of a))
    ∧ deref (heap w') vx = Some (max_projection a)
    ∧ dtype_of (max_projection a) = dtype_of a
    ∧ deref (heap w') v3 = Some (stretch percentile (mean_projection a) 1 99)
    ∧ deref (heap w') v4 = Some (stretch percentile (max_projection a) 1 99)
    ∧ deref (heap w') v5 = Some (stretch percentile (mean_projection a) 1 99)
    ∧ deref (heap w') v6 = Some (stretch percentile (max_projection a) 1 99)
    ∧ deref (heap w') v7 = Some (tiff_payload (mean_projection a))
    ∧ deref (heap w') v8 = Some (tiff_payload (max_projection a))
    ∧ (∀ j, j < size_of [h; c] ->
         match items a, items (max_projection a) with
         | IBuf _ l, IBuf _ ms =>
             int_maximum (column 0%Z (size_of [h; c]) n l j) (nth j ms 0%Z)
         | FBuf _ l, FBuf _ ms =>
             float_maximum (column S754_nan (size_of [h; c]) n l j)
               (nth j ms S754_nan)
         | _, _ => False
         end).
Proof.
  intros Ha Hs Hn.
  destruct (summarize_movie_run w data a dir n h c Ha Hs Hn)
    as (v1 & v2 & v3 & v4 & v5 & v6 & v7 & v8 & vm & vx & w' & Hrun & [_ Ht] & _
        & D1 & D2 & D3 & D4 & D5 & D6 & D7 & D8 & Dm & Dx & _).
  exists v1, v2, v3, v4, v5, v6, v7, v8, vm, vx, w'.
  do 13 (split; [first [done|unfold dtype_of, max_projection; simpl;
                              by destruct (items a)]|]).
  split; [done|].
  intros j Hj. by apply (NpFacts.max_projection_pixels a n [h; c] j).
Qed.

(** *** The axis heuristic *)

Lemma main_block_line w data meta desc n h c line :
  vshape data = [n; h; c] ->
  line = (if Py.contains "frames" (Py.lower (Py.str_opt desc))
             || bool_decide (is_Some (meta !! "frames"))
          then msg_time n
          else if Py.contains "slices" (Py.lower (Py.str_opt desc))
          then msg_depth n else msg_guess n) ->
  ∃ rest,
    trace (snd (main_block percentile data meta desc w))
    = trace w ++ Print line :: rest.
Proof.
  intros Hs Hl. unfold main_block. rewrite Hs.
  rewrite decide_True by done.
  rewrite (bind_ok _ _ w w n) by (unfold np_shape0; by rewrite Hs).
  set (w1 := World (heap w) (files w) (trace w ++ [Print line])).
  assert ((if Py.contains "frames" (Py.lower (Py.str_opt desc))
              || bool_decide (is_Some (meta !! "frames"))
           then emit (Print (msg_time n))
           else if Py.contains "slices" (Py.lower (Py.str_opt desc))
           then emit (Print (msg_depth n)) else emit (Print (msg_guess n))) w
          = (Ok tt, w1)) as Hemit.
  { unfold w1. rewrite Hl. destruct (_ || _); [done|].
    by destruct (Py.contains _ _). }
  rewrite (bind_ok _ _ _ _ _ Hemit).
  destruct (grows_summarize_movie data "previews" w1) as [_ [rest Hrest]].
  exists rest. rewrite Hrest. simpl. by rewrite <- app_assoc.
Qed.

Lemma axis_rule_line desc meta n :
  axis_message (axis_rule desc meta) n
  = (if Py.contains "frames" (Py.lower (Py.str_opt desc))
        || bool_decide (is_Some (meta !! "frames"))
     then msg_time n
     else if Py.contains "slices" (Py.lower (Py.str_opt desc))
     then msg_depth n else msg_guess n).
Proof.
  unfold axis_rule.
  destruct (decide ("frames" ∈ dom meta)) as [Hin|Hin].
  - rewrite bool_decide_eq_true_2 by by apply elem_of_dom.
    rewrite orb_true_r. by destruct (Py.contains "frames" _).
  - rewrite bool_decide_eq_false_2 by by rewrite <- elem_of_dom.
    rewrite orb_false_r.
    destruct (Py.contains "frames" _); [done|].
    by destruct (Py.contains "slices" _).
Qed.

(** C8.  For a three-dimensional stack the script body first prints its
    reading of the leading axis: TIME when the lowercased description
    holds "frames" or "frames" is a key of the metadata mapping, otherwise
    DEPTH when the lowercased description holds "slices", otherwise the
    guess TIME.  Only the keys of the mapping count: two mappings with the
    same keys give the same run, whatever their values. *)
Theorem axis_heuristic w data meta desc n h c :
  vshape data = [n; h; c] ->
  (∃ rest,
     trace (snd (main_block percentile data meta desc w))
     = trace w ++ Print (axis_message (axis_rule desc meta) n) :: rest)
  ∧ (axis_rule desc meta = AxisTime
     <-> Py.substring "frames" (Py.lower (Py.str_opt desc)) ∨ "frames" ∈ dom meta)
  ∧ (axis_rule desc meta = AxisDepth
     <-> ¬ (Py.substring "frames" (Py.lower (Py.str_opt desc)) ∨ "frames" ∈ dom meta)
         ∧ Py.substring "slices" (Py.lower (Py.str_opt desc)))
  ∧ (axis_rule desc meta = AxisGuessTime
     <-> ¬ (Py.substring "frames" (Py.lower (Py.str_opt desc)) ∨ "frames" ∈ dom meta)
         ∧ ¬ Py.substring "slices" (Py.lower (Py.str_opt desc)))
  ∧ (∀ meta' : gmap string tagvalue,
       dom meta' = dom meta ->
       main_block percentile data meta' desc w
       = main_block percentile data meta desc w).
Proof.
  intros Hs. split.
  { apply (main_block_line w data meta desc n h c _ Hs), axis_rule_line. }
  assert (Hm : ∀ meta' : gmap string tagvalue, dom meta' = dom meta ->
            main_block percentile data meta' desc w
            = main_block percentile data meta desc w).
  { intros meta' Hdom. unfold main_block.
    replace (bool_decide (is_Some (meta' !! "frames")))
      with (bool_decide (is_Some (meta !! "frames"))); [done|].
    apply bool_decide_ext. rewrite <- !elem_of_dom. by rewrite Hdom. }
  rewrite <- !PyFacts.contains_substring. unfold axis_rule.
  destruct (Py.contains "frames" _), (decide ("frames" ∈ dom meta)),
    (Py.contains "slices" _); split_and!; try exact Hm; intuition congruence.
Qed.

(** C9.  [percentile_contrast] and [summarize_movie] never write to a
    buffer that is already in the store: whatever their outcome, every
    array of the store they were started in holds the same items
    afterwards.  When they succeed, the array [percentile_contrast] returns
    and every array [summarize_movie] displays or saves (the stretched
    middle frame shown and the one saved, the projections, their stretched
    images and their TIFF payloads) lies in a buffer allocated during the
    call. *)
Theorem stack_never_written :
  (∀ w img low high v b,
     deref (heap w) v = Some b ->
     deref (heap (snd (percentile_contrast percentile img low high w))) v = Some b)
  ∧ (∀ w data dir v b,
       deref (heap w) v = Some b ->
       deref (heap (snd (summarize_movie percentile data dir w))) v = Some b)
  ∧ (∀ w img a low high,
       deref (heap w) img = Some a ->
       ∃ out w',
         percentile_contrast percentile img low high w = (Ok out, w')
         ∧ length (heap w) ≤ vbuf out)
  ∧ (∀ w data a dir n h c,
       deref (heap w) data = Some a -> shape a = [n; h; c] -> 0 < n ->
       ∃ v1 v2 v3 v4 v5 v6 v7 v8 vm vx w',
         summarize_movie percentile data dir w = (Ok tt, w')
         ∧ trace w' = trace w ++ summary_trace dir n v1 v2 v3 v4 v5 v6 v7 v8
         ∧ deref (heap w') vm = Some (mean_projection a)
         ∧ deref (heap w') vx = Some (max_projection a)
         ∧ deref (heap w') data = Some a
         ∧ Forall (fun v => length (heap w) ≤ vbuf v)
             [v1; v2; v3; v4; v5; v6; v7; v8; vm; vx]).
Proof.
  split; [|split; [|split]].
  - intros w img low high v b H.
    by apply (prefix_deref _ _ _ _ (proj1 (grows_percentile_contrast img low high w))).
  - intros w data dir v b H.
    by apply (prefix_deref _ _ _ _ (proj1 (grows_summarize_movie data dir w))).
  - intros w img a low high Ha.
    destruct (percentile_contrast_run w img a low high Ha)
      as (out & w' & Hrun & _ & _ & _ & Hl).
    by exists out, w'.
  - intros w data a dir n h c Ha Hs Hn.
    destruct (summarize_movie_run w data a dir n h c Ha Hs Hn)
      as (v1 & v2 & v3 & v4 & v5 & v6 & v7 & v8 & vm & vx & w' & Hrun & [Hp Ht] & _
          & _ & _ & _ & _ & _ & _ & _ & _ & Dm & Dx & Hf).
    exists v1, v2, v3, v4, v5, v6, v7, v8, vm, vx, w'.
    repeat (split; [done|]). split; [|done].
    by apply (prefix_deref _ _ _ _ Hp).
Qed.

End Summarize.

(** *** Playback *)

Section Playback.

Variable percentile : ndarray -> Z -> npfloat.

Lemma range_seq (s n : nat) :
  s ≤ n -> Py.range (Z.of_nat s) (Z.of_nat n) = Z.of_nat <$> seq s (n - s).
Proof.
  intros H. unfold Py.range, seqZ.
  replace (Z.to_nat (Z.of_nat n - Z.of_nat s)) with (n - s) by lia.
  replace (seq s (n - s)) with (seq (s + 0) (n - s)) by (f_equal; lia).
  rewrite <- (fmap_add_seq s 0), <- list_fmap_compose.
  apply list_fmap_ext. intros _ x _. simpl. lia.
Qed.

(** One step of the animation on frame [t]. *)
Lemma update_run w data a n rest t :
  deref (heap w) data = Some a -> shape a = n :: rest -> t < n ->
  ∃ out w',
    update percentile data (Z.of_nat t) w = (Ok tt, w')
    ∧ advances w w'
        [SetArray out ("Frame " +:+ Py.str_int (Z.of_nat t + 1) +:+ "/" +:+ Py.str_nat n)]
    ∧ deref (heap w') out = Some (stretch percentile (frame_of a t) 1 99).
Proof.
  intros Ha Hs Ht. unfold update.
  rewrite (bind_ok _ _ _ _ _ (np_index0_ok w data a n rest t Ha Hs Ht)).
  pose proof (deref_index0 _ _ _ _ _ _ Ha Hs Ht) as Hf.
  destruct (percentile_contrast_run percentile w _ _ 1 99 Hf)
    as (out & w1 & R & [P T] & _ & D & _).
  rewrite (bind_ok _ _ _ _ _ R).
  rewrite (bind_ok _ _ _ _ _
             (np_shape0_ok w1 data a n rest (prefix_deref _ _ _ _ P Ha) Hs)).
  exists out. eexists. split; [apply emit_ok|]. split; [|done].
  split; [done|]. simpl. by rewrite T, app_nil_r.
Qed.

(** The steps of the animation over the frames [s], ..., [s + k - 1]. *)
Lemma for_each_update_run data a n rest k : ∀ w s,
  deref (heap w) data = Some a -> shape a = n :: rest -> s + k ≤ n ->
  ∃ outs w',
    for_each (update percentile data) (Z.of_nat <$> seq s k) w = (Ok tt, w')
    ∧ advances w w'
        (zip_with
           (fun out t =>
              SetArray out ("Frame " +:+ Py.str_int (Z.of_nat t + 1) +:+ "/" +:+ Py.str_nat n))
           outs (seq s k))
    ∧ Forall2 (fun out t => deref (heap w') out
                            = Some (stretch percentile (frame_of a t) 1 99))
        outs (seq s k).
Proof.
  induction k as [|k IH]; intros w s Ha Hs Hk.
  - exists [], w. split; [done|]. split; [apply advances_refl|constructor].
  - destruct (update_run w data a n rest s Ha Hs ltac:(lia))
      as (out & w1 & R & A1 & D).
    destruct (IH w1 (S s) (advances_deref _ _ _ _ _ A1 Ha) Hs ltac:(lia))
      as (outs & w2 & R2 & A2 & F).
    exists (out :: outs), w2. cbn [seq fmap list_fmap for_each].
    split; [by rewrite (bind_ok _ _ _ _ _ R)|].
    split; [apply (advances_trans _ _ _ [_] _ A1 A2)|].
    constructor; [|done]. by apply (advances_deref _ _ _ _ _ A2).
Qed.

(** C10.  [play_movie] with the explicit argument [stop=0] is the same
    computation as [play_movie] with [stop] omitted.  On a stack of [n]
    frames that can be displayed, started at a frame [s < n] with a nonzero
    [fps], it succeeds and plays every frame from [s] to the last one: the
    animation is given the frames [s], ..., [n - 1], not an empty range,
    and each of them is stretched and drawn in turn under the title
    "Frame t+1/n"; the stack is left as it was. *)
Theorem play_movie_stop_zero :
  (∀ data start fps w,
     play_movie percentile data start (Some 0%Z) fps w
     = play_movie percentile data start None fps w)
  ∧ (∀ w data a n rest s fps,
       deref (heap w) data = Some a -> shape a = n :: rest ->
       image_shape rest = true -> s < n -> fps ≠ 0%Z ->
       ∃ first outs interval w',
         play_movie percentile data (Z.of_nat s) (Some 0%Z) fps w = (Ok tt, w')
         ∧ Py.int_truediv 1000 fps = Some interval
         ∧ length outs = n - s
         ∧ trace w'
           = trace w
             ++ AxImshow first
             :: FuncAnimation (Z.of_nat <$> seq s (n - s)) interval
             :: zip_with
                  (fun out t =>
                     SetArray out
                       ("Frame " +:+ Py.str_int (Z.of_nat t + 1) +:+ "/" +:+ Py.str_nat n))
                  outs (seq s (n - s))
         ∧ deref (heap w') first = Some (stretch percentile (frame_of a s) 1 99)
         ∧ Forall2 (fun out t => deref (heap w') out
                                 = Some (stretch percentile (frame_of a t) 1 99))
             outs (seq s (n - s))
         ∧ deref (heap w') data = Some a).
Proof.
  split; [reflexivity|].
  intros w data a n rest s fps Ha Hs Him Hsn Hfps.
  unfold play_movie, stop_or_length. cbn [Z.eqb].
  rewrite (bind_ok _ _ w w (Z.of_nat n));
    [|by rewrite (bind_ok _ _ _ _ _ (np_shape0_ok w data a n rest Ha Hs))].
  rewrite (bind_ok _ _ _ _ _ (np_index0_ok w data a n rest s Ha Hs Hsn)).
  pose proof (deref_index0 _ _ _ _ _ _ Ha Hs Hsn) as Hf.
  destruct (percentile_contrast_run percentile w _ _ 1 99 Hf)
    as (first & w1 & R & [P T] & _ & D & _).
  rewrite (bind_ok _ _ _ _ _ R).
  rewrite (bind_ok _ _ w1 w1 tt); cycle 1.
  { eapply plt_check_ok; [exact D|]. rewrite shape_stretch. unfold frame_of. simpl.
    by rewrite Hs. }
  rewrite (bind_ok _ _ _ _ _ (emit_ok _ _)).
  unfold Py.int_truediv. replace (fps =? 0)%Z with false by (symmetry; by apply Z.eqb_neq).
  cbn [of_option]. rewrite bind_ret.
  rewrite (bind_ok _ _ _ _ _ (emit_ok _ _)).
  rewrite range_seq by lia.
  set (w2 := World _ _ _).
  assert (heap w `prefix_of` heap w2) as P2 by done.
  destruct (for_each_update_run data a n rest (n - s) w2 s
              (prefix_deref _ _ _ _ P2 Ha) Hs ltac:(lia))
    as (outs & w3 & R3 & [P3 T3] & F).
  exists first, outs. eexists. exists w3.
  split; [exact R3|]. split; [done|]. split.
  { apply Forall2_length in F. by rewrite F, length_seq. }
  split.
  { rewrite T3. unfold w2. simpl. rewrite T, app_nil_r. by rewrite <- !app_assoc. }
  split; [by apply (prefix_deref _ _ _ _ P3)|].
  split; [done|]. apply (prefix_deref _ _ _ _ P3), (prefix_deref _ _ _ _ P2 Ha).
Qed.

End Playback.

(** The stack of the examples: the middle frame is frame 2, the mean
    projection is 8, 9, 10, 11 in float64 and the max projection is the
    last frame, in uint8; pixel 1 takes the values 1, 5, 9, 13, 17 and its
    maximum is 17.  The float64 stack of the examples: the max projection
    is 2.0, 0.25. *)
Lemma summarize_movie_projections_witness :
  let a := NdArray [5; 2; 2] Examples.counting_stack in
  let w := Examples.world_of Examples.counting_stack in
  let b := NdArray [2; 1; 2] Examples.float_stack in
  let wb := Examples.world_of Examples.float_stack in
  let two := IEEE.of_Z IEEE.binary64 2 in
  let minus_three := IEEE.of_Z IEEE.binary64 (-3) in
  deref (heap w) Examples.view_5x2x2 = Some a
  ∧ shape a = [5; 2; 2] ∧ 0 < 5
  ∧ frame_of a (5 / 2) = NdArray [2; 2] (IBuf uint8 [8; 9; 10; 11]%Z)
  ∧ mean_projection a
    = NdArray [2; 2] (FBuf float64 (map (IEEE.of_Z IEEE.binary64) [8; 9; 10; 11]%Z))
  ∧ max_projection a = NdArray [2; 2] (IBuf uint8 [16; 17; 18; 19]%Z)
  ∧ ∃ v1 v2 v7 v8 vm vx w',
      summarize_movie percentile_linear Examples.view_5x2x2 "previews" w = (Ok tt, w')
      ∧ deref (heap w') v1 = Some (stretch percentile_linear (frame_of a (5 / 2)) 1 99)
      ∧ deref (heap w') v2 = Some (stretch percentile_linear (frame_of a (5 / 2)) 1 99)
      ∧ deref (heap w') vm = Some (mean_projection a)
      ∧ deref (heap w') vx = Some (max_projection a)
      ∧ deref (heap w') v7 = Some (tiff_payload (mean_projection a))
      ∧ deref (heap w') v8 = Some (tiff_payload (max_projection a))
      ∧ int_maximum [1; 5; 9; 13; 17]%Z 17%Z
      ∧ deref (heap wb) Examples.view_2x1x2 = Some b
      ∧ shape b = [2; 1; 2] ∧ 0 < 2
      ∧ max_projection b = NdArray [1; 2] (FBuf float64 [two; Examples.quarter])
      ∧ float_maximum [two; Examples.quarter] two
      ∧ float_maximum [minus_three; Examples.quarter] Examples.quarter.
Proof.
  intros a w b wb two minus_three.
  split; [reflexivity|]. split; [reflexivity|]. split; [lia|].
  split; [reflexivity|]. split; [vm_compute; reflexivity|]. split; [reflexivity|].
  destruct (summarize_movie_projections percentile_linear w Examples.view_5x2x2
              a "previews" 5 2 2)
    as (v1 & v2 & v3 & v4 & v5 & v6 & v7 & v8 & vm & vx & w' & Hrun & _
        & D1 & D2 & Dm & _ & Dx & _ & _ & _ & _ & _ & D7 & D8 & Hmax);
    [reflexivity|reflexivity|lia|].
  destruct (summarize_movie_projections percentile_linear wb Examples.view_2x1x2
              b "previews" 2 1 2)
    as (u1 & u2 & u3 & u4 & u5 & u6 & u7 & u8 & um & ux & wb' & Hb);
    [reflexivity|reflexivity|lia|].
  do 14 apply proj2 in Hb. rename Hb into Hmaxb.
  exists v1, v2, v7, v8, vm, vx, w'.
  do 7 (split; [assumption|]).
  split; [exact (Hmax 1 ltac:(simpl; lia))|].
  split; [reflexivity|]. split; [reflexivity|]. split; [lia|].
  split; [vm_compute; reflexivity|].
  split; [exact (Hmaxb 0 ltac:(simpl; lia))|exact (Hmaxb 1 ltac:(simpl; lia))].
Defined.

(** A description that is absent and a metadata mapping that mentions
    "frames" only in a value: the script guesses TIME. *)
Lemma axis_heuristic_witness :
  let meta : gmap string tagvalue := {[ "ImageDescription" := TagText "frames=3" ]} in
  let w := Examples.world_of Examples.counting_stack in
  vshape Examples.view_5x2x2 = [5; 2; 2]
  ∧ axis_rule None meta = AxisGuessTime
  ∧ ∃ rest,
      trace (snd (main_block percentile_linear Examples.view_5x2x2 meta None w))
      = Print "Axis 0 is 5 planes. Could be time or z; we guess TIME." :: rest.
Proof.
  intros meta w. split; [reflexivity|]. split; [vm_compute; reflexivity|].
  destruct (axis_heuristic percentile_linear w Examples.view_5x2x2 meta None 5 2 2)
    as [[rest H] _]; [reflexivity|].
  exists rest. exact H.
Defined.

(** The stack of the examples played from frame 0 at 30 frames per second
    with [stop=0]: all 5 frames are drawn. *)
Lemma play_movie_stop_zero_witness :
  let a := NdArray [5; 2; 2] Examples.counting_stack in
  let w := Examples.world_of Examples.counting_stack in
  deref (heap w) Examples.view_5x2x2 = Some a
  ∧ shape a = [5; 2; 2] ∧ image_shape [2; 2] = true ∧ 0 < 5 ∧ 30%Z ≠ 0%Z
  ∧ ∃ first outs interval w',
      play_movie percentile_linear Examples.view_5x2x2 0 (Some 0%Z) 30 w = (Ok tt, w')
      ∧ length outs = 5
      ∧ trace w'
        = AxImshow first
          :: FuncAnimation [0; 1; 2; 3; 4]%Z interval
          :: zip_with
               (fun out t =>
                  SetArray out
                    ("Frame " +:+ Py.str_int (Z.of_nat t + 1) +:+ "/" +:+ Py.str_nat 5))
               outs [0; 1; 2; 3; 4].
Proof.
  intros a w.
  split; [reflexivity|]. split; [reflexivity|]. split; [reflexivity|].
  split; [lia|]. split; [lia|].
  destruct (proj2 (play_movie_stop_zero percentile_linear) w Examples.view_5x2x2
              a 5 [2; 2] 0 30%Z)
    as (first & outs & interval & w' & R & _ & L & T & _);
    [reflexivity|reflexivity|reflexivity|lia|lia|].
  exists first, outs, interval, w'.
  split; [exact R|]. split; [exact L|]. exact T.
Defined.

(** On the stack of the examples nothing of the stack is overwritten. *)
Lemma stack_never_written_witness :
  let a := NdArray [5; 2; 2] Examples.counting_stack in
  let w := Examples.world_of Examples.counting_stack in
  deref (heap w) Examples.view_5x2x2 = Some a
  ∧ shape a = [5; 2; 2] ∧ 0 < 5
  ∧ deref (heap (snd (summarize_movie percentile_linear Examples.view_5x2x2 "previews" w)))
      Examples.view_5x2x2 = Some a
  ∧ ∃ v1 v2 v3 v4 v5 v6 v7 v8 vm vx w',
      summarize_movie percentile_linear Examples.view_5x2x2 "previews" w = (Ok tt, w')
      ∧ deref (heap w') Examples.view_5x2x2 = Some a
      ∧ Forall (fun v => 1 ≤ vbuf v) [v1; v2; v3; v4; v5; v6; v7; v8; vm; vx].
Proof.
  intros a w.
  pose proof (stack_never_written percentile_linear) as (_ & H2 & _ & H4).
  split; [reflexivity|]. split; [reflexivity|]. split; [lia|].
  split; [apply H2; reflexivity|].
  destruct (H4 w Examples.view_5x2x2 a "previews" 5 2 2)
    as (v1 & v2 & v3 & v4 & v5 & v6 & v7 & v8 & vm & vx & w' & Hrun & _ & _ & _
        & Hd & Hf);
    [reflexivity|reflexivity|lia|].
  exists v1, v2, v3, v4, v5, v6, v7, v8, vm, vx, w'.
  split; [exact Hrun|]. split; [exact Hd|exact Hf].
Defined.

(** The flat image of the examples has equal percentiles and is stretched
    to zeros. *)
Lemma percentile_contrast_flat_witness :
  deref (heap (Examples.world_of Examples.flat_image)) Examples.view_2x2
  = Some (NdArray [2; 2] Examples.flat_image)
  ∧ npfloat_eqb (percentile_linear (NdArray [2; 2] Examples.flat_image) 99)
      (percentile_linear (NdArray [2; 2] Examples.flat_image) 1) = true
  ∧ ∃ out w',
      percentile_contrast percentile_linear Examples.view_2x2 1 99
        (Examples.world_of Examples.flat_image) = (Ok out, w')
      ∧ deref (heap w') out
        = Some (NdArray [2; 2] (FBuf float32 (replicate 4 IEEE.zero))).
Proof.
  split; [reflexivity|]. split; [vm_compute; reflexivity|].
  apply (percentile_contrast_flat percentile_linear
           (Examples.world_of Examples.flat_image) Examples.view_2x2
           (NdArray [2; 2] Examples.flat_image) 1 99).
  - reflexivity.
  - vm_compute; reflexivity.
Defined.

(** The two-level image has percentiles 0 and 10; its pixels are sent to
    0 and 1. *)
Lemma percentile_contrast_stretch_witness :
  deref (heap (Examples.world_of Examples.two_level_image)) Examples.view_2x2
  = Some (NdArray [2; 2] Examples.two_level_image)
  ∧ npfloat_eqb (percentile_linear (NdArray [2; 2] Examples.two_level_image) 99)
      (percentile_linear (NdArray [2; 2] Examples.two_level_image) 1) = false
  ∧ ∃ out w',
      percentile_contrast percentile_linear Examples.view_2x2 1 99
        (Examples.world_of Examples.two_level_image) = (Ok out, w')
      ∧ deref (heap w') out
        = Some (NdArray [2; 2]
                  (FBuf float64 [IEEE.zero; IEEE.zero;
                                 IEEE.one IEEE.binary64; IEEE.one IEEE.binary64])).
Proof.
  split; [reflexivity|]. split; [vm_compute; reflexivity|].
  destruct (percentile_contrast_stretch percentile_linear
              (Examples.world_of Examples.two_level_image) Examples.view_2x2
              (NdArray [2; 2] Examples.two_level_image) 1 99)
    as (out & w' & ys & Hrun & Hd & Hys & _).
  - reflexivity.
  - vm_compute; reflexivity.
  - exists out, w'. split; [exact Hrun|].
    rewrite Hd, Hys. vm_compute; reflexivity.
Defined.

(** C2 as stated fails on an image holding a NaN: the percentiles are NaN
    and compare different, and the output holds NaN, which is not between
    0 and 1. *)
Lemma percentile_contrast_nan_counterexample :
  let a := NdArray [1; 2] Examples.nan_image in
  deref (heap (Examples.world_of Examples.nan_image)) Examples.view_1x2 = Some a
  ∧ npfloat_eqb (percentile_linear a 99) (percentile_linear a 1) = false
  ∧ ∃ out w' ys,
      percentile_contrast percentile_linear Examples.view_1x2 1 99
        (Examples.world_of Examples.nan_image) = (Ok out, w')
      ∧ deref (heap w') out = Some (NdArray [1; 2] (FBuf float64 ys))
      ∧ ¬ Forall (fun y =>
            IEEE.leb (IEEE.of_Z IEEE.binary64 0) y = true
            ∧ IEEE.leb y (IEEE.of_Z IEEE.binary64 1) = true) ys.
Proof.
  split; [reflexivity|]. split; [vm_compute; reflexivity|].
  eexists _, _, [S754_nan; S754_nan]. split; [vm_compute; reflexivity|].
  split; [vm_compute; reflexivity|].
  intros H. apply Forall_inv in H as [H _]. discriminate H.
Qed.

(** *** Degenerate percentiles *)

Section Degenerate.

Variable percentile : ndarray -> Z -> npfloat.

(** A NaN percentile makes every stretched pixel NaN. *)
Lemma stretch_item_nan p_low p_high x :
  IEEE.is_nan (sc_val p_low) = true ∨ IEEE.is_nan (sc_val p_high) = true ->
  stretch_item p_low p_high x = S754_nan.
Proof.
  intros H. unfold stretch_item.
  assert (sc_val (npfloat_sub p_high p_low) = S754_nan) as ->.
  { unfold npfloat_sub. simpl.
    destruct H as [H|H]; apply IEEEFacts.is_nan_eq in H; rewrite H; simpl IEEE.round.
    - apply IEEEFacts.sub_nan_r.
    - apply IEEEFacts.sub_nan_l. }
  simpl IEEE.round. by rewrite IEEEFacts.div_nan_r.
Qed.

(** X2.  When either percentile is NaN (NumPy returns NaN as soon as the
    image holds one), [percentile_contrast] succeeds and every pixel of the
    image it returns is NaN: nothing guards the stretch against NaN. *)
Theorem percentile_contrast_nan w img a low high :
  deref (heap w) img = Some a ->
  IEEE.is_nan (sc_val (percentile a low)) = true
  ∨ IEEE.is_nan (sc_val (percentile a high)) = true ->
  ∃ out w' r ys,
    percentile_contrast percentile img low high w = (Ok out, w')
    ∧ deref (heap w') out = Some (NdArray (shape a) (FBuf r ys))
    ∧ r = stretch_dtype (percentile a low) (percentile a high)
    ∧ length ys = size_of (shape a)
    ∧ Forall (fun y => y = S754_nan) ys.
Proof.
  intros Ha Hnan.
  destruct (percentile_contrast_run percentile w img a low high Ha)
    as (out & w' & R & _ & _ & D & _).
  assert (npfloat_eqb (percentile a high) (percentile a low) = false) as E.
  { unfold npfloat_eqb.
    destruct Hnan as [H|H]; apply IEEEFacts.is_nan_eq in H; rewrite H; simpl IEEE.round.
    - apply IEEEFacts.eqb_nan_r.
    - apply IEEEFacts.eqb_nan_l. }
  rewrite (stretch_items percentile a low high E) in D.
  eexists out, w', _, _. split; [exact R|]. split; [exact D|]. split; [done|]. split.
  - rewrite length_map, NpFacts.length_to_floats. symmetry. exact (deref_wf _ _ _ Ha).
  - apply List.Forall_forall. intros y Hin.
    apply in_map_iff in Hin as (x & <- & _). by apply stretch_item_nan.
Qed.

(** X3.  Called with [low = high], [percentile_contrast] returns the
    all-zero float32 image whenever the percentile is a number: the two
    percentile values are then equal and the flat branch is taken. *)
Theorem percentile_contrast_same_percentile w img a q :
  deref (heap w) img = Some a ->
  valid (sc_dtype (percentile a q)) (sc_val (percentile a q)) = true ->
  IEEE.is_nan (sc_val (percentile a q)) = false ->
  ∃ out w',
    percentile_contrast percentile img q q w = (Ok out, w')
    ∧ deref (heap w') out
      = Some (NdArray (shape a)
                (FBuf float32 (replicate (size_of (shape a)) IEEE.zero))).
Proof.
  intros Ha Hv Hn.
  destruct (percentile_contrast_run percentile w img a q q Ha)
    as (out & w' & R & _ & _ & D & _).
  assert (npfloat_eqb (percentile a q) (percentile a q) = true) as E.
  { unfold npfloat_eqb. destruct (percentile a q) as [d v]. simpl in *.
    assert (promote_f d d = d) as -> by by destruct d.
    assert (IEEE.round (fmt d) v = v) as ->.
    { destruct v as [| | |s m e]; try done. by apply RoundFacts.round_canonical. }
    unfold IEEE.eqb, SFeqb. by rewrite IEEEFacts.compare_refl. }
  rewrite (stretch_flat percentile a q q E) in D.
  exists out, w'. split; [exact R|]. rewrite D.
  by rewrite (deref_wf _ _ _ Ha : size_of (shape a) = buf_len (items a)).
Qed.

End Degenerate.

(** The image of the examples that holds a NaN: both pixels come out NaN. *)
Lemma percentile_contrast_nan_witness :
  let a := NdArray [1; 2] Examples.nan_image in
  let w := Examples.world_of Examples.nan_image in
  deref (heap w) Examples.view_1x2 = Some a
  ∧ IEEE.is_nan (sc_val (percentile_linear a 1)) = true
  ∧ ∃ out w',
      percentile_contrast percentile_linear Examples.view_1x2 1 99 w = (Ok out, w')
      ∧ deref (heap w') out = Some (NdArray [1; 2] (FBuf float64 [S754_nan; S754_nan])).
Proof.
  intros a w. split; [reflexivity|]. split; [reflexivity|].
  destruct (percentile_contrast_nan percentile_linear w Examples.view_1x2 a 1 99)
    as (out & w' & r & ys & R & _); [reflexivity|left; reflexivity|].
  exists out, w'. split; [exact R|].
  vm_compute in R. injection R as <- <-. reflexivity.
Defined.

(** The 50th percentile taken twice on the image with two grey levels. *)
Lemma percentile_contrast_same_percentile_witness :
  let a := NdArray [2; 2] Examples.two_level_image in
  let w := Examples.world_of Examples.two_level_image in
  deref (heap w) Examples.view_2x2 = Some a
  ∧ valid (sc_dtype (percentile_linear a 50)) (sc_val (percentile_linear a 50)) = true
  ∧ IEEE.is_nan (sc_val (percentile_linear a 50)) = false
  ∧ ∃ out w',
      percentile_contrast percentile_linear Examples.view_2x2 50 50 w = (Ok out, w')
      ∧ deref (heap w') out
        = Some (NdArray [2; 2] (FBuf float32 (replicate 4 IEEE.zero))).
Proof.
  intros a w. split; [reflexivity|]. split; [reflexivity|]. split; [reflexivity|].
  destruct (percentile_contrast_same_percentile percentile_linear w Examples.view_2x2 a 50)
    as (out & w' & R & D); [reflexivity|reflexivity|reflexivity|].
  exists out, w'. split; [exact R|exact D].
Defined.

(** *** Saving: target dtypes, round trips and saturation *)


(** X4.  [save_as_tiff] with any target dtype writes one file.  An array
    that already has the target dtype is written as it is.  Otherwise a
    floating-point array is always scaled by 65535, clipped and written as
    uint16, whatever the target dtype asked for, and an integer array is
    cast to the target dtype. *)
Theorem save_as_tiff_target w arr a path t :
  deref (heap w) arr = Some a ->
  ∃ payload b w',
    save_as_tiff arr path t w = (Ok tt, w')
    ∧ trace w' = trace w ++ [Imwrite path payload]
    ∧ files w' = <[path := Tiff b ∅ None]> (files w)
    ∧ deref (heap w') payload = Some b
    ∧ b = (if decide (dtype_of a = t) then a
           else match items a with
                | FBuf f xs => NdArray (shape a) (IBuf uint16 (map (rescale_item f) xs))
                | IBuf _ _ => astype t a
                end).
Proof.
  intros Ha. pose proof (deref_wf _ _ _ Ha) as Hwf.
  unfold save_as_tiff, np_dtype.
  rewrite (bind_ok _ _ w w (dtype_of a)); cycle 1.
  { by rewrite (bind_ok _ _ _ _ _ (load_ok _ _ _ Ha)). }
  destruct (decide (dtype_of a = t)) as [Heq|Hne].
  { rewrite decide_False by (intros H; by apply H).
    rewrite (bind_ok _ _ w w arr) by done.
    rewrite (tiff_imwrite_ok _ _ _ _ Ha).
    by eexists arr, a, _. }
  rewrite decide_True by done.
  destruct a as [sh [i l | f xs]]; unfold dtype_of in *; cbn [buf_dtype items shape] in *.
  - replace (kind (DInt i) =? "f")%string with false by by destruct i.
    set (b := astype t (NdArray sh (IBuf i l))).
    assert (yields (np_astype arr t) w [items b]
              (View (length (heap w)) 0 (shape b)) b) as Hy.
    { apply (yields_op (astype t)); [done|by apply wf_astype]. }
    rewrite (yields_then _ _ _ _ _ _ Hy).
    destruct Hy as (_ & Hd & _).
    rewrite (tiff_imwrite_ok path _ (grow w [items b]) _ Hd).
    by eexists _, b, _.
  - replace (kind (DFloat f) =? "f")%string with true by done.
    set (a := NdArray sh (FBuf f xs)) in *.
    set (x := mul_pyfloat a (IEEE.of_Z IEEE.binary64 65535)).
    set (c := clip 0 65535 x).
    set (b := astype (DInt uint16) c).
    assert (wf x) as Hx by by apply wf_mul_pyfloat.
    assert (wf c) as Hc by by apply wf_clip.
    assert (wf b) as Hb by by apply wf_astype.
    assert (∃ out, yields
              (np_mul_pyfloat arr (IEEE.of_Z IEEE.binary64 65535) ≫= fun scaled =>
               np_clip scaled 0 65535 None ≫= fun clipped =>
               np_astype clipped (DInt uint16))
              w ([items x] ++ [items c] ++ [items b]) out b) as [out Hy].
    { eexists. eapply yields_bind.
      - by apply (yields_op (fun y => mul_pyfloat y (IEEE.of_Z IEEE.binary64 65535))).
      - intros Hd. eapply yields_bind.
        + by apply (yields_op (clip 0 65535)).
        + intros Hd'. by apply (yields_op (astype (DInt uint16))). }
    rewrite (yields_then _ _ _ _ _ _ Hy).
    destruct Hy as (_ & Hd & Hl).
    rewrite (tiff_imwrite_ok path _ (grow w ([items x] ++ [items c] ++ [items b])) _ Hd).
    eexists out, b, _. repeat split; try done. apply rescale_payload.
Qed.

(** A float64 image holding 0.25 saved with target dtype float32: the file
    holds the 16-bit value 16383. *)
Lemma save_as_tiff_target_witness :
  deref (heap (Examples.world_of Examples.quarter_image)) Examples.view_1x1
  = Some (NdArray [1; 1] Examples.quarter_image)
  ∧ ∃ payload w',
      save_as_tiff Examples.view_1x1 "out.tif" (DFloat float32)
        (Examples.world_of Examples.quarter_image) = (Ok tt, w')
      ∧ files w' !! "out.tif"
        = Some (Tiff (NdArray [1; 1] (IBuf uint16 [16383%Z])) ∅ None)
      ∧ deref (heap w') payload = Some (NdArray [1; 1] (IBuf uint16 [16383%Z])).
Proof.
  split; [reflexivity|].
  destruct (save_as_tiff_target (Examples.world_of Examples.quarter_image)
              Examples.view_1x1 (NdArray [1; 1] Examples.quarter_image) "out.tif"
              (DFloat float32))
    as (payload & b & w' & R & _ & F & D & ->); [reflexivity|].
  exists payload, w'. split; [exact R|]. split; [|exact D].
  rewrite F. apply lookup_insert_eq.
Defined.

Lemma wrap_uint16_id l :
  Forall (fun z => 0 <= z < 65536)%Z l -> map (wrap uint16) l = l.
Proof.
  induction 1 as [|z l Hz _ IH]; [done|]. simpl. rewrite IH. f_equal.
  unfold wrap. simpl. apply Z.mod_small. lia.
Qed.

(** X5.  An integer array whose items lie in 0..65535 saved as a 16-bit
    TIFF and read back gives a new uint16 array with the same shape and the
    same items; the array that was saved is left as it was. *)
Theorem save_as_tiff_int_roundtrip w arr sh i l path :
  deref (heap w) arr = Some (NdArray sh (IBuf i l)) ->
  Forall (fun z => 0 <= z < 65536)%Z l ->
  ∃ w1 data meta desc w2,
    save_as_tiff arr path (DInt uint16) w = (Ok tt, w1)
    ∧ load_tiff_stack path w1 = (Ok (data, meta, desc), w2)
    ∧ deref (heap w2) data = Some (NdArray sh (IBuf uint16 l))
    ∧ length (heap w) ≤ vbuf data
    ∧ deref (heap w2) arr = Some (NdArray sh (IBuf i l)).
Proof.
  intros Ha Hl.
  destruct (save_as_tiff_run w arr _ path Ha)
    as (payload & w1 & Hrun & [P1 _] & Hf & Hd & _).
  assert (tiff_payload (NdArray sh (IBuf i l)) = NdArray sh (IBuf uint16 l)) as Hp.
  { unfold tiff_payload. simpl. case_decide as Hi; [by rewrite Hi|].
    by rewrite wrap_uint16_id. }
  rewrite Hp in Hf, Hd.
  destruct (load_tiff_stack_ok w1 path (Tiff (NdArray sh (IBuf uint16 l)) ∅ None))
    as (data & Hload & Hdata).
  { by rewrite Hf, lookup_insert_eq. }
  { exact (deref_wf _ _ _ Hd). }
  eexists w1, data, _, _, _.
  split; [exact Hrun|]. split; [exact Hload|]. split; [exact Hdata|].
  split.
  - unfold load_tiff_stack, tiff_open in Hload.
    rewrite (bind_ok _ _ w1 w1 (Tiff (NdArray sh (IBuf uint16 l)) ∅ None)) in Hload
      by by rewrite Hf, lookup_insert_eq.
    rewrite (bind_ok _ _ _ _ _ (alloc_ok w1 _)) in Hload.
    injection Hload as <-. simpl. by apply prefix_length_le.
  - simpl. apply deref_app. by apply (prefix_deref _ _ _ _ P1).
Qed.

(** The uint8 stack of the examples comes back as uint16 with its items. *)
Lemma save_as_tiff_int_roundtrip_witness :
  let w := Examples.world_of Examples.counting_stack in
  let l := [0; 1; 2; 3; 4; 5; 6; 7; 8; 9; 10; 11; 12; 13; 14; 15; 16; 17; 18; 19]%Z in
  deref (heap w) Examples.view_5x2x2 = Some (NdArray [5; 2; 2] (IBuf uint8 l))
  ∧ Forall (fun z => 0 <= z < 65536)%Z l
  ∧ ∃ w1 data meta desc w2,
      save_as_tiff Examples.view_5x2x2 "out.tif" (DInt uint16) w = (Ok tt, w1)
      ∧ load_tiff_stack "out.tif" w1 = (Ok (data, meta, desc), w2)
      ∧ deref (heap w2) data = Some (NdArray [5; 2; 2] (IBuf uint16 l)).
Proof.
  intros w l.
  assert (Forall (fun z => 0 <= z < 65536)%Z l) as Hl
    by (repeat constructor; lia).
  split; [reflexivity|]. split; [exact Hl|].
  destruct (save_as_tiff_int_roundtrip w Examples.view_5x2x2 [5; 2; 2] uint8 l "out.tif")
    as (w1 & data & meta & desc & w2 & R & L & D & _); [reflexivity|exact Hl|].
  by exists w1, data, meta, desc, w2.
Defined.

Lemma rescale_item_range f v : (0 <= rescale_item f v < 65536)%Z.
Proof. unfold rescale_item, wrap. simpl. apply Z.mod_pos_bound. lia. Qed.

Lemma rescale_items_outside f xs :
  Forall (fun v => valid f v = true) xs ->
  Forall2 (fun v y =>
             (IEEE.leb (IEEE.of_Z (fmt f) 1) v = true -> y = 65535%Z)
             ∧ (IEEE.leb v (IEEE.of_Z (fmt f) 0) = true -> y = 0%Z)
             ∧ (0 <= y < 65536)%Z)
    xs (map (rescale_item f) xs).
Proof.
  induction 1 as [|v xs Hv _ IH]; simpl; constructor; [|done].
  destruct (RoundFacts.rescale_item_outside f v Hv) as [H1 H0].
  split; [done|]. split; [done|]. apply rescale_item_range.
Qed.

(** X6.  Saving a floating-point array as a 16-bit TIFF saturates outside
    the unit interval: every item that is at least 1 (plus infinity
    included) is stored as 65535, every item that is at most 0 (minus
    infinity included) as 0, and every stored value lies in 0..65535. *)
Theorem save_as_tiff_saturates w arr sh f xs path :
  deref (heap w) arr = Some (NdArray sh (FBuf f xs)) ->
  Forall (fun v => valid f v = true) xs ->
  ∃ w' ys,
    save_as_tiff arr path (DInt uint16) w = (Ok tt, w')
    ∧ files w' !! path = Some (Tiff (NdArray sh (IBuf uint16 ys)) ∅ None)
    ∧ Forall2 (fun v y =>
                 (IEEE.leb (IEEE.of_Z (fmt f) 1) v = true -> y = 65535%Z)
                 ∧ (IEEE.leb v (IEEE.of_Z (fmt f) 0) = true -> y = 0%Z)
                 ∧ (0 <= y < 65536)%Z)
        xs ys.
Proof.
  intros Ha Hv.
  destruct (save_as_tiff_run w arr _ path Ha) as (payload & w' & R & _ & F & _).
  exists w', (map (rescale_item f) xs).
  split; [exact R|]. split; [by rewrite F, lookup_insert_eq|].
  by apply rescale_items_outside.
Qed.

(** The items 2.0 and -3.0 are stored as 65535 and 0. *)
Lemma save_as_tiff_saturates_witness :
  let w := Examples.world_of Examples.out_of_range_image in
  let xs := [IEEE.of_Z IEEE.binary64 2; IEEE.of_Z IEEE.binary64 (-3)] in
  deref (heap w) Examples.view_1x2 = Some (NdArray [1; 2] (FBuf float64 xs))
  ∧ Forall (fun v => valid float64 v = true) xs
  ∧ ∃ w',
      save_as_tiff Examples.view_1x2 "out.tif" (DInt uint16) w = (Ok tt, w')
      ∧ files w' !! "out.tif"
        = Some (Tiff (NdArray [1; 2] (IBuf uint16 [65535; 0]%Z)) ∅ None).
Proof.
  intros w xs.
  assert (Forall (fun v => valid float64 v = true) xs) as Hv
    by (repeat constructor).
  split; [reflexivity|]. split; [exact Hv|].
  destruct (save_as_tiff_saturates w Examples.view_1x2 [1; 2] float64 xs "out.tif")
    as (w' & ys & R & F & _); [reflexivity|exact Hv|].
  exists w'. split; [exact R|].
  vm_compute in R. injection R as <-. reflexivity.
Defined.

(** *** What a summary leaves behind *)

Section SummaryFiles.

Variable percentile : ndarray -> Z -> npfloat.


(** X8.  Running [summarize_movie] twice on the same stack and directory
    overwrites: the files after the second run are the files after the
    first, the second run shows and saves under the same titles and paths,
    and what it hands over holds the same arrays. *)
Theorem summarize_movie_twice w data a dir n h c :
  deref (heap w) data = Some a -> shape a = [n; h; c] -> 0 < n ->
  ∃ w1 w2 v1 v2 v3 v4 v5 v6 v7 v8 u1 u2 u3 u4 u5 u6 u7 u8,
    summarize_movie percentile data dir w = (Ok tt, w1)
    ∧ summarize_movie percentile data dir w1 = (Ok tt, w2)
    ∧ files w2 = files w1
    ∧ trace w1 = trace w ++ summary_trace dir n v1 v2 v3 v4 v5 v6 v7 v8
    ∧ trace w2 = trace w1 ++ summary_trace dir n u1 u2 u3 u4 u5 u6 u7 u8
    ∧ Forall2 (fun v u => ∃ b, deref (heap w2) v = Some b ∧ deref (heap w2) u = Some b)
        [v1; v2; v3; v4; v5; v6; v7; v8] [u1; u2; u3; u4; u5; u6; u7; u8].
Proof.
  intros Ha Hs Hn.
  destruct (summarize_movie_run percentile w data a dir n h c Ha Hs Hn)
    as (v1 & v2 & v3 & v4 & v5 & v6 & v7 & v8 & vm & vx & w1 & R1 & [P1 T1] & F1
        & D1 & D2 & D3 & D4 & D5 & D6 & D7 & D8 & _).
  destruct (summarize_movie_run percentile w1 data a dir n h c
              (prefix_deref _ _ _ _ P1 Ha) Hs Hn)
    as (u1 & u2 & u3 & u4 & u5 & u6 & u7 & u8 & um & ux & w2 & R2 & [P2 T2] & F2
        & E1 & E2 & E3 & E4 & E5 & E6 & E7 & E8 & _).
  exists w1, w2, v1, v2, v3, v4, v5, v6, v7, v8, u1, u2, u3, u4, u5, u6, u7, u8.
  split; [exact R1|]. split; [exact R2|]. split.
  { rewrite F2, F1. apply map_eq. intros p.
    destruct (decide (p = Py.path_join dir "max_projection.tif")) as [->|N1];
      [by rewrite !lookup_insert_eq|].
    rewrite !(lookup_insert_ne _ (Py.path_join dir "max_projection.tif")) by done.
    destruct (decide (p = Py.path_join dir "mean_projection.tif")) as [->|N2];
      [by rewrite !lookup_insert_eq|].
    by rewrite !lookup_insert_ne. }
  split; [exact T1|]. split; [exact T2|].
  repeat (constructor;
          [eexists; split; [eapply (prefix_deref _ _ _ _ P2); eassumption|eassumption]|]).
  constructor.
Qed.

(** X9.  On an array with fewer than three axes, or with an empty leading
    axis, [summarize_movie] raises [IndexError] when it takes the middle
    frame: the directory has been created by then, and nothing is shown or
    saved. *)
Theorem summarize_movie_index_error w data dir :
  length (vshape data) < 3 ∨ head (vshape data) = Some 0 ->
  summarize_movie percentile data dir w
  = (Raise IndexError, World (heap w) (files w) (trace w ++ [Mkdir dir])).
Proof.
  intros H. unfold summarize_movie.
  rewrite (bind_ok _ _ _ _ _ (emit_ok _ _)).
  set (w0 := World _ _ _).
  destruct (vshape data) as [|n rest] eqn:Hs.
  { apply bind_raise. unfold np_shape0. by rewrite Hs. }
  rewrite (bind_ok _ _ w0 w0 n) by (unfold np_shape0; by rewrite Hs).
  apply bind_raise. unfold np_index0_full2. rewrite Hs.
  destruct rest as [|h [|c rest]]; [done|done|].
  destruct H as [H|H]; [simpl in H; lia|]. injection H as ->.
  unfold np_index0. rewrite Hs. by apply bind_raise.
Qed.

(** X12.  The script body on a stack of [n > 0] frames of [h] by [c]
    pixels prints one line about the leading axis and then summarizes the
    stack into the directory [previews], leaving the two projection TIFFs
    there; on data that does not have three axes it only prints
    "Unexpected dimensionality: k" and ends normally. *)
Theorem main_block_run :
  (∀ w data a meta desc n h c,
     deref (heap w) data = Some a -> shape a = [n; h; c] -> 0 < n ->
     ∃ v1 v2 v3 v4 v5 v6 v7 v8 w',
       main_block percentile data meta desc w = (Ok tt, w')
       ∧ trace w'
         = trace w ++ Print (axis_message (axis_rule desc meta) n)
                   :: summary_trace "previews" n v1 v2 v3 v4 v5 v6 v7 v8
       ∧ files w'
         = <[ "previews/max_projection.tif" :=
                Tiff (tiff_payload (max_projection a)) ∅ None ]>
             (<[ "previews/mean_projection.tif" :=
                   Tiff (tiff_payload (mean_projection a)) ∅ None ]> (files w)))
  ∧ (∀ w data meta desc,
       length (vshape data) ≠ 3 ->
       main_block percentile data meta desc w
       = (Ok tt,
          World (heap w) (files w)
            (trace w ++ [Print ("Unexpected dimensionality: "
                                +:+ Py.str_nat (length (vshape data)))]))).
Proof.
  split.
  - intros w data a meta desc n h c Ha Hs Hn.
    pose proof (deref_shape _ _ _ Ha) as Hv. rewrite Hs in Hv.
    unfold main_block. rewrite <- Hv. simpl length.
    rewrite decide_True by done.
    rewrite (bind_ok _ _ _ _ _ (np_shape0_ok w data a n [h; c] Ha Hs)).
    set (line := axis_message (axis_rule desc meta) n).
    set (w0 := World (heap w) (files w) (trace w ++ [Print line])).
    rewrite (bind_ok _ _ w w0 tt).
    2:{ unfold w0, line. rewrite axis_rule_line.
        destruct (_ || _); [done|]. by destruct (Py.contains "slices" _). }
    destruct (summarize_movie_run percentile w0 data a "previews" n h c Ha Hs Hn)
      as (v1 & v2 & v3 & v4 & v5 & v6 & v7 & v8 & vm & vx & w' & R & [P T] & F & _).
    exists v1, v2, v3, v4, v5, v6, v7, v8, w'.
    split; [exact R|]. split; [|exact F].
    rewrite T. unfold w0. simpl. by rewrite <- app_assoc.
  - intros w data meta desc Hd. unfold main_block. by rewrite decide_False.
Qed.

Lemma valid_mean_items f k n xs :
  (0 < IEEE.fprec f)%Z ->
  Forall (fun v => valid_binary (IEEE.fprec f) (IEEE.femax f) v = true)
    (mean_items f k n xs).
Proof.
  intros Hp. unfold mean_items. apply List.Forall_forall. intros v Hin.
  apply in_map_iff in Hin as (j & <- & _).
  by apply RoundFacts.div_valid.
Qed.

(** X10.  The file [mean_projection.tif] written by [summarize_movie] is
    the mean projection scaled as if it lay in the unit interval: every
    pixel whose mean is at least 1 is stored as 65535 and every pixel whose
    mean is at most 0 as 0.  The mean of an integer stack is float64, so its
    file is saturated wherever the mean reaches 1. *)
Theorem mean_tiff_saturates w data a dir n h c :
  deref (heap w) data = Some a -> shape a = [n; h; c] -> 0 < n ->
  let r := mean_dtype (dtype_of a) in
  ∃ w' vs ys,
    summarize_movie percentile data dir w = (Ok tt, w')
    ∧ items (mean_projection a) = FBuf r vs
    ∧ files w' !! Py.path_join dir "mean_projection.tif"
      = Some (Tiff (NdArray [h; c] (IBuf uint16 ys)) ∅ None)
    ∧ Forall2 (fun v y =>
                 (IEEE.leb (IEEE.of_Z (fmt r) 1) v = true -> y = 65535%Z)
                 ∧ (IEEE.leb v (IEEE.of_Z (fmt r) 0) = true -> y = 0%Z)
                 ∧ (0 <= y < 65536)%Z)
        vs ys.
Proof.
  intros Ha Hs Hn r.
  destruct (summarize_movie_run percentile w data a dir n h c Ha Hs Hn)
    as (v1 & v2 & v3 & v4 & v5 & v6 & v7 & v8 & vm & vx & w' & R & _ & F & _).
  set (vs := mean_items (fmt r) (size_of (tail (shape a))) (hd 0 (shape a))
               (to_floats (fmt r) (items a))).
  exists w', vs, (map (rescale_item r) vs).
  split; [exact R|]. split; [reflexivity|]. split.
  - rewrite F, lookup_insert_ne, lookup_insert_eq; cycle 1.
    { intros H. apply PyFacts.path_join_inj in H. discriminate H. }
    unfold tiff_payload, mean_projection. cbn [items shape]. unfold vs.
    by rewrite Hs.
  - apply rescale_items_outside. apply valid_mean_items. by destruct r.
Qed.

End SummaryFiles.


Lemma summarize_movie_twice_witness :
  let a := NdArray [5; 2; 2] Examples.counting_stack in
  let w := Examples.world_of Examples.counting_stack in
  deref (heap w) Examples.view_5x2x2 = Some a ∧ shape a = [5; 2; 2] ∧ 0 < 5
  ∧ ∃ w1 w2,
      summarize_movie percentile_linear Examples.view_5x2x2 "previews" w = (Ok tt, w1)
      ∧ summarize_movie percentile_linear Examples.view_5x2x2 "previews" w1 = (Ok tt, w2)
      ∧ files w2 = files w1.
Proof.
  intros a w. split; [reflexivity|]. split; [reflexivity|]. split; [lia|].
  destruct (summarize_movie_twice percentile_linear w Examples.view_5x2x2 a
              "previews" 5 2 2)
    as (w1 & w2 & v1 & v2 & v3 & v4 & v5 & v6 & v7 & v8
        & u1 & u2 & u3 & u4 & u5 & u6 & u7 & u8 & R1 & R2 & F & _);
    [reflexivity|reflexivity|lia|].
  exists w1, w2. split; [exact R1|]. split; [exact R2|exact F].
Defined.

(** A two-dimensional image is not a stack. *)
Lemma summarize_movie_index_error_witness :
  let w := Examples.world_of Examples.flat_image in
  length (vshape Examples.view_2x2) < 3
  ∧ summarize_movie percentile_linear Examples.view_2x2 "previews" w
    = (Raise IndexError, World (heap w) (files w) [Mkdir "previews"]).
Proof.
  intros w. split; [simpl; lia|].
  apply (summarize_movie_index_error percentile_linear w Examples.view_2x2 "previews").
  left. simpl. lia.
Defined.

(** The mean projection 8, 9, 10, 11 of the stack of the examples. *)
Lemma mean_tiff_saturates_witness :
  let a := NdArray [5; 2; 2] Examples.counting_stack in
  let w := Examples.world_of Examples.counting_stack in
  deref (heap w) Examples.view_5x2x2 = Some a ∧ shape a = [5; 2; 2] ∧ 0 < 5
  ∧ ∃ w',
      summarize_movie percentile_linear Examples.view_5x2x2 "previews" w = (Ok tt, w')
      ∧ items (mean_projection a)
        = FBuf float64 (map (IEEE.of_Z IEEE.binary64) [8; 9; 10; 11]%Z)
      ∧ files w' !! "previews/mean_projection.tif"
        = Some (Tiff (NdArray [2; 2] (IBuf uint16 [65535; 65535; 65535; 65535]%Z)) ∅ None).
Proof.
  intros a w. split; [reflexivity|]. split; [reflexivity|]. split; [lia|].
  destruct (mean_tiff_saturates percentile_linear w Examples.view_5x2x2 a
              "previews" 5 2 2)
    as (w' & vs & ys & R & Hi & F & H); [reflexivity|reflexivity|lia|].
  exists w'. split; [exact R|]. split; [vm_compute; reflexivity|].
  vm_compute in Hi. injection Hi as <-.
  repeat match goal with
         | H : Forall2 _ (_ :: _) _ |- _ =>
             apply Forall2_cons_inv_l in H as (? & ? & [? _] & ? & ->)
         | H : Forall2 _ [] _ |- _ => apply Forall2_nil_inv_l in H as ->
         end.
  etrans; [exact F|].
  repeat match goal with
         | H : _ = true -> ?y = 65535%Z |- _ => rewrite (H eq_refl); clear H
         end.
  reflexivity.
Defined.

(** The stack of the examples described as 5 frames. *)
Lemma main_block_run_witness :
  let a := NdArray [5; 2; 2] Examples.counting_stack in
  let w := Examples.world_of Examples.counting_stack in
  deref (heap w) Examples.view_5x2x2 = Some a ∧ shape a = [5; 2; 2] ∧ 0 < 5
  ∧ ∃ v1 v2 v3 v4 v5 v6 v7 v8 w',
      main_block percentile_linear Examples.view_5x2x2 ∅ (Some "images=5 Frames=5") w
      = (Ok tt, w')
      ∧ trace w'
        = Print "Interpreting axis 0 (5) as TIME (T)."
          :: summary_trace "previews" 5 v1 v2 v3 v4 v5 v6 v7 v8.
Proof.
  intros a w. split; [reflexivity|]. split; [reflexivity|]. split; [lia|].
  destruct (proj1 (main_block_run percentile_linear) w Examples.view_5x2x2 a ∅
              (Some "images=5 Frames=5") 5 2 2)
    as (v1 & v2 & v3 & v4 & v5 & v6 & v7 & v8 & w' & R & T & _);
    [reflexivity|reflexivity|lia|].
  exists v1, v2, v3, v4, v5, v6, v7, v8, w'. split; [exact R|exact T].
Defined.

(** *** Playback ranges and failures *)

Section PlaybackRange.

Variable percentile : ndarray -> Z -> npfloat.


(** The first lines of [play_movie]: the frame range is fixed and the
    frame at [start] is stretched and drawn. *)
Lemma play_movie_first w data a n rest s stop fps :
  deref (heap w) data = Some a -> shape a = n :: rest ->
  image_shape rest = true -> s < n ->
  let z := match stop with
           | None => Z.of_nat n
           | Some z => if (z =? 0)%Z then Z.of_nat n else z
           end in
  ∃ first w1,
    advances w w1 [AxImshow first] ∧ files w1 = files w
    ∧ deref (heap w1) first = Some (stretch percentile (frame_of a s) 1 99)
    ∧ play_movie percentile data (Z.of_nat s) stop fps w
      = (of_option ZeroDivisionError (Py.int_truediv 1000 fps) ≫= fun interval =>
         emit (FuncAnimation (Py.range (Z.of_nat s) z) interval) ≫= fun _ =>
         for_each (update percentile data) (Py.range (Z.of_nat s) z)) w1.
Proof.
  intros Ha Hs Him Hsn z.
  pose proof (deref_index0 _ _ _ _ _ _ Ha Hs Hsn) as Hf.
  destruct (percentile_contrast_run percentile w _ _ 1 99 Hf)
    as (first & w1 & R & [P T] & F & D & _).
  exists first, (World (heap w1) (files w1) (trace w1 ++ [AxImshow first])).
  split; [split; [done|simpl; by rewrite T, app_nil_r]|].
  split; [done|]. split; [done|].
  unfold play_movie.
  rewrite (bind_ok _ _ w w z); cycle 1.
  { unfold stop_or_length, z. destruct stop as [z0|].
    - destruct (z0 =? 0)%Z; [|done].
      by rewrite (bind_ok _ _ _ _ _ (np_shape0_ok w data a n rest Ha Hs)).
    - by rewrite (bind_ok _ _ _ _ _ (np_shape0_ok w data a n rest Ha Hs)). }
  rewrite (bind_ok _ _ _ _ _ (np_index0_ok w data a n rest s Ha Hs Hsn)).
  rewrite (bind_ok _ _ _ _ _ R).
  rewrite (bind_ok _ _ w1 w1 tt); cycle 1.
  { eapply plt_check_ok; [exact D|]. rewrite shape_stretch. unfold frame_of. simpl.
    by rewrite Hs. }
  by rewrite (bind_ok _ _ _ _ _ (emit_ok _ _)).
Qed.


(** X14.  With [fps = 0] the interval [1000 / fps] cannot be computed:
    [play_movie] raises [ZeroDivisionError] after the frame at [start] was
    drawn and before any animation is created, whatever [stop] is. *)
Theorem play_movie_zero_fps w data a n rest s stop :
  deref (heap w) data = Some a -> shape a = n :: rest ->
  image_shape rest = true -> s < n ->
  ∃ first w',
    play_movie percentile data (Z.of_nat s) stop 0 w = (Raise ZeroDivisionError, w')
    ∧ trace w' = trace w ++ [AxImshow first]
    ∧ files w' = files w
    ∧ deref (heap w') first = Some (stretch percentile (frame_of a s) 1 99).
Proof.
  intros Ha Hs Him Hsn.
  destruct (play_movie_first w data a n rest s stop 0 Ha Hs Him Hsn)
    as (first & w1 & [P1 T1] & F1 & D1 & ->).
  by exists first, w1.
Qed.

(** X15.  A [start] outside the stack ([start >= n] or [start < -n], so any
    [start] for an empty stack) makes [data[start]] raise [IndexError]: no
    image is drawn, no animation is created, and no array or file changes. *)
Theorem play_movie_start_out_of_range w data n rest start stop fps :
  vshape data = n :: rest ->
  (Z.of_nat n <= start)%Z ∨ (start < - Z.of_nat n)%Z ->
  play_movie percentile data start stop fps w = (Raise IndexError, w).
Proof.
  intros Hs Hr. unfold play_movie.
  assert (∃ z, stop_or_length stop data w = (Ok z, w)) as [z Hz].
  { unfold stop_or_length, np_shape0. rewrite Hs. simpl.
    destruct stop as [z0|]; [destruct (z0 =? 0)%Z|]; by eexists. }
  rewrite (bind_ok _ _ _ _ _ Hz).
  apply bind_raise. unfold np_index0. rewrite Hs.
  apply bind_raise. unfold Py.norm_index.
  destruct (0 <=? start)%Z eqn:E0.
  - replace (start <? Z.of_nat n)%Z with false; [done|].
    symmetry. apply Z.ltb_ge. apply Z.leb_le in E0. lia.
  - replace (- Z.of_nat n <=? start)%Z with false; [done|].
    symmetry. apply Z.leb_gt. apply Z.leb_gt in E0. lia.
Qed.

End PlaybackRange.


Lemma play_movie_zero_fps_witness :
  let a := NdArray [5; 2; 2] Examples.counting_stack in
  let w := Examples.world_of Examples.counting_stack in
  deref (heap w) Examples.view_5x2x2 = Some a ∧ shape a = [5; 2; 2]
  ∧ image_shape [2; 2] = true ∧ 0 < 5
  ∧ ∃ first w',
      play_movie percentile_linear Examples.view_5x2x2 0 None 0 w
      = (Raise ZeroDivisionError, w')
      ∧ trace w' = [AxImshow first].
Proof.
  intros a w.
  split; [reflexivity|]. split; [reflexivity|]. split; [reflexivity|]. split; [lia|].
  destruct (play_movie_zero_fps percentile_linear w Examples.view_5x2x2
              a 5 [2; 2] 0 None)
    as (first & w' & R & T & _); [reflexivity|reflexivity|reflexivity|lia|].
  exists first, w'. split; [exact R|exact T].
Defined.

Lemma play_movie_start_out_of_range_witness :
  let w := Examples.world_of Examples.counting_stack in
  vshape Examples.view_5x2x2 = [5; 2; 2] ∧ (Z.of_nat 5 <= 5)%Z
  ∧ play_movie percentile_linear Examples.view_5x2x2 5 None 30 w = (Raise IndexError, w).
Proof.
  intros w. split; [reflexivity|]. split; [lia|].
  apply (play_movie_start_out_of_range percentile_linear w Examples.view_5x2x2
           5 [2; 2] 5%Z None 30%Z); [reflexivity|left; lia].
Defined.

(** *** Functions that only read and display *)

Section ReadOnly.

Variable percentile : ndarray -> Z -> npfloat.

Lemma keeps_files_percentile_contrast img low high :
  keeps_files (percentile_contrast percentile img low high).
Proof.
  unfold percentile_contrast, np_percentile2.
  apply keeps_files_bind.
  { apply keeps_files_bind; [apply keeps_files_load|intros; apply keeps_files_ret]. }
  intros [p_low p_high].
  apply keeps_files_bind; [|intros; apply (keeps_files_load_alloc (clip 0 1))].
  destruct (npfloat_eqb p_high p_low).
  - apply (keeps_files_load_alloc (zeros_like (DFloat float32))).
  - apply keeps_files_bind;
      [apply (keeps_files_load_alloc (astype (DFloat float32)))|intros x].
    apply keeps_files_bind;
      [apply (keeps_files_load_alloc (fun y => sub_scalar y p_low))|intros num].
    apply (keeps_files_load_alloc (fun y => div_scalar y (npfloat_sub p_high p_low))).
Qed.

Lemma keeps_files_plt_check img : keeps_files (plt_check img).
Proof.
  unfold plt_check.
  destruct (image_shape _); [apply keeps_files_ret|apply keeps_files_raise].
Qed.

Lemma keeps_files_show_frame frame title :
  keeps_files (show_frame percentile frame title).
Proof.
  unfold show_frame.
  apply keeps_files_bind; [apply keeps_files_percentile_contrast|intros].
  apply keeps_files_bind; [apply keeps_files_plt_check|intros; by apply keeps_files_emit].
Qed.

Lemma keeps_files_update data i : keeps_files (update percentile data i).
Proof.
  unfold update.
  apply keeps_files_bind; [apply keeps_files_np_index0|intros].
  apply keeps_files_bind; [apply keeps_files_percentile_contrast|intros].
  apply keeps_files_bind; [apply keeps_files_of_option|intros; by apply keeps_files_emit].
Qed.

Lemma keeps_files_for_each {A : Type} (f : A -> M unit) l :
  (∀ x, keeps_files (f x)) -> keeps_files (for_each f l).
Proof.
  intros Hf. induction l as [|x l IH]; [apply keeps_files_ret|].
  simpl. apply keeps_files_bind; [apply Hf|by intros].
Qed.

Lemma keeps_files_stop_or_length stop data : keeps_files (stop_or_length stop data).
Proof.
  unfold stop_or_length.
  destruct stop as [z|]; [destruct (z =? 0)%Z|];
    try apply keeps_files_ret;
    (apply keeps_files_bind; [apply keeps_files_of_option|intros; apply keeps_files_ret]).
Qed.

Lemma keeps_files_play_movie data start stop fps :
  keeps_files (play_movie percentile data start stop fps).
Proof.
  unfold play_movie.
  apply keeps_files_bind; [apply keeps_files_stop_or_length|intros].
  apply keeps_files_bind; [apply keeps_files_np_index0|intros].
  apply keeps_files_bind; [apply keeps_files_percentile_contrast|intros].
  apply keeps_files_bind; [apply keeps_files_plt_check|intros].
  apply keeps_files_bind; [by apply keeps_files_emit|intros].
  apply keeps_files_bind; [apply keeps_files_of_option|intros].
  apply keeps_files_bind; [by apply keeps_files_emit|intros].
  apply keeps_files_for_each. apply keeps_files_update.
Qed.

Lemma keeps_files_load_tiff_stack path : keeps_files (load_tiff_stack path).
Proof.
  unfold load_tiff_stack.
  apply keeps_files_bind; [apply keeps_files_tiff_open|intros].
  apply keeps_files_bind; [apply keeps_files_alloc|intros; apply keeps_files_ret].
Qed.

Lemma grows_update data i : grows (update percentile data i).
Proof.
  unfold update.
  apply grows_bind; [apply grows_np_index0|intros].
  apply grows_bind; [apply grows_percentile_contrast|intros].
  apply grows_bind; [apply grows_np_shape0|intros; apply grows_emit].
Qed.

Lemma grows_for_each {A : Type} (f : A -> M unit) l :
  (∀ x, grows (f x)) -> grows (for_each f l).
Proof.
  intros Hf. induction l as [|x l IH]; [apply grows_ret|].
  simpl. apply grows_bind; [apply Hf|by intros].
Qed.

Lemma grows_play_movie data start stop fps :
  grows (play_movie percentile data start stop fps).
Proof.
  unfold play_movie.
  apply grows_bind.
  { unfold stop_or_length.
    destruct stop as [z|]; [destruct (z =? 0)%Z|];
      try apply grows_ret;
      (apply grows_bind; [apply grows_np_shape0|intros; apply grows_ret]). }
  intros. apply grows_bind; [apply grows_np_index0|intros].
  apply grows_bind; [apply grows_percentile_contrast|intros].
  apply grows_bind; [apply grows_plt_check|intros].
  apply grows_bind; [apply grows_emit|intros].
  apply grows_bind; [apply grows_of_option|intros].
  apply grows_bind; [apply grows_emit|intros].
  apply grows_for_each. apply grows_update.
Qed.

Lemma grows_load_tiff_stack path : grows (load_tiff_stack path).
Proof.
  unfold load_tiff_stack.
  apply grows_bind; [apply grows_tiff_open|intros].
  apply grows_bind; [apply grows_alloc|intros; apply grows_ret].
Qed.

End ReadOnly.

End ReaderFacts.

(** ** [viewer.py] *)

Module ViewerFacts.
Import Np Rt RtFacts Viewer.

Section WithPercentile.

Variable percentile : ndarray -> Z -> npfloat.

Lemma ratio_ok num den w :
  (0 < num < 2 ^ 32)%Z -> (0 < den < 2 ^ 32)%Z ->
  ratio (TagRational num den) w
  = (Ok (IEEE.div IEEE.binary64 (Py.raw_int num) (Py.raw_int den)), w)
  ∧ Py.float_truediv one (IEEE.div IEEE.binary64 (Py.raw_int num) (Py.raw_int den))
    = Some (pixel_size num den).
Proof.
  intros Hn Hd.
  destruct (RoundFacts.int_truediv_nonzero num den Hn Hd) as (x & Hx & Hz & _).
  unfold ratio. rewrite Hx. simpl.
  unfold Py.int_truediv in Hx.
  destruct (den =? 0)%Z; [done|]. injection Hx as <-.
  split; [done|]. unfold Py.float_truediv. by rewrite Hz.
Qed.

(** A resolution tag with a zero numerator or denominator makes one of
    the divisions fail. *)
Lemma ratio_zero num den w :
  (0 <= num < 2 ^ 32)%Z -> (0 <= den < 2 ^ 32)%Z -> num = 0%Z ∨ den = 0%Z ->
  ratio (TagRational num den) w = (Raise ZeroDivisionError, w)
  ∨ ∃ x, ratio (TagRational num den) w = (Ok x, w) ∧ Py.float_truediv one x = None.
Proof.
  intros Hn Hd Hz. unfold ratio, Py.int_truediv.
  destruct (den =? 0)%Z eqn:E; [by left|]. right.
  apply Z.eqb_neq in E. destruct Hz as [-> | ->]; [|done].
  eexists. split; [done|]. by destruct den.
Qed.

(** X18.  When both resolution tags are present and one of their
    numerators or denominators is zero, [load_tiff] raises
    [ZeroDivisionError]: nothing is printed, nothing is handed to the
    viewer and no file is written. *)
Lemma load_tiff_zero_division w path tif xnum xden ynum yden :
  files w !! path = Some tif ->
  tiff_tags tif !! "XResolution" = Some (TagRational xnum xden) ->
  tiff_tags tif !! "YResolution" = Some (TagRational ynum yden) ->
  (0 <= xnum < 2 ^ 32)%Z -> (0 <= xden < 2 ^ 32)%Z ->
  (0 <= ynum < 2 ^ 32)%Z -> (0 <= yden < 2 ^ 32)%Z ->
  xnum = 0%Z ∨ xden = 0%Z ∨ ynum = 0%Z ∨ yden = 0%Z ->
  ∃ w', load_tiff percentile path w = (Raise ZeroDivisionError, w')
        ∧ trace w' = trace w ∧ files w' = files w.
Proof.
  intros Hf Hx Hy Hxn Hxd Hyn Hyd Hz.
  exists (grow w [items (tiff_data tif)]). split; [|done].
  unfold load_tiff.
  rewrite (bind_ok _ _ w w tif) by (unfold tiff_open; by rewrite Hf).
  rewrite (bind_ok _ _ _ _ _ (alloc_ok _ _)).
  rewrite Hx, Hy. cbn [of_option]. rewrite !bind_ret.
  set (w1 := grow w _).
  destruct (decide (xnum = 0%Z ∨ xden = 0%Z)) as [Zx|Nx].
  - destruct (ratio_zero xnum xden w1 Hxn Hxd Zx) as [Rx|(x & Rx & Fx)].
    { by rewrite (bind_raise _ _ _ _ _ Rx). }
    rewrite (bind_ok _ _ _ _ _ Rx).
    destruct (decide (ynum = 0%Z ∨ yden = 0%Z)) as [Zy|Ny].
    + destruct (ratio_zero ynum yden w1 Hyn Hyd Zy) as [Ry|(y & Ry & Fy)].
      { by rewrite (bind_raise _ _ _ _ _ Ry). }
      rewrite (bind_ok _ _ _ _ _ Ry). by rewrite Fx.
    + destruct (ratio_ok ynum yden w1 ltac:(lia) ltac:(lia)) as [Ry _].
      rewrite (bind_ok _ _ _ _ _ Ry). by rewrite Fx.
  - destruct (ratio_ok xnum xden w1 ltac:(lia) ltac:(lia)) as [Rx Fx].
    rewrite (bind_ok _ _ _ _ _ Rx).
    destruct (ratio_zero ynum yden w1 Hyn Hyd ltac:(tauto)) as [Ry|(y & Ry & Fy)].
    { by rewrite (bind_raise _ _ _ _ _ Ry). }
    rewrite (bind_ok _ _ _ _ _ Ry). rewrite Fx, Fy. cbn [of_option].
    by rewrite bind_ret.
Qed.

(** C5.  For a file whose first page carries XResolution = (xnum, xden)
    and YResolution = (ynum, yden), numerators and denominators being
    positive 32-bit integers, [load_tiff] succeeds, prints the shape and
    the scale (1.0, 1.0 / (ynum / yden), 1.0 / (xnum / xden)) and hands the
    stack, this scale and the 1st and 99th percentiles of the stack to the
    viewer.  For the tags (72, 1) the pixel size is the float64
    8006399337547548 * 2^-59, which is the float nearest 1/72 =
    0.01388... . *)
Theorem load_tiff_scale :
  (∀ w path tif xnum xden ynum yden,
     files w !! path = Some tif ->
     wf (tiff_data tif) ->
     tiff_tags tif !! "XResolution" = Some (TagRational xnum xden) ->
     tiff_tags tif !! "YResolution" = Some (TagRational ynum yden) ->
     (0 < xnum < 2 ^ 32)%Z -> (0 < xden < 2 ^ 32)%Z ->
     (0 < ynum < 2 ^ 32)%Z -> (0 < yden < 2 ^ 32)%Z ->
     let data := View (length (heap w)) 0 (shape (tiff_data tif)) in
     let scale := (one, pixel_size ynum yden, pixel_size xnum xden) in
     ∃ w',
       load_tiff percentile path w = (Ok tt, w')
       ∧ deref (heap w') data = Some (tiff_data tif)
       ∧ files w' = files w
       ∧ trace w'
         = trace w ++ [PrintShape (shape (tiff_data tif)); PrintScale scale;
                       AddImage data scale
                         (percentile (tiff_data tif) 1, percentile (tiff_data tif) 99)])
  ∧ pixel_size 72 1 = S754_finite false 8006399337547548 (-59)
  ∧ (IEEE.to_Q one == 1)%Q
  ∧ (1388 # 100000 < IEEE.to_Q (pixel_size 72 1) < 1389 # 100000)%Q
  ∧ (Qabs (IEEE.to_Q (pixel_size 72 1) - (1 # 72)) < 1 # 1000000000000000000)%Q.
Proof.
  split; [|by vm_compute].
  intros w path tif xnum xden ynum yden Hf Hwf Hx Hy Hxn Hxd Hyn Hyd data scale.
  destruct (ratio_ok xnum xden (grow w [items (tiff_data tif)]) Hxn Hxd) as [Rx Fx].
  destruct (ratio_ok ynum yden (grow w [items (tiff_data tif)]) Hyn Hyd) as [Ry Fy].
  eexists. unfold load_tiff.
  rewrite (bind_ok _ _ w w tif) by (unfold tiff_open; by rewrite Hf).
  rewrite (bind_ok _ _ _ _ _ (alloc_ok _ _)).
  rewrite Hx, Hy. cbn [of_option]. rewrite !bind_ret.
  rewrite (bind_ok _ _ _ _ _ Rx), (bind_ok _ _ _ _ _ Ry).
  rewrite Fx, Fy. cbn [of_option]. rewrite !bind_ret.
  rewrite (bind_ok _ _ _ _ _ (emit_ok _ _)), (bind_ok _ _ _ _ _ (emit_ok _ _)).
  erewrite bind_ok; [|apply load_ok; simpl; by apply (deref_new _ [])].
  rewrite emit_ok. split; [done|]. simpl. split; [by apply (deref_new _ [])|].
  split; [done|]. by rewrite <- !app_assoc.
Qed.

(** C6.  For a file whose first page lacks the XResolution or the
    YResolution tag, [load_tiff] raises [KeyError] for the first of the
    two that is missing: nothing is printed, nothing is handed to the
    viewer and no file is written. *)
Theorem load_tiff_missing_tag w path tif :
  files w !! path = Some tif ->
  tiff_tags tif !! "XResolution" = None ∨ tiff_tags tif !! "YResolution" = None ->
  ∃ w',
    load_tiff percentile path w
    = (Raise (KeyError (match tiff_tags tif !! "XResolution" with
                        | None => "XResolution"
                        | Some _ => "YResolution"
                        end)), w')
    ∧ trace w' = trace w ∧ files w' = files w.
Proof.
  intros Hf Hm. exists (grow w [items (tiff_data tif)]).
  split; [|done]. unfold load_tiff.
  rewrite (bind_ok _ _ w w tif) by (unfold tiff_open; by rewrite Hf).
  rewrite (bind_ok _ _ _ _ _ (alloc_ok _ _)).
  destruct (tiff_tags tif !! "XResolution") as [x|]; [|done].
  destruct Hm as [Hm|Hm]; [done|]. rewrite Hm. cbn [of_option].
  by rewrite bind_ret.
Qed.

End WithPercentile.

(** The stack of the examples stored with resolution tags (72, 1). *)
Lemma load_tiff_scale_witness :
  let tif := Examples.stack_file Examples.resolution_72 in
  let w := Examples.world_with_file "stack.tif" tif in
  let a := NdArray [5; 2; 2] Examples.counting_stack in
  let px := S754_finite false 8006399337547548 (-59) in
  files w !! "stack.tif" = Some tif
  ∧ wf (tiff_data tif)
  ∧ tiff_tags tif !! "XResolution" = Some (TagRational 72 1)
  ∧ tiff_tags tif !! "YResolution" = Some (TagRational 72 1)
  ∧ (0 < 72 < 2 ^ 32)%Z ∧ (0 < 1 < 2 ^ 32)%Z
  ∧ ∃ w',
      load_tiff percentile_linear "stack.tif" w = (Ok tt, w')
      ∧ trace w'
        = [PrintShape [5; 2; 2]; PrintScale (one, px, px);
           AddImage (View 0 0 [5; 2; 2]) (one, px, px)
             (percentile_linear a 1, percentile_linear a 99)].
Proof.
  intros tif w a px.
  split; [reflexivity|]. split; [reflexivity|]. split; [reflexivity|].
  split; [reflexivity|]. split; [lia|]. split; [lia|].
  destruct (proj1 (load_tiff_scale percentile_linear) w "stack.tif" tif 72 1 72 1)%Z
    as (w' & R & _ & _ & T);
    [reflexivity|reflexivity|reflexivity|reflexivity|lia|lia|lia|lia|].
  exists w'. split; [exact R|exact T].
Defined.

(** The stack of the examples stored without any tag. *)
Lemma load_tiff_missing_tag_witness :
  let tif := Examples.stack_file ∅ in
  let w := Examples.world_with_file "stack.tif" tif in
  files w !! "stack.tif" = Some tif
  ∧ tiff_tags tif !! "XResolution" = None
  ∧ ∃ w',
      load_tiff percentile_linear "stack.tif" w = (Raise (KeyError "XResolution"), w')
      ∧ trace w' = [] ∧ files w' = files w.
Proof.
  intros tif w. split; [reflexivity|]. split; [reflexivity|].
  destruct (load_tiff_missing_tag percentile_linear w "stack.tif" tif)
    as (w' & R & T & F); [reflexivity|left; reflexivity|].
  exists w'. split; [exact R|]. split; [exact T|exact F].
Defined.

(** *** What loading, playing and viewing never do *)

Section Loading.
Import Reader ReaderFacts.

Variable percentile : ndarray -> Z -> npfloat.

Lemma keeps_files_ratio res : keeps_files (ratio res).
Proof.
  destruct res; try apply keeps_files_raise. apply keeps_files_of_option.
Qed.

Lemma keeps_files_load_tiff path : keeps_files (load_tiff percentile path).
Proof.
  unfold load_tiff.
  repeat first
    [ apply keeps_files_tiff_open
    | apply keeps_files_alloc
    | apply keeps_files_of_option
    | apply keeps_files_ratio
    | by apply keeps_files_emit
    | apply keeps_files_load
    | apply keeps_files_bind; [|intros ?] ].
Qed.

Lemma grows_ratio res : grows (ratio res).
Proof. destruct res; try apply grows_raise. apply grows_of_option. Qed.

Lemma grows_load_tiff path : grows (load_tiff percentile path).
Proof.
  unfold load_tiff.
  repeat first
    [ apply grows_tiff_open
    | apply grows_alloc
    | apply grows_of_option
    | apply grows_ratio
    | apply grows_emit
    | apply grows_load
    | apply grows_bind; [|intros ?] ].
Qed.

(** X16.  Loading a stack, stretching, showing a frame, playing a movie
    and handing a stack to the viewer leave the disk alone whatever their
    outcome: no TIFF file is written or changed, no directory is created
    and no image is saved.  Only [save_as_tiff] and [summarize_movie]
    write. *)
Theorem only_saving_writes_files :
  (∀ path, keeps_files (load_tiff_stack path))
  ∧ (∀ img low high, keeps_files (percentile_contrast percentile img low high))
  ∧ (∀ frame title, keeps_files (show_frame percentile frame title))
  ∧ (∀ data start stop fps, keeps_files (play_movie percentile data start stop fps))
  ∧ (∀ path, keeps_files (load_tiff percentile path)).
Proof.
  split; [apply keeps_files_load_tiff_stack|].
  split; [apply keeps_files_percentile_contrast|].
  split; [apply keeps_files_show_frame|].
  split; [apply keeps_files_play_movie|apply keeps_files_load_tiff].
Qed.

(** X17.  Loading, saving, playing and viewing never overwrite an array:
    whatever the outcome of [load_tiff_stack], [save_as_tiff], [play_movie]
    and [load_tiff], every array of the store they were started in holds
    the same items afterwards. *)
Theorem arrays_never_overwritten :
  (∀ path v b w,
     deref (heap w) v = Some b ->
     deref (heap (snd (load_tiff_stack path w))) v = Some b)
  ∧ (∀ arr path t v b w,
       deref (heap w) v = Some b ->
       deref (heap (snd (save_as_tiff arr path t w))) v = Some b)
  ∧ (∀ data start stop fps v b w,
       deref (heap w) v = Some b ->
       deref (heap (snd (play_movie percentile data start stop fps w))) v = Some b)
  ∧ (∀ path v b w,
       deref (heap w) v = Some b ->
       deref (heap (snd (load_tiff percentile path w))) v = Some b).
Proof.
  split; [|split; [|split]]; intros.
  - eapply prefix_deref; [apply grows_load_tiff_stack|done].
  - eapply prefix_deref; [apply grows_save_as_tiff|done].
  - eapply prefix_deref; [apply grows_play_movie|done].
  - eapply prefix_deref; [apply grows_load_tiff|done].
Qed.

End Loading.

(** Playing the stack of the examples leaves the stack as it was. *)
Lemma arrays_never_overwritten_witness :
  let a := NdArray [5; 2; 2] Examples.counting_stack in
  let w := Examples.world_of Examples.counting_stack in
  deref (heap w) Examples.view_5x2x2 = Some a
  ∧ deref (heap (snd (Reader.play_movie percentile_linear Examples.view_5x2x2 0 None 30 w)))
      Examples.view_5x2x2 = Some a.
Proof.
  intros a w. split; [reflexivity|].
  destruct (arrays_never_overwritten percentile_linear) as (_ & _ & H & _).
  apply H. reflexivity.
Defined.

(** A zero numerator in the X resolution. *)
Lemma load_tiff_zero_division_witness :
  let tif := Examples.stack_file Examples.resolution_zero in
  let w := Examples.world_with_file "stack.tif" tif in
  files w !! "stack.tif" = Some tif
  ∧ tiff_tags tif !! "XResolution" = Some (TagRational 0 1)
  ∧ tiff_tags tif !! "YResolution" = Some (TagRational 72 1)
  ∧ ∃ w',
      load_tiff percentile_linear "stack.tif" w = (Raise ZeroDivisionError, w')
      ∧ trace w' = [] ∧ files w' = files w.
Proof.
  intros tif w. split; [reflexivity|]. split; [reflexivity|]. split; [reflexivity|].
  destruct (load_tiff_zero_division percentile_linear w "stack.tif" tif 0 1 72 1)%Z
    as (w' & R & T & F);
    [reflexivity|reflexivity|reflexivity|lia|lia|lia|lia|by left|].
  exists w'. split; [exact R|]. split; [exact T|exact F].
Defined.

End ViewerFacts.
